(** * Stochastic block partition: edge-count kernels, entropy and merges

    A shallow embedding of [partition_baseline_support.py] and of the parts of
    [block_merge.py] it is called from, followed by the properties of the
    block-model state that the design document states about them.

    Conventions of the embedding.
    - A numpy integer array is a [list Z]; the B x B edge-count matrix is the
      list of its rows.  Reading or writing outside an array raises
      [IndexError] in numpy: every kernel returns an [option] and [None]
      stands for any raised exception.
    - Block identifiers that index the kernels are natural numbers (they come
      from [np.unique] over assignments or from [range]); where the source
      indexes with stored integers that may be negative
      ([carry_out_best_merges]) the numpy wrap-around of negative indices is
      written out in [np_get].
    - Only the dense path ([use_sparse = False]) is embedded: the sparse path
      runs the same arithmetic through the [SparseMatrix] class, which is not
      part of these sources.
    - A numpy float is an extended real [npfloat]: finite values are
      idealised as real numbers (no rounding, no overflow), while the special
      values that a division by zero or a logarithm of a non-positive number
      produce are kept. *)

From Stdlib Require Import ZArith List Lia Reals Lra QArith Qround Psatz.
From stdpp Require Import base option list gmap sorting.

Open Scope Z_scope.

(** ** numpy arrays *)

Abbreviation Vec := (list Z).
Abbreviation Matrix := (list (list Z)).

Definition sumZ (v : Vec) : Z := foldr Z.add 0 v.

(** Total readers, used in statements only. *)
Definition vget (v : Vec) (t : nat) : Z := default 0 (v !! t).
Definition mget (M : Matrix) (i j : nat) : Z := vget (default [] (M !! i)) j.

(** [bigsum B f] is the sum of [f t] over the blocks [t < B]. *)
Definition bigsum (B : nat) (f : nat → Z) : Z := sumZ (f <$> seq 0 B).

(** The array of length [B] whose entry [t] is [f t], and the [B] x [B]
    matrix whose entry [(i, j)] is [F i j]: closed forms for the statements. *)
Definition vec_of (B : nat) (f : nat → Z) : list Z := f <$> seq 0 B.
Definition mat_of (B : nat) (F : nat → nat → Z) : list (list Z) :=
  (λ i, vec_of B (F i)) <$> seq 0 B.

(** The indicator of [i = j], as a number. *)
Definition ind (i j : nat) : Z := if decide (i = j) then 1 else 0.

(** [a[idx]] for an index array [idx]. *)
Definition take_idx {A} (a : list A) (idx : list nat) : option (list A) :=
  mapM (λ i, a !! i) idx.

(** [np.where(b == x)[0]], the positions of [x] in [b], counted from [k]. *)
Fixpoint where_eq_from (k : nat) (b : list nat) (x : nat) : list nat :=
  match b with
  | [] => []
  | y :: b' =>
      if decide (y = x) then k :: where_eq_from (S k) b' x
      else where_eq_from (S k) b' x
  end.

Definition where_eq (b : list nat) (x : nat) : list nat := where_eq_from 0%nat b x.

(** [np.sum(c[np.where(b == x)])]. *)
Definition sum_where (b : list nat) (c : Vec) (x : nat) : option Z :=
  sumZ <$> take_idx c (where_eq b x).

(** [v[i] = op(v[i], x)] for a scalar index: [v[i] -= x] and [v[i] += x]. *)
Definition upd_at (op : Z → Z → Z) (v : Vec) (i : nat) (x : Z) : option Vec :=
  old ← v !! i; Some (<[i := op old x]> v).

(** [v[idx] = op(v[idx], c)] for an index array: numpy first computes
    [op(v[idx], c)] from the old contents and then stores the results one
    after the other, so that a repeated index keeps its last store.  The two
    arrays must have the same length. *)
Definition store_all (v : Vec) (ixs : list (nat * Z)) : Vec :=
  foldl (λ acc ix, <[ix.1 := ix.2]> acc) v ixs.

Definition fancy_update (op : Z → Z → Z) (v : Vec) (idx : list nat) (c : Vec)
  : option Vec :=
  if decide (length idx = length c) then
    old ← take_idx v idx;
    Some (store_all v (zip idx (zip_with op old c)))
  else None.

(** The count that the pair of arrays [(b, c)] gives to block [t]. *)
Fixpoint agg (b : list nat) (c : Vec) (t : nat) : Z :=
  match b, c with
  | i :: b', x :: c' => (if decide (i = t) then x else 0) + agg b' c' t
  | _, _ => 0
  end.

(** [M[r, :]] and [M[:, r]] (copies). *)
Definition getrow (M : Matrix) (r : nat) : option Vec := M !! r.
Definition getcol (M : Matrix) (r : nat) : option Vec := mapM (λ row : Vec, row !! r) M.

(** [M[r, :] = row] and [M[:, r] = col]; a shape mismatch raises. *)
Definition set_row (M : Matrix) (r : nat) (row : Vec) : option Matrix :=
  old ← M !! r;
  if decide (length row = length old) then Some (<[r := row]> M) else None.

Definition set_col (M : Matrix) (r : nat) (col : Vec) : option Matrix :=
  if decide (length col = length M) then
    mapM (λ rx : list Z * Z, _ ← rx.1 !! r; Some (<[r := rx.2]> rx.1)) (zip M col)
  else None.

(** [a.nonzero()[0]] of a one-dimensional array, counted from [k]. *)
Fixpoint nonzero_from (k : nat) (v : Vec) : list nat :=
  match v with
  | [] => []
  | x :: v' =>
      if decide (x = 0) then nonzero_from (S k) v' else k :: nonzero_from (S k) v'
  end.

Definition nonzero (v : Vec) : list nat := nonzero_from 0%nat v.

(** ** The block-model state *)

(** The fields of [Partition] that the support functions read and write. *)
Record Partition := mkPartition {
  num_blocks : Z;
  num_blocks_to_merge : Z;
  block_assignment : list Z;
  interblock_edge_count : list (list Z);
  block_degrees_out : list Z;
  block_degrees_in : list Z;
  block_degrees : list Z
}.

(** [EdgeCountUpdates(M_r_row, M_s_row, M_r_col, M_s_col)]. *)
Record EdgeCountUpdates := mkEdgeCountUpdates {
  block_row : list Z;
  proposal_row : list Z;
  block_col : list Z;
  proposal_col : list Z
}.

Definition wf_matrix (B : nat) (M : Matrix) : Prop :=
  length M = B ∧ Forall (λ row : Vec, length row = B) M.

Definition row_sum (M : Matrix) (i : nat) : Z := sumZ (default [] (M !! i)).
Definition col_sum (M : Matrix) (j : nat) : Z := sumZ ((λ row : Vec, vget row j) <$> M).
Definition total_sum (M : Matrix) : Z := sumZ (sumZ <$> M).

(** Invariants (I1)-(I3) of a partition with [B] blocks over [E] edges. *)
Record valid_partition (B : nat) (E : Z) (p : Partition) : Prop := {
  vp_blocks : num_blocks p = Z.of_nat B;
  vp_matrix : wf_matrix B (interblock_edge_count p);
  vp_len_out : length (block_degrees_out p) = B;
  vp_len_in : length (block_degrees_in p) = B;
  vp_len_d : length (block_degrees p) = B;
  vp_nonneg : ∀ i j, 0 <= mget (interblock_edge_count p) i j;
  vp_out : ∀ i, (i < B)%nat →
    vget (block_degrees_out p) i = row_sum (interblock_edge_count p) i;
  vp_in : ∀ i, (i < B)%nat →
    vget (block_degrees_in p) i = col_sum (interblock_edge_count p) i;
  vp_d : ∀ i, (i < B)%nat →
    vget (block_degrees p) i = vget (block_degrees_out p) i + vget (block_degrees_in p) i;
  vp_total : total_sum (interblock_edge_count p) = E
}.

(** The row/column/total consistency (I1)-(I2) alone, without sign. *)
Definition degrees_consistent (B : nat) (E : Z) (p : Partition) : Prop :=
  (∀ i, (i < B)%nat →
     vget (block_degrees_out p) i = row_sum (interblock_edge_count p) i
     ∧ vget (block_degrees_in p) i = col_sum (interblock_edge_count p) i
     ∧ vget (block_degrees p) i
       = vget (block_degrees_out p) i + vget (block_degrees_in p) i)
  ∧ total_sum (interblock_edge_count p) = E.

(** ** Edge-count update kernels *)

(** [compute_new_rows_cols_interblock_edge_count_matrix], dense path. *)
Definition compute_new_rows_cols_interblock_edge_count_matrix
    (M : Matrix) (r s : nat) (b_out : list nat) (count_out : Vec)
    (b_in : list nat) (count_in : Vec) (count_self : Z) (agg_move : bool)
  : option EdgeCountUpdates :=
  let B := length M in
  rc ← (if agg_move then Some (replicate B 0, replicate B 0)
        else
          M_r_row ← getrow M r;
          M_r_col ← getcol M r;
          M_r_row ← fancy_update Z.sub M_r_row b_out count_out;
          x ← sum_where b_in count_in r;
          M_r_row ← upd_at Z.sub M_r_row r x;
          x ← sum_where b_in count_in r;
          M_r_row ← upd_at Z.add M_r_row s x;
          M_r_col ← fancy_update Z.sub M_r_col b_in count_in;
          x ← sum_where b_out count_out r;
          M_r_col ← upd_at Z.sub M_r_col r x;
          x ← sum_where b_out count_out r;
          M_r_col ← upd_at Z.add M_r_col s x;
          Some (M_r_row, M_r_col));
  M_s_row ← getrow M s;
  M_s_col ← getcol M s;
  M_s_row ← fancy_update Z.add M_s_row b_out count_out;
  x ← sum_where b_in count_in s;
  M_s_row ← upd_at Z.sub M_s_row r x;
  x ← sum_where b_in count_in s;
  M_s_row ← upd_at Z.add M_s_row s x;
  M_s_row ← upd_at Z.sub M_s_row r count_self;
  M_s_row ← upd_at Z.add M_s_row s count_self;
  M_s_col ← fancy_update Z.add M_s_col b_in count_in;
  x ← sum_where b_out count_out s;
  M_s_col ← upd_at Z.sub M_s_col r x;
  x ← sum_where b_out count_out s;
  M_s_col ← upd_at Z.add M_s_col s x;
  M_s_col ← upd_at Z.sub M_s_col r count_self;
  M_s_col ← upd_at Z.add M_s_col s count_self;
  Some (mkEdgeCountUpdates rc.1 M_s_row rc.2 M_s_col).

(** [block_merge_edge_count_updates], dense path. *)
Definition block_merge_edge_count_updates
    (M : Matrix) (r s : nat) (b_out : list nat) (count_out : Vec)
    (b_in : list nat) (count_in : Vec) (count_self : Z)
  : option EdgeCountUpdates :=
  let B := length M in
  let M_r_row := replicate B 0 in
  let M_r_col := replicate B 0 in
  M_s_row ← getrow M s;
  M_s_col ← getcol M s;
  M_s_row ← fancy_update Z.add M_s_row b_out count_out;
  x ← sum_where b_in count_in s;
  M_s_row ← upd_at Z.sub M_s_row r x;
  x ← sum_where b_in count_in s;
  M_s_row ← upd_at Z.add M_s_row s x;
  M_s_row ← upd_at Z.sub M_s_row r count_self;
  M_s_row ← upd_at Z.add M_s_row s count_self;
  M_s_col ← fancy_update Z.add M_s_col b_in count_in;
  x ← sum_where b_out count_out s;
  M_s_col ← upd_at Z.sub M_s_col r x;
  x ← sum_where b_out count_out s;
  M_s_col ← upd_at Z.add M_s_col s x;
  M_s_col ← upd_at Z.sub M_s_col r count_self;
  M_s_col ← upd_at Z.add M_s_col s count_self;
  Some (mkEdgeCountUpdates M_r_row M_s_row M_r_col M_s_col).

(** [vertex_reassign_edge_count_updates], dense path. *)
Definition vertex_reassign_edge_count_updates
    (M : Matrix) (r s : nat) (b_out : list nat) (count_out : Vec)
    (b_in : list nat) (count_in : Vec) (count_self : Z)
  : option EdgeCountUpdates :=
  M_r_row ← getrow M r;
  M_r_col ← getcol M r;
  M_s_row ← getrow M s;
  M_s_col ← getcol M s;
  M_r_row ← fancy_update Z.sub M_r_row b_out count_out;
  x ← sum_where b_in count_in r;
  M_r_row ← upd_at Z.sub M_r_row r x;
  x ← sum_where b_in count_in r;
  M_r_row ← upd_at Z.add M_r_row s x;
  M_r_col ← fancy_update Z.sub M_r_col b_in count_in;
  x ← sum_where b_out count_out r;
  M_r_col ← upd_at Z.sub M_r_col r x;
  x ← sum_where b_out count_out r;
  M_r_col ← upd_at Z.add M_r_col s x;
  M_s_row ← fancy_update Z.add M_s_row b_out count_out;
  x ← sum_where b_in count_in s;
  M_s_row ← upd_at Z.sub M_s_row r x;
  x ← sum_where b_in count_in s;
  M_s_row ← upd_at Z.add M_s_row s x;
  M_s_row ← upd_at Z.sub M_s_row r count_self;
  M_s_row ← upd_at Z.add M_s_row s count_self;
  M_s_col ← fancy_update Z.add M_s_col b_in count_in;
  x ← sum_where b_out count_out s;
  M_s_col ← upd_at Z.sub M_s_col r x;
  x ← sum_where b_out count_out s;
  M_s_col ← upd_at Z.add M_s_col s x;
  M_s_col ← upd_at Z.sub M_s_col r count_self;
  M_s_col ← upd_at Z.add M_s_col s count_self;
  Some (mkEdgeCountUpdates M_r_row M_s_row M_r_col M_s_col).

(** [outgoing_edges] and [incoming_edges] of [block_merge.py], dense path:
    the nonzero entries of row (column) [block] with their positions. *)
Definition outgoing_edges (M : Matrix) (block : nat) : option (list nat * Vec) :=
  row ← getrow M block;
  let out_blocks := nonzero row in
  w ← take_idx row out_blocks;
  Some (out_blocks, w).

Definition incoming_edges (M : Matrix) (block : nat) : option (list nat * Vec) :=
  col ← getcol M block;
  let in_blocks := nonzero col in
  w ← take_idx col in_blocks;
  Some (in_blocks, w).

(** ** Candidate block degrees *)

(** One turn of the loop of [compute_new_block_degrees]. *)
Definition new_degrees (old : Vec) (r s : nat) (degree : Z) : option Vec :=
  let new_d := old in
  new_d ← upd_at Z.sub new_d r degree;
  new_d ← upd_at Z.add new_d s degree;
  Some new_d.

(** [compute_new_block_degrees]: the list [[d_out_new, d_in_new, d_new]]. *)
Definition compute_new_block_degrees (r s : nat) (partition : Partition)
    (k_out k_in k : Z) : option (list (list Z)) :=
  mapM (λ od : list Z * Z, new_degrees od.1 r s od.2)
    (zip [block_degrees_out partition; block_degrees_in partition;
          block_degrees partition]
         [k_out; k_in; k]).

(** *** The same function over a store of arrays

    [compute_new_block_degrees] copies the three degree arrays of the
    partition and updates the copies in place.  To state what it leaves
    untouched, arrays are objects in a store: an attribute of the partition
    holds a reference, [old.copy()] allocates a fresh array, and
    [new_d[r] -= degree] writes through a reference. *)
Definition loc := nat.
Abbreviation heap := (gmap nat (list Z)).

(** The references held by the attributes [block_degrees_out],
    [block_degrees_in] and [block_degrees] of a partition object. *)
Record PartitionRefs := mkPartitionRefs {
  ref_degrees_out : loc;
  ref_degrees_in : loc;
  ref_degrees : loc
}.

(** [a.copy()]. *)
Definition heap_copy (h : heap) (a : loc) : option (loc * heap) :=
  v ← h !! a;
  let l := fresh (dom h) in
  Some (l, <[l := v]> h).

(** [a[i] = op(a[i], x)] through the reference [a]. *)
Definition heap_upd_at (op : Z → Z → Z) (h : heap) (a : loc) (i : nat) (x : Z)
  : option heap :=
  v ← h !! a;
  v' ← upd_at op v i x;
  Some (<[a := v']> h).

Definition new_degrees_heap (h : heap) (old : loc) (r s : nat) (degree : Z)
  : option (loc * heap) :=
  ch ← heap_copy h old;
  let new_d := ch.1 in
  h ← heap_upd_at Z.sub ch.2 new_d r degree;
  h ← heap_upd_at Z.add h new_d s degree;
  Some (new_d, h).

(** The loop [for old, degree in zip(...)], appending to the list [new]. *)
Fixpoint degrees_loop (ods : list (loc * Z)) (r s : nat) (new : list loc)
    (h : heap) : option (list loc * heap) :=
  match ods with
  | [] => Some (new, h)
  | od :: rest =>
      nh ← new_degrees_heap h od.1 r s od.2;
      degrees_loop rest r s (new ++ [nh.1]) nh.2
  end.

Definition compute_new_block_degrees_heap (r s : nat) (partition : PartitionRefs)
    (k_out k_in k : Z) (h : heap) : option (list loc * heap) :=
  degrees_loop
    (zip [ref_degrees_out partition; ref_degrees_in partition;
          ref_degrees partition]
         [k_out; k_in; k])
    r s [] h.

(** What the candidate vector is, block by block. *)
Definition moved_degree (old new : list Z) (B r s : nat) (degree : Z) : Prop :=
  length new = B
  ∧ (∀ t, (t < B)%nat → t ≠ r → t ≠ s → vget new t = vget old t)
  ∧ (r ≠ s → vget new r = vget old r - degree ∧ vget new s = vget old s + degree)
  ∧ (r = s → new = old)
  ∧ sumZ new = sumZ old.

(** A store holding the degree arrays of [bridge_partition], and the
    references to them. *)
Definition bridge_heap : gmap nat (list Z) :=
  <[0%nat := [1; 0]]> (<[1%nat := [0; 1]]> (<[2%nat := [1; 1]]> ∅)).

Definition bridge_refs : PartitionRefs := mkPartitionRefs 0%nat 1%nat 2%nat.

(** ** Committing a vertex move *)

(** [update_partition], dense path. *)
Definition update_partition (partition : Partition) (ni r s : nat)
    (edge_count_updates : EdgeCountUpdates) (d_out_new d_in_new d_new : Vec)
  : option Partition :=
  _ ← block_assignment partition !! ni;
  let assignment := <[ni := Z.of_nat s]> (block_assignment partition) in
  M ← set_row (interblock_edge_count partition) r (block_row edge_count_updates);
  M ← set_row M s (proposal_row edge_count_updates);
  M ← set_col M r (block_col edge_count_updates);
  M ← set_col M s (proposal_col edge_count_updates);
  Some {| num_blocks := num_blocks partition;
          num_blocks_to_merge := num_blocks_to_merge partition;
          block_assignment := assignment;
          interblock_edge_count := M;
          block_degrees_out := d_out_new;
          block_degrees_in := d_in_new;
          block_degrees := d_new |}.

(** The matrix that [update_partition] leaves: the columns are written
    after the rows, so the four cells where rows and columns [r], [s] cross
    take the values of the column vectors. *)
Definition updated_entry (F : nat → nat → Z) (r s : nat)
    (row_r row_s col_r col_s : nat → Z) (i j : nat) : Z :=
  if decide (j = s) then col_s i
  else if decide (j = r) then col_r i
  else if decide (i = s) then row_s j
  else if decide (i = r) then row_r j
  else F i j.

(** Modelled from the spec: the calling sequence of one accepted move of the
    vertex phase (section 4.7, steps 2c and 2d), whose module is not part of
    these sources.  The counts are the aggregated neighbour-block counts of
    the vertex; the degrees of the vertex are the sums of the edge weights, as
    [propose_new_partition] returns them. *)
Definition move_vertex (partition : Partition) (ni r s : nat)
    (b_out : list nat) (count_out : list Z)
    (b_in : list nat) (count_in : list Z) (count_self : Z) : option Partition :=
  u ← compute_new_rows_cols_interblock_edge_count_matrix
         (interblock_edge_count partition) r s
         b_out count_out b_in count_in count_self false;
  let k_out := sumZ count_out in
  let k_in := sumZ count_in in
  let k := k_out + k_in in
  ds ← compute_new_block_degrees r s partition k_out k_in k;
  match ds with
  | [d_out_new; d_in_new; d_new] =>
      update_partition partition ni r s u d_out_new d_in_new d_new
  | _ => None
  end.

(** The partition of the graph with vertices 0 and 1 whose only edge is a
    self-loop on vertex 0, one vertex per block. *)
Definition self_loop_partition : Partition :=
  {| num_blocks := 2;
     num_blocks_to_merge := 0;
     block_assignment := [0; 1];
     interblock_edge_count := [[1; 0]; [0; 0]];
     block_degrees_out := [1; 0];
     block_degrees_in := [1; 0];
     block_degrees := [2; 0] |}.

(** The partition of the graph with vertices 0 and 1 whose only edge goes
    from 0 to 1, one vertex per block. *)
Definition bridge_partition : Partition :=
  {| num_blocks := 2;
     num_blocks_to_merge := 0;
     block_assignment := [0; 1];
     interblock_edge_count := [[0; 1]; [0; 0]];
     block_degrees_out := [1; 0];
     block_degrees_in := [0; 1];
     block_degrees := [1; 1] |}.

(** ** numpy floats

    Finite values are real numbers; [PInf], [NInf] and [NaN] are the special
    values of IEEE arithmetic, produced and propagated as numpy does (signed
    zeros are not distinguished: a zero divisor counts as [+0.0], which is
    what a converted integer zero is). *)
Inductive npfloat : Type :=
  | Fin (x : R)
  | PInf
  | NInf
  | NaN.

Definition of_Z (z : Z) : npfloat := Fin (IZR z).

Definition is_finite (a : npfloat) : Prop := ∃ x, a = Fin x.

Definition fopp (a : npfloat) : npfloat :=
  match a with
  | Fin x => Fin (- x)
  | PInf => NInf
  | NInf => PInf
  | NaN => NaN
  end.

Definition fadd (a b : npfloat) : npfloat :=
  match a, b with
  | NaN, _ | _, NaN => NaN
  | Fin x, Fin y => Fin (x + y)
  | PInf, NInf | NInf, PInf => NaN
  | PInf, _ | _, PInf => PInf
  | NInf, _ | _, NInf => NInf
  end.

Definition fsub (a b : npfloat) : npfloat := fadd a (fopp b).

(** [x * inf] for a finite [x], where the infinity is positive iff [pos]. *)
Definition scale_inf (x : R) (pos : bool) : npfloat :=
  match total_order_T x 0 with
  | inleft (left _) => if pos then NInf else PInf
  | inleft (right _) => NaN
  | inright _ => if pos then PInf else NInf
  end.

Definition fmul (a b : npfloat) : npfloat :=
  match a, b with
  | NaN, _ | _, NaN => NaN
  | Fin x, Fin y => Fin (x * y)
  | Fin x, PInf | PInf, Fin x => scale_inf x true
  | Fin x, NInf | NInf, Fin x => scale_inf x false
  | PInf, PInf | NInf, NInf => PInf
  | PInf, NInf | NInf, PInf => NInf
  end.

Definition fdiv (a b : npfloat) : npfloat :=
  match a, b with
  | NaN, _ | _, NaN => NaN
  | Fin x, Fin y =>
      if Req_dec_T y 0 then scale_inf x true else Fin (x / y)
  | Fin _, PInf | Fin _, NInf => Fin 0
  | PInf, Fin y => if Rlt_dec y 0 then NInf else PInf
  | NInf, Fin y => if Rlt_dec y 0 then PInf else NInf
  | PInf, PInf | PInf, NInf | NInf, PInf | NInf, NInf => NaN
  end.

(** [np.log]. *)
Definition flog (a : npfloat) : npfloat :=
  match a with
  | Fin x =>
      match total_order_T x 0 with
      | inleft (left _) => NaN
      | inleft (right _) => NInf
      | inright _ => Fin (ln x)
      end
  | PInf => PInf
  | NInf => NaN
  | NaN => NaN
  end.

(** [np.sum] of a float array. *)
Definition fsum (l : list npfloat) : npfloat := foldr fadd (Fin 0) l.

(** Sums of reals over a list and over the blocks [t < B]. *)
Definition sumR (l : list R) : R := foldr Rplus 0%R l.
Definition bigsumR (B : nat) (f : nat → R) : R := sumR (f <$> seq 0 B).

(** ** Entropy *)

(** [M.nonzero()] of the matrix, in row-major order. *)
Definition nonzero2 (M : list (list Z)) : list (nat * nat) :=
  mjoin (imap (λ i row, pair i <$> nonzero row) M).

(** One entry of [edge_count_entries * np.log(edge_count_entries /
    (d_out[rows] * d_in[cols]).astype(float))]. *)
Definition data_entry (x d_out_i d_in_j : Z) : npfloat :=
  fmul (of_Z x) (flog (fdiv (of_Z x) (of_Z (d_out_i * d_in_j)))).

(** [compute_overall_entropy], dense path.  [float(E)] divides a Python
    integer: [E = 0] raises [ZeroDivisionError]. *)
Definition compute_overall_entropy (partition : Partition) (N E : Z)
  : option npfloat :=
  let M := interblock_edge_count partition in
  let nonzeros := nonzero2 M in
  entries ←
    mapM (λ ij : nat * nat,
            row ← M !! ij.1;
            x ← row !! ij.2;
            d_out_i ← block_degrees_out partition !! ij.1;
            d_in_j ← block_degrees_in partition !! ij.2;
            Some (data_entry x d_out_i d_in_j))
         nonzeros;
  let data_S := fopp (fsum entries) in
  if decide (E = 0) then None
  else
    let model_S_term := fdiv (of_Z (num_blocks partition ^ 2)) (of_Z E) in
    let model_S :=
      fadd
        (fsub
           (fmul (fmul (of_Z E) (fadd (Fin 1) model_S_term))
                 (flog (fadd (Fin 1) model_S_term)))
           (fmul model_S_term (flog model_S_term)))
        (fmul (of_Z N) (flog (of_Z (num_blocks partition)))) in
    let S := fadd model_S data_S in
    Some S.

(** The objective as the design document and the docstring state it:
    [E h(B^2/E) + N ln B - sum of M ln(M / (d_out d_in))] over the nonzero
    entries, with [h x = (1 + x) ln (1 + x) - x ln x]. *)
Definition h_fun (x : R) : R := ((1 + x) * ln (1 + x) - x * ln x)%R.

Definition data_term (x d_out_i d_in_j : Z) : R :=
  if decide (x = 0) then 0%R
  else (IZR x * ln (IZR x / (IZR d_out_i * IZR d_in_j)))%R.

Definition data_sum (B : nat) (M : list (list Z)) (d_out d_in : list Z) : R :=
  bigsumR B (λ i, bigsumR B (λ j,
    data_term (mget M i j) (vget d_out i) (vget d_in j))).

Definition S_overall (B : nat) (partition : Partition) (N E : Z) : R :=
  (IZR E * h_fun (IZR (Z.of_nat B) ^ 2 / IZR E)
   + IZR N * ln (IZR (Z.of_nat B))
   - data_sum B (interblock_edge_count partition)
       (block_degrees_out partition) (block_degrees_in partition))%R.

(** [del l[i]]. *)
Definition del_idx {A} (l : list A) (i : nat) : option (list A) :=
  if decide (i < length l)%nat then Some (delete i l) else None.

(** [np.sum(m * np.log(m.astype(float) / d / deg))] for an array [m] of
    entries, the array [d] of the degrees across and the degree [deg] of the
    row or column itself. *)
Definition entropy_entry (deg : Z) (m d : Z) : npfloat :=
  fmul (of_Z m) (flog (fdiv (fdiv (of_Z m) (of_Z d)) (of_Z deg))).

Definition entropy_sum (m d : list Z) (deg : Z) : npfloat :=
  fsum (zip_with (entropy_entry deg) m d).

(** The real value of one term [m ln(m / d / deg)]; zero entries are
    skipped. *)
Definition entropy_term (deg : Z) (m d : Z) : R :=
  if decide (m = 0) then 0%R
  else (IZR m * ln (IZR m / IZR d / IZR deg))%R.

(** A term is finite when the entry is zero, or is positive together with
    its two degrees. *)
Definition finite_term (deg m d : Z) : Prop :=
  m ≠ 0 → 0 < m ∧ 0 < d ∧ 0 < deg.

(** A function of the blocks with [r] and [s] left out. *)
Definition excl (r s : nat) (f : nat → R) (t : nat) : R :=
  if decide (t = r ∨ t = s) then 0%R else f t.

(** The blocks other than [r] and [s], as the code lists them. *)
Definition others (B r s : nat) : list nat :=
  seq 0 (r `min` s) ++ seq (S (r `min` s)) (r `max` s - S (r `min` s))
  ++ seq (S (r `max` s)) (B - S (r `max` s)).

(** [compute_delta_entropy], dense path. *)
Definition compute_delta_entropy (r s : nat) (partition : Partition)
    (edge_count_updates : EdgeCountUpdates) (d_out_new d_in_new : list Z)
  : option npfloat :=
  let M_r_row := block_row edge_count_updates in
  let M_s_row := proposal_row edge_count_updates in
  let M_r_col := block_col edge_count_updates in
  let M_s_col := proposal_col edge_count_updates in
  M_r_t1 ← getrow (interblock_edge_count partition) r;
  M_s_t1 ← getrow (interblock_edge_count partition) s;
  M_t2_r ← getcol (interblock_edge_count partition) r;
  M_t2_s ← getcol (interblock_edge_count partition) s;
  let idx := seq 0 (length d_in_new) in
  idx ← del_idx idx (r `max` s);
  idx ← del_idx idx (r `min` s);
  M_r_col ← take_idx M_r_col idx;
  M_s_col ← take_idx M_s_col idx;
  M_t2_r ← take_idx M_t2_r idx;
  M_t2_s ← take_idx M_t2_s idx;
  d_out_new_ ← take_idx d_out_new idx;
  d_out_ ← take_idx (block_degrees_out partition) idx;
  d_in_new_r_row ← take_idx d_in_new (nonzero M_r_row);
  d_in_new_s_row ← take_idx d_in_new (nonzero M_s_row);
  M_r_row ← take_idx M_r_row (nonzero M_r_row);
  M_s_row ← take_idx M_s_row (nonzero M_s_row);
  d_out_new_r_col ← take_idx d_out_new_ (nonzero M_r_col);
  d_out_new_s_col ← take_idx d_out_new_ (nonzero M_s_col);
  M_r_col ← take_idx M_r_col (nonzero M_r_col);
  M_s_col ← take_idx M_s_col (nonzero M_s_col);
  d_in_r_t1 ← take_idx (block_degrees_in partition) (nonzero M_r_t1);
  d_in_s_t1 ← take_idx (block_degrees_in partition) (nonzero M_s_t1);
  M_r_t1 ← take_idx M_r_t1 (nonzero M_r_t1);
  M_s_t1 ← take_idx M_s_t1 (nonzero M_s_t1);
  d_out_r_col ← take_idx d_out_ (nonzero M_t2_r);
  d_out_s_col ← take_idx d_out_ (nonzero M_t2_s);
  M_t2_r ← take_idx M_t2_r (nonzero M_t2_r);
  M_t2_s ← take_idx M_t2_s (nonzero M_t2_s);
  d_out_new_r ← d_out_new !! r;
  d_out_new_s ← d_out_new !! s;
  d_in_new_r ← d_in_new !! r;
  d_in_new_s ← d_in_new !! s;
  d_out_r ← block_degrees_out partition !! r;
  d_out_s ← block_degrees_out partition !! s;
  d_in_r ← block_degrees_in partition !! r;
  d_in_s ← block_degrees_in partition !! s;
  let delta_entropy := Fin 0 in
  let delta_entropy :=
    fsub delta_entropy (entropy_sum M_r_row d_in_new_r_row d_out_new_r) in
  let delta_entropy :=
    fsub delta_entropy (entropy_sum M_s_row d_in_new_s_row d_out_new_s) in
  let delta_entropy :=
    fsub delta_entropy (entropy_sum M_r_col d_out_new_r_col d_in_new_r) in
  let delta_entropy :=
    fsub delta_entropy (entropy_sum M_s_col d_out_new_s_col d_in_new_s) in
  let delta_entropy :=
    fadd delta_entropy (entropy_sum M_r_t1 d_in_r_t1 d_out_r) in
  let delta_entropy :=
    fadd delta_entropy (entropy_sum M_s_t1 d_in_s_t1 d_out_s) in
  let delta_entropy :=
    fadd delta_entropy (entropy_sum M_t2_r d_out_r_col d_in_r) in
  let delta_entropy :=
    fadd delta_entropy (entropy_sum M_t2_s d_out_s_col d_in_s) in
  Some delta_entropy.

(** The real value of the change of entropy: the terms of the new rows [r]
    and [s] over all columns and of the new columns [r] and [s] over the rows
    other than [r] and [s], subtracted; the same terms of the current matrix,
    added. *)
Definition delta_entropy_value (B r s : nat) (partition : Partition)
    (u : EdgeCountUpdates) (d_out_new d_in_new : list Z) : R :=
  let M := interblock_edge_count partition in
  let d_out := block_degrees_out partition in
  let d_in := block_degrees_in partition in
  (0 - bigsumR B (λ t, entropy_term (vget d_out_new r)
                         (vget (block_row u) t) (vget d_in_new t))
     - bigsumR B (λ t, entropy_term (vget d_out_new s)
                         (vget (proposal_row u) t) (vget d_in_new t))
     - bigsumR B (excl r s (λ t, entropy_term (vget d_in_new r)
                         (vget (block_col u) t) (vget d_out_new t)))
     - bigsumR B (excl r s (λ t, entropy_term (vget d_in_new s)
                         (vget (proposal_col u) t) (vget d_out_new t)))
     + bigsumR B (λ t, entropy_term (vget d_out r) (mget M r t) (vget d_in t))
     + bigsumR B (λ t, entropy_term (vget d_out s) (mget M s t) (vget d_in t))
     + bigsumR B (excl r s (λ t, entropy_term (vget d_in r)
                         (mget M t r) (vget d_out t)))
     + bigsumR B (excl r s (λ t, entropy_term (vget d_in s)
                         (mget M t s) (vget d_out t))))%R.

(** Every term that [compute_delta_entropy] evaluates is finite: each entry
    it meets is zero, or positive with positive degrees. *)
Definition delta_terms_finite (B r s : nat) (partition : Partition)
    (u : EdgeCountUpdates) (d_out_new d_in_new : list Z) : Prop :=
  let M := interblock_edge_count partition in
  let d_out := block_degrees_out partition in
  let d_in := block_degrees_in partition in
  (∀ t, (t < B)%nat →
     finite_term (vget d_out_new r) (vget (block_row u) t) (vget d_in_new t)
     ∧ finite_term (vget d_out_new s) (vget (proposal_row u) t) (vget d_in_new t)
     ∧ finite_term (vget d_out r) (mget M r t) (vget d_in t)
     ∧ finite_term (vget d_out s) (mget M s t) (vget d_in t))
  ∧ (∀ t, (t < B)%nat → t ≠ r → t ≠ s →
     finite_term (vget d_in_new r) (vget (block_col u) t) (vget d_out_new t)
     ∧ finite_term (vget d_in_new s) (vget (proposal_col u) t) (vget d_out_new t)
     ∧ finite_term (vget d_in r) (mget M t r) (vget d_out t)
     ∧ finite_term (vget d_in s) (mget M t s) (vget d_out t)).

(** The arrays handed to [compute_delta_entropy] have one entry per block. *)
Definition delta_shapes (B : nat) (partition : Partition)
    (u : EdgeCountUpdates) (d_out_new d_in_new : list Z) : Prop :=
  wf_matrix B (interblock_edge_count partition)
  ∧ length (block_degrees_out partition) = B
  ∧ length (block_degrees_in partition) = B
  ∧ length (block_row u) = B ∧ length (proposal_row u) = B
  ∧ length (block_col u) = B ∧ length (proposal_col u) = B
  ∧ length d_out_new = B ∧ length d_in_new = B.

(** ** Hastings correction *)

(** [np.unique]: the sorted distinct values. *)
Definition np_unique (l : list nat) : list nat := merge_sort le (remove_dups l).

(** The position of [x] in [t], the inverse that [return_inverse] gives. *)
Fixpoint position (t : list nat) (x : nat) : option nat :=
  match t with
  | [] => None
  | y :: t' => if decide (y = x) then Some 0%nat else S <$> position t' x
  end.

(** [np.bincount(idx, weights=w).astype(int)] for an array of the given
    length (the number of distinct values). *)
Definition np_bincount (n : nat) (idx : list nat) (w : list Z)
  : option (list Z) :=
  if decide (length idx = length w) then Some (vec_of n (agg idx w)) else None.

(** One entry of [count * (a + b + 1) / (d + float(B))]. *)
Definition proposal_weight (B : Z) (count a b d : Z) : npfloat :=
  fdiv (of_Z (count * (a + b + 1))) (fadd (of_Z d) (of_Z B)).

(** [compute_Hastings_correction], dense path. *)
Definition compute_Hastings_correction
    (b_out : list nat) (count_out : list Z) (b_in : list nat) (count_in : list Z)
    (s : nat) (partition : Partition) (M_r_row M_r_col d_new : list Z)
  : option npfloat :=
  let t := np_unique (b_out ++ b_in) in
  idx ← mapM (position t) (b_out ++ b_in);
  count ← np_bincount (length t) idx (count_out ++ count_in);
  M_t_s ← mapM (λ i, row ← interblock_edge_count partition !! i; row !! s) t;
  row_s ← interblock_edge_count partition !! s;
  M_s_t ← take_idx row_s t;
  M_r_row ← take_idx M_r_row t;
  M_r_col ← take_idx M_r_col t;
  d_t ← take_idx (block_degrees partition) t;
  d_new_t ← take_idx d_new t;
  let B := num_blocks partition in
  let p_forward :=
    fsum (zip_with (λ c x, proposal_weight B c x.1.1 x.1.2 x.2)
            count (zip (zip M_t_s M_s_t) d_t)) in
  let p_backward :=
    fsum (zip_with (λ c x, proposal_weight B c x.1.1 x.1.2 x.2)
            count (zip (zip M_r_row M_r_col) d_new_t)) in
  Some (fdiv p_backward p_forward).

(** The one-block partition of a graph with two vertices and two edges. *)
Definition two_edge_partition : Partition :=
  {| num_blocks := 1;
     num_blocks_to_merge := 0;
     block_assignment := [0; 0];
     interblock_edge_count := [[2]];
     block_degrees_out := [2];
     block_degrees_in := [2];
     block_degrees := [4] |}.

(** The forward and backward proposal probabilities of the design document
    (up to the common factor [1/k]): sums over the distinct neighbour blocks
    [t] of [count t (a t + b t + 1) / (d t + B)]. *)
Definition proposal_sum (B : Z) (blocks : list nat) (count a b d : nat → Z) : R :=
  sumR ((λ t, (IZR (count t) * (IZR (a t) + IZR (b t) + 1)
               / (IZR (d t) + IZR B))%R) <$> blocks).

(** [a < b] on numpy floats; any comparison with [NaN] is false. *)
Definition flt (a b : npfloat) : Prop :=
  match a, b with
  | Fin x, Fin y => (x < y)%R
  | NInf, Fin _ | NInf, PInf | Fin _, PInf => True
  | _, _ => False
  end.

Definition flt_dec (a b : npfloat) : {flt a b} + {¬ flt a b}.
Proof.
  destruct a as [x| | |], b as [y| | |]; simpl;
    try (left; exact I); try (right; tauto).
  apply Rlt_dec.
Defined.

(** The body of the inner loop of [merge_blocks] in [block_merge.py]: the
    proposal replaces the best merge of the block when its change of entropy
    is smaller. *)
Definition merge_blocks_step (best : Z * npfloat) (proposal : Z)
    (delta_entropy : npfloat) : Z * npfloat :=
  if flt_dec delta_entropy best.2 then (proposal, delta_entropy) else best.

(** A partition with three blocks over 21 edges, and the update and the
    candidate degrees of the merge of block 0 into block 1. *)
Definition three_block_partition : Partition :=
  {| num_blocks := 3;
     num_blocks_to_merge := 1;
     block_assignment := [0; 1; 2];
     interblock_edge_count := [[2; 1; 0]; [3; 4; 0]; [0; 5; 6]];
     block_degrees_out := [3; 7; 11];
     block_degrees_in := [5; 10; 6];
     block_degrees := [8; 17; 17] |}.

Definition merge_0_into_1 : EdgeCountUpdates :=
  {| block_row := [0; 0; 0];
     proposal_row := [0; 10; 0];
     block_col := [0; 0; 0];
     proposal_col := [0; 10; 5] |}.

(** The partition of the graph with vertices 0, 1, 2 and edges 0 -> 0,
    1 -> 1, 2 -> 2 and 2 -> 1, with vertices 0 and 1 in block 1 and vertex 2
    in block 0. *)
Definition self_loop_pair_partition : Partition :=
  {| num_blocks := 2;
     num_blocks_to_merge := 0;
     block_assignment := [1; 1; 0];
     interblock_edge_count := [[1; 1]; [0; 2]];
     block_degrees_out := [2; 2];
     block_degrees_in := [1; 3];
     block_degrees := [3; 5] |}.

(** ** Carrying out the best merges *)

(** [a[i]] for a stored integer [i]: numpy counts a negative index from the
    end of the array. *)
Definition np_index (len : nat) (i : Z) : option nat :=
  if decide (0 <= i) then
    if decide (i < Z.of_nat len) then Some (Z.to_nat i) else None
  else
    if decide (- Z.of_nat len <= i) then Some (Z.to_nat (Z.of_nat len + i))
    else None.

Definition np_get {A} (a : list A) (i : Z) : option A :=
  k ← np_index (length a) i; a !! k.

Definition np_set {A} (a : list A) (i : Z) (x : A) : option (list A) :=
  k ← np_index (length a) i; Some (<[k := x]> a).

(** [np.arange(n)]. *)
Definition np_arange (n : nat) : list Z := Z.of_nat <$> seq 0 n.

(** [a[np.where(a == x)] = y]. *)
Definition replace_eq (a : list Z) (x y : Z) : list Z :=
  (λ v, if decide (v = x) then y else v) <$> a.

(** [np.unique] of an integer array: the sorted distinct values. *)
Definition np_uniqueZ (l : list Z) : list Z := merge_sort Z.le (remove_dups l).

(** The [while] loop of [carry_out_best_merges]: [order] is what is left of
    [bestMerges] from position [counter] on; reading past its end raises. *)
Fixpoint merge_loop (best_merge : list Z) (n : Z) (order : list nat)
    (num_merge : Z) (block_map assignment : list Z) {struct order}
  : option (list Z * list Z) :=
  match order with
  | [] => if decide (num_merge < n) then None else Some (block_map, assignment)
  | mergeFrom :: rest =>
      if decide (num_merge < n) then
        b ← best_merge !! mergeFrom;
        mergeTo ← np_get block_map b;
        if decide (mergeTo ≠ Z.of_nat mergeFrom) then
          merge_loop best_merge n rest (num_merge + 1)
            (replace_eq block_map (Z.of_nat mergeFrom) mergeTo)
            (replace_eq assignment (Z.of_nat mergeFrom) mergeTo)
        else merge_loop best_merge n rest num_merge block_map assignment
      else Some (block_map, assignment)
  end.

(** [mapping[remaining_blocks] = np.arange(len(remaining_blocks))]. *)
Fixpoint assign_ranks (mapping : list Z) (remaining : list Z) (k : Z)
  : option (list Z) :=
  match remaining with
  | [] => Some mapping
  | b :: rest => mapping ← np_set mapping b k; assign_ranks mapping rest (k + 1)
  end.

(** The renumbering at the end of [carry_out_best_merges]. *)
Definition compact_labels (num_blocks : Z) (assignment : list Z)
  : option (list Z) :=
  let remaining_blocks := np_uniqueZ assignment in
  let mapping := replicate (Z.to_nat num_blocks) (-1) in
  mapping ← assign_ranks mapping remaining_blocks 0;
  mapM (np_get mapping) assignment.

(** [carry_out_best_merges]; [argsort] is numpy's [argsort] on the array of
    the changes of entropy. *)
Definition carry_out_best_merges {T} (argsort : list T → list nat)
    (delta_entropy_for_each_block : list T)
    (best_merge_for_each_block : list Z) (partition : Partition)
  : option Partition :=
  let bestMerges := argsort delta_entropy_for_each_block in
  let block_map := np_arange (Z.to_nat (num_blocks partition)) in
  ba ← merge_loop best_merge_for_each_block (num_blocks_to_merge partition)
         bestMerges 0 block_map (block_assignment partition);
  assignment ← compact_labels (num_blocks partition) ba.2;
  Some {| num_blocks := num_blocks partition - num_blocks_to_merge partition;
          num_blocks_to_merge := num_blocks_to_merge partition;
          block_assignment := assignment;
          interblock_edge_count := interblock_edge_count partition;
          block_degrees_out := block_degrees_out partition;
          block_degrees_in := block_degrees_in partition;
          block_degrees := block_degrees partition |}.

(** The merges that a scan of the whole order would commit, in the order of
    the scan: a block whose target, resolved through [block_map], is the block
    itself is skipped. *)
Fixpoint valid_merges (best_merge : list Z) (order : list nat)
    (block_map : list Z) : list (nat * Z) :=
  match order with
  | [] => []
  | mergeFrom :: rest =>
      match b ← best_merge !! mergeFrom; np_get block_map b with
      | Some mergeTo =>
          if decide (mergeTo ≠ Z.of_nat mergeFrom) then
            (mergeFrom, mergeTo)
            :: valid_merges best_merge rest
                 (replace_eq block_map (Z.of_nat mergeFrom) mergeTo)
          else valid_merges best_merge rest block_map
      | None => []
      end
  end.

(** The assignment after a list of merges. *)
Definition apply_merges (merges : list (nat * Z)) (a : list Z) : list Z :=
  foldl (λ acc m, replace_eq acc (Z.of_nat m.1) m.2) a merges.

(** What [argsort] guarantees: distinct positions of the array, in an order
    along which the values do not decrease. *)
Definition is_argsort {T} (le : T → T → Prop) (values : list T)
    (order : list nat) : Prop :=
  NoDup order
  ∧ Forall (λ i, (i < length values)%nat) order
  ∧ StronglySorted
      (λ i j, ∀ x y, values !! i = Some x → values !! j = Some y → le x y)
      order.

(** The set of the labels in use. *)
Definition labels (a : list Z) : gset Z := list_to_set a.

(** An [argsort] on integers, by insertion, for the examples. *)
Fixpoint insert_by (values : list Z) (i : nat) (order : list nat) : list nat :=
  match order with
  | [] => [i]
  | j :: rest =>
      if decide (default 0 (values !! i) < default 0 (values !! j))
      then i :: j :: rest
      else j :: insert_by values i rest
  end.

Definition argsortZ (values : list Z) : list nat :=
  foldl (λ acc i, insert_by values i acc) [] (seq 0 (length values)).

(** Six vertices in four blocks, two of which are to be merged away. *)
Definition four_block_partition : Partition :=
  {| num_blocks := 4;
     num_blocks_to_merge := 2;
     block_assignment := [0; 1; 2; 3; 1; 0];
     interblock_edge_count :=
       [[1; 1; 0; 0]; [0; 1; 1; 0]; [0; 0; 0; 1]; [1; 0; 0; 0]];
     block_degrees_out := [2; 2; 1; 1];
     block_degrees_in := [2; 2; 1; 1];
     block_degrees := [4; 4; 2; 2] |}.

(** ** The search over the number of blocks *)

(** Modelled from the spec: the class [PartitionTriplet] of [partition.py],
    which is not among the sources, with the two attributes that
    [prepare_for_partition_on_next_num_blocks] uses: [partitions], the three
    optional snapshots by decreasing number of blocks (the upper one, the
    middle one, the lower one), and the flag [optimal_num_blocks_found]. *)
Record PartitionTriplet := mkPartitionTriplet {
  partitions : list (option Partition);
  optimal_num_blocks_found : bool
}.

(** [partition.num_blocks_to_merge = n]. *)
Definition set_num_blocks_to_merge (p : Partition) (n : Z) : Partition :=
  {| num_blocks := num_blocks p;
     num_blocks_to_merge := n;
     block_assignment := block_assignment p;
     interblock_edge_count := interblock_edge_count p;
     block_degrees_out := block_degrees_out p;
     block_degrees_in := block_degrees_in p;
     block_degrees := block_degrees p |}.

(** [partition_triplet.partitions[i].num_blocks] and
    [partition_triplet.partitions[i].copy()]: the attribute of a missing
    snapshot cannot be read. *)
Definition snapshot_blocks (t : PartitionTriplet) (i : nat) : option Z :=
  s ← partitions t !! i; num_blocks <$> s.

Definition snapshot_copy (t : PartitionTriplet) (i : nat) : option Partition :=
  s ← partitions t !! i; s.

(** [int(x)] on a rational: the digits after the point are dropped. *)
Definition py_int (x : Q) : Z := Z.quot (Qnum x) (Z.pos (Qden x)).

(** [np.round(x)]: to the nearest integer, a half to the even one. *)
Definition np_round (x : Q) : Z :=
  let f := Qfloor x in
  match Qcompare (x - inject_Z f) (1 # 2) with
  | Lt => f
  | Gt => f + 1
  | Eq => if Z.even f then f else f + 1
  end.

(** The constant [0.618]. *)
Definition golden_ratio : Q := 618 # 1000.

(** The last branch of [prepare_for_partition_on_next_num_blocks]: the next
    number of blocks in the segment between the snapshots [index] and
    [index + 1]. *)
Definition golden_ratio_step (t : PartitionTriplet) (index : nat)
  : option Partition :=
  next_B_to_try ← snapshot_blocks t (index + 1);
  high ← snapshot_blocks t index;
  low ← snapshot_blocks t (index + 1);
  let next_B_to_try :=
    next_B_to_try + np_round (inject_Z (high - low) * golden_ratio) in
  partition ← snapshot_copy t index;
  high ← snapshot_blocks t index;
  Some (set_num_blocks_to_merge partition (high - next_B_to_try)).

(** [prepare_for_partition_on_next_num_blocks]; [update] is the method
    [PartitionTriplet.update], which is not among the sources, and [B_rate]
    a rational.  The result is the partition to go on with and the triplet
    with its flag set. *)
Definition prepare_for_partition_on_next_num_blocks
    (update : Partition → PartitionTriplet → option PartitionTriplet)
    (partition : Partition) (partition_triplet : PartitionTriplet)
    (B_rate : Q) : option (Partition * PartitionTriplet) :=
  let partition := set_num_blocks_to_merge partition 0 in
  partition_triplet ← update partition partition_triplet;
  let finish (partition : Partition) (optimal_B_found : bool) :=
    Some (partition,
          {| partitions := partitions partition_triplet;
             optimal_num_blocks_found := optimal_B_found |}) in
  p2 ← partitions partition_triplet !! 2%nat;
  match p2 with
  | None =>
      partition ← snapshot_copy partition_triplet 1;
      let partition :=
        set_num_blocks_to_merge partition
          (py_int (inject_Z (num_blocks partition) * B_rate)) in
      finish partition (bool_decide (num_blocks_to_merge partition = 0))
  | Some lower =>
      p0 ← partitions partition_triplet !! 0%nat;
      match p0 with
      | Some upper =>
          if decide (num_blocks upper - num_blocks lower = 2) then
            partition ← snapshot_copy partition_triplet 1;
            finish partition true
          else
            middle ← snapshot_blocks partition_triplet 1;
            let index :=
              if decide (num_blocks upper - middle
                         >= middle - num_blocks lower)
              then 0%nat else 1%nat in
            partition ← golden_ratio_step partition_triplet index;
            finish partition false
      | None =>
          middle ← snapshot_blocks partition_triplet 1;
          if decide (middle - num_blocks lower = 1) then
            partition ← snapshot_copy partition_triplet 1;
            finish partition true
          else if decide (middle > num_blocks lower) then
            partition ← golden_ratio_step partition_triplet 1;
            finish partition false
          else None
      end
  end.

(** An [update] that leaves the triplet [t], for the examples. *)
Definition update_to (t : PartitionTriplet)
  : Partition → PartitionTriplet → option PartitionTriplet :=
  λ _ _, Some t.

(** A partition of [b] vertices, each in a block of its own, without edges. *)
Definition singletons (b : nat) : Partition :=
  {| num_blocks := Z.of_nat b;
     num_blocks_to_merge := 0;
     block_assignment := np_arange b;
     interblock_edge_count := replicate b (replicate b 0);
     block_degrees_out := replicate b 0;
     block_degrees_in := replicate b 0;
     block_degrees := replicate b 0 |}.

(** Modelled from the spec: when the optimal number of blocks is reported
    according to the description of the search, "all three snapshots exist
    and the upper and the lower one are at most two blocks apart, or only two
    snapshots exist and the middle and the lower one are one block apart, or
    the upper snapshot does not exist yet and the number of blocks to merge at
    the rate is zero". *)
Definition reported_by_description (t : PartitionTriplet) (B_rate : Q) : bool :=
  match partitions t with
  | [Some upper; Some middle; Some lower] =>
      bool_decide (num_blocks upper - num_blocks lower <= 2)
  | [None; Some middle; Some lower] =>
      bool_decide (num_blocks middle - num_blocks lower = 1)
      || bool_decide (py_int (inject_Z (num_blocks middle) * B_rate) = 0)
  | [None; Some middle; None] =>
      bool_decide (py_int (inject_Z (num_blocks middle) * B_rate) = 0)
  | _ => false
  end.

(** ** The proposals of one block *)

(** The inner loop of [merge_blocks] for one block: the entries
    [best_merge_for_each_block[current_block]] and
    [delta_entropy_for_each_block[current_block]], initialised to [-1] and
    [np.Inf], after the proposals that [propose_merge] returned, in turn. *)
Definition merge_blocks_proposals (proposals : list (Z * npfloat))
  : Z * npfloat :=
  foldl (λ best pd, merge_blocks_step best pd.1 pd.2) (-1, PInf) proposals.

(** [bridge_partition] after vertex 0 has moved to block 1. *)
Definition bridge_moved_partition : Partition :=
  {| num_blocks := 2;
     num_blocks_to_merge := 0;
     block_assignment := [1; 1];
     interblock_edge_count := [[0; 0]; [0; 1]];
     block_degrees_out := [0; 1];
     block_degrees_in := [0; 1];
     block_degrees := [0; 2] |}.

(** [block_merge_edge_count_updates2], dense path. *)
Definition block_merge_edge_count_updates2
    (M : Matrix) (r s : nat) (b_out : list nat) (count_out : Vec)
    (b_in : list nat) (count_in : Vec) (count_self : Z)
  : option EdgeCountUpdates :=
  let B := length M in
  let M_r_row := replicate B 0 in
  let M_r_col := replicate B 0 in
  M_s_row ← getrow M s;
  M_s_col ← getcol M s;
  M_s_row ← fancy_update Z.add M_s_row b_out count_out;
  x ← sum_where b_in count_in s;
  M_s_row ← upd_at Z.sub M_s_row r x;
  x ← sum_where b_in count_in s;
  M_s_row ← upd_at Z.add M_s_row s x;
  M_s_row ← upd_at Z.sub M_s_row r count_self;
  M_s_row ← upd_at Z.add M_s_row s count_self;
  M_s_col ← fancy_update Z.add M_s_col b_in count_in;
  x ← sum_where b_out count_out s;
  M_s_col ← upd_at Z.sub M_s_col r x;
  x ← sum_where b_out count_out s;
  M_s_col ← upd_at Z.add M_s_col s x;
  M_s_col ← upd_at Z.sub M_s_col r count_self;
  M_s_col ← upd_at Z.add M_s_col s count_self;
  Some (mkEdgeCountUpdates M_r_row M_s_row M_r_col M_s_col).

(** ** Loading a graph ([graph.py]) *)

(** The class [Graph]: per node the array of its outgoing and of its
    incoming edges, each a row [[neighbour, weight]]; the numbers of nodes
    and of edges; the true block of every node, when known. *)
Record Graph := mkGraph {
  out_neighbors : list (list (Z * Z));
  in_neighbors : list (list (Z * Z));
  num_nodes : Z;
  num_edges : Z;
  true_block_assignment : option (list Z)
}.

(** [Graph.update]: the true block assignment stays. *)
Definition Graph_update (self graph : Graph) : Graph :=
  {| out_neighbors := out_neighbors graph;
     in_neighbors := in_neighbors graph;
     num_nodes := num_nodes graph;
     num_edges := num_edges graph;
     true_block_assignment := true_block_assignment self |}.

(** [l[i].append(x)] for a Python list of lists and an integer [i]. *)
Definition append_at {A} (l : list (list A)) (i : Z) (x : A)
  : option (list (list A)) :=
  k ← np_index (length l) i;
  old ← l !! k;
  Some (<[k := old ++ [x]]> l).

(** [edge_rows[:, 0:2].max()]; the maximum of an empty array raises. *)
Definition max_node_id (edge_rows : list (list Z)) : option Z :=
  match mjoin (take 2 <$> edge_rows) with
  | [] => None
  | x :: xs => Some (foldl Z.max x xs)
  end.

(** The loop over the rows of the edge file. *)
Fixpoint load_edges (edge_rows : list (list Z)) (weights_included : bool)
    (out_neighbors in_neighbors : list (list (Z * Z)))
  : option (list (list (Z * Z)) * list (list (Z * Z))) :=
  match edge_rows with
  | [] => Some (out_neighbors, in_neighbors)
  | row :: rest =>
      edge_weight ← (if weights_included then row !! 2%nat else Some 1);
      from ← row !! 0%nat;
      to ← row !! 1%nat;
      out_neighbors ← append_at out_neighbors (from - 1) (to - 1, edge_weight);
      in_neighbors ← append_at in_neighbors (to - 1) (from - 1, edge_weight);
      load_edges rest weights_included out_neighbors in_neighbors
  end.

(** The loop over the rows of the file of the true partition. *)
Fixpoint load_truth (true_b_rows : list (list Z)) (true_b : list Z)
  : option (list Z) :=
  match true_b_rows with
  | [] => Some true_b
  | row :: rest =>
      node ← row !! 0%nat;
      block ← row !! 1%nat;
      true_b ← np_set true_b (node - 1) (block - 1);
      load_truth rest true_b
  end.

(** [_load_graph], after the files are read: [edge_rows] is the array of the
    edge file, [true_b_rows] the array of the file of the true partition when
    [load_true_partition] is set, [graph] the graph loaded from the earlier
    parts of a streaming graph.  [pandas] does not return an array without
    rows. *)
Definition _load_graph (edge_rows : list (list Z))
    (true_b_rows : option (list (list Z))) (graph : option Graph)
  : option Graph :=
  first_row ← head edge_rows;
  m ← max_node_id edge_rows;
  let N :=
    match graph with
    | None => m
    | Some g => Z.max m (Z.of_nat (length (out_neighbors g)))
    end in
  let out0 :=
    match graph with
    | None => replicate (Z.to_nat N) []
    | Some g =>
        out_neighbors g
        ++ replicate (Z.to_nat (N - Z.of_nat (length (out_neighbors g)))) []
    end in
  let in0 :=
    match graph with
    | None => replicate (Z.to_nat N) []
    | Some g =>
        in_neighbors g
        ++ replicate (Z.to_nat (N - Z.of_nat (length (in_neighbors g)))) []
    end in
  let weights_included := bool_decide (length first_row = 3%nat) in
  oi ← load_edges edge_rows weights_included out0 in0;
  let E := Z.of_nat (sum_list (length <$> oi.1)) in
  true_b ←
    match true_b_rows with
    | Some rows => Some <$> load_truth rows (replicate (length rows) (-1))
    | None => Some None
    end;
  Some {| out_neighbors := oi.1; in_neighbors := oi.2;
          num_nodes := N; num_edges := E; true_block_assignment := true_b |}.

(** [Graph.load] for a graph in one file ([parts < 1], [truth] the file of
    the true partition unless [notruth]) and for a streaming graph in
    [parts >= 1] files. *)
Fixpoint load_parts (parts : list (list (list Z))) (graph : Graph)
  : option Graph :=
  match parts with
  | [] => Some graph
  | edge_rows :: rest =>
      g ← _load_graph edge_rows None (Some graph);
      load_parts rest (Graph_update graph g)
  end.

Definition Graph_load (parts : list (list (list Z)))
    (truth : option (list (list Z))) (streaming : bool) : option Graph :=
  match parts with
  | [] => None
  | first :: rest =>
      graph ← _load_graph first truth None;
      if streaming then load_parts rest graph else Some graph
  end.

(** The edge that a row of the edge file stands for: source, target and
    weight, with node numbers counted from 1 as in the file. *)
Definition row_edge (weights_included : bool) (row : list Z)
  : option (Z * Z * Z) :=
  from ← row !! 0%nat;
  to ← row !! 1%nat;
  edge_weight ← (if weights_included then row !! 2%nat else Some 1);
  Some (from, to, edge_weight).

(** The rows of a well-formed edge file: as many columns in every row, two
    or three, and node numbers counted from 1. *)
Definition edge_file (weights_included : bool) (edge_rows : list (list Z))
  : Prop :=
  Forall (λ row,
            length row = (if weights_included then 3%nat else 2%nat)
            ∧ ∃ from to w, row_edge weights_included row = Some (from, to, w)
                ∧ 1 <= from ∧ 1 <= to)
         edge_rows.

(** The outgoing edges of node [k] (counted from 0) in the rows, in their
    order, and its incoming edges. *)
Definition edges_out (weights_included : bool) (edge_rows : list (list Z))
    (k : nat) : list (Z * Z) :=
  omap (λ row, e ← row_edge weights_included row;
               if decide (e.1.1 - 1 = Z.of_nat k) then Some (e.1.2 - 1, e.2)
               else None) edge_rows.

Definition edges_in (weights_included : bool) (edge_rows : list (list Z))
    (k : nat) : list (Z * Z) :=
  omap (λ row, e ← row_edge weights_included row;
               if decide (e.1.2 - 1 = Z.of_nat k) then Some (e.1.1 - 1, e.2)
               else None) edge_rows.

(** The rows of a file whose node numbers lie between [1] and [n]. *)
Definition rows_within (weights_included : bool) (n : nat)
    (edge_rows : list (list Z)) : Prop :=
  Forall (λ row, ∃ from to w,
            row_edge weights_included row = Some (from, to, w)
            ∧ 1 <= from <= Z.of_nat n ∧ 1 <= to <= Z.of_nat n)
         edge_rows.

(** A graph with another true block assignment. *)
Definition set_truth (g : Graph) (true_b : option (list Z)) : Graph :=
  {| out_neighbors := out_neighbors g;
     in_neighbors := in_neighbors g;
     num_nodes := num_nodes g;
     num_edges := num_edges g;
     true_block_assignment := true_b |}.

(** ** The subgraph of a sample ([sample.py]) *)

Module Sample.

(** The attributes that [Sample.__init__] sets, but for [state]:
    dictionaries are finite maps, and the adjacency lists hold positions in
    the sample. *)
Record t := mk {
  vertex_mapping : gmap Z Z;
  out_neighbors : list (list Z);
  in_neighbors : list (list Z);
  num_edges : Z;
  true_blocks_mapping : gmap Z Z;
  true_block_assignment : list Z;
  sample_num : Z
}.

(** [a[start:]] for a Python integer [start]. *)
Definition slice_from {A} (a : list A) (start : Z) : list A :=
  if decide (start < 0)
  then drop (Z.to_nat (Z.of_nat (length a) + start)) a
  else drop (Z.to_nat start) a.

(** [dict([(v, k) for k, v in enumerate(l)])]: a later pair replaces an
    earlier one with the same key. *)
Definition enumerate_dict (l : list Z) : gmap Z Z :=
  foldl (λ m kv, <[kv.2 := Z.of_nat kv.1]> m) ∅ (zip (seq 0 (length l)) l).

(** [np.isin(a, test)], [a[mask]] and [np.sum(mask)]. *)
Definition np_isin (a test : list Z) : list bool :=
  (λ x, bool_decide (x ∈ test)) <$> a.

Definition select {A} (a : list A) (mask : list bool) : list A :=
  omap (λ xb : A * bool, if xb.2 then Some xb.1 else None) (zip a mask).

Definition count_true (mask : list bool) : Z :=
  Z.of_nat (sum_list ((λ b : bool, if b then 1%nat else 0%nat) <$> mask)).

(** The neighbours of a vertex that are in the sample, as positions in the
    sample, and their number. *)
Definition neighbors_in_sample (vertex_mapping : gmap Z Z)
    (sampled_vertices neighbors : list Z) : option (list Z * Z) :=
  let mask := np_isin neighbors sampled_vertices in
  let sampled_neighbors := select neighbors mask in
  sampled_neighbors ← mapM (λ w, vertex_mapping !! w) sampled_neighbors;
  Some (sampled_neighbors, count_true mask).

(** The loop over the sampled vertices.  [get_out_neighbors] and
    [get_in_neighbors] are the methods of the [graph_tool] graph. *)
Fixpoint sample_loop (get_out_neighbors get_in_neighbors : Z → option (list Z))
    (vertex_mapping : gmap Z Z) (sampled_vertices : list Z) (todo : list Z)
    (outs ins : list (list Z)) (num_edges : Z)
  : option (list (list Z) * list (list Z) * Z) :=
  match todo with
  | [] => Some (outs, ins, num_edges)
  | index :: rest =>
      out_neighbors ← get_out_neighbors index;
      o ← neighbors_in_sample vertex_mapping sampled_vertices out_neighbors;
      in_neighbors ← get_in_neighbors index;
      i ← neighbors_in_sample vertex_mapping sampled_vertices in_neighbors;
      sample_loop get_out_neighbors get_in_neighbors vertex_mapping
        sampled_vertices rest (outs ++ [o.1]) (ins ++ [i.1])
        (num_edges + (o.2 + i.2))
  end.

(** [Sample.__init__]; [sample_idx] and [sample_size] are the attributes of
    [state] that it reads, [set_order] the order in which a Python set of
    the block numbers is listed. *)
Definition init (get_out_neighbors get_in_neighbors : Z → option (list Z))
    (set_order : list Z → list Z)
    (sample_idx : list Z) (sample_size : Z)
    (old_true_block_assignment : list Z) : option t :=
  let sampled_vertices := slice_from sample_idx (- sample_size) in
  let vertex_mapping := enumerate_dict sampled_vertices in
  r ← sample_loop get_out_neighbors get_in_neighbors vertex_mapping
        sampled_vertices sampled_vertices [] [] 0;
  true_block_assignment ←
    mapM (np_get old_true_block_assignment) sampled_vertices;
  let true_blocks := set_order true_block_assignment in
  let true_blocks_mapping := enumerate_dict true_blocks in
  true_block_assignment ←
    mapM (λ b, true_blocks_mapping !! b) true_block_assignment;
  Some {| vertex_mapping := vertex_mapping;
          out_neighbors := r.1.1;
          in_neighbors := r.1.2;
          num_edges := r.2;
          true_blocks_mapping := true_blocks_mapping;
          true_block_assignment := true_block_assignment;
          sample_num := Z.of_nat (size vertex_mapping) |}.

(** What is asked of [set_order]: the distinct elements, each once. *)
Definition lists_set (set_order : list Z → list Z) : Prop :=
  ∀ l, NoDup (set_order l) ∧ ∀ x, x ∈ set_order l ↔ x ∈ l.

(** A graph given by its edges: [edge_count v w] edges go from [v] to [w],
    and the two methods list the neighbours with these multiplicities. *)
Definition lists_edges (edge_count : Z → Z → nat)
    (get_out_neighbors get_in_neighbors : Z → option (list Z))
    (vertices : list Z) : Prop :=
  ∀ v, v ∈ vertices →
    ∃ outs ins,
      get_out_neighbors v = Some outs ∧ get_in_neighbors v = Some ins
      ∧ ∀ w, w ∈ vertices →
          length (filter (λ x, x = w) outs) = edge_count v w
          ∧ length (filter (λ x, x = w) ins) = edge_count w v.

(** The number of edges between the vertices of a list. *)
Definition edges_within (edge_count : Z → Z → nat) (vertices : list Z) : nat :=
  sum_list ((λ v, sum_list (edge_count v <$> vertices)) <$> vertices).

(** The path 0 -> 1 -> 2 with a self-loop on 1, for the examples. *)
Definition path_out (v : Z) : option (list Z) :=
  if decide (v = 0) then Some [1]
  else if decide (v = 1) then Some [1; 2]
  else if decide (v = 2) then Some []
  else None.

Definition path_in (v : Z) : option (list Z) :=
  if decide (v = 0) then Some []
  else if decide (v = 1) then Some [0; 1]
  else if decide (v = 2) then Some [1]
  else None.

Definition path_edges (v w : Z) : nat :=
  if decide ((v = 0 ∧ w = 1) ∨ (v = 1 ∧ w = 1) ∨ (v = 1 ∧ w = 2))
  then 1%nat else 0%nat.

(** The sample of the vertices 2 and 1 of the path, with the true blocks
    [[5; 5; 7]] of its three vertices. *)
Definition path_sample : t :=
  {| vertex_mapping := enumerate_dict [2; 1];
     out_neighbors := [[]; [1; 0]];
     in_neighbors := [[1]; [1]];
     num_edges := 4;
     true_blocks_mapping := enumerate_dict [5; 7];
     true_block_assignment := [1; 0];
     sample_num := 2 |}.

(** ** The contribution counts of the expansion snowball sampler *)

(** [index_flag[v] or neighbor_flag[v]]; the second flag is read only when
    the first is false. *)
Definition flagged (index_flag neighbor_flag : list bool) (v : Z) : option bool :=
  in_sample ← np_get index_flag v;
  if (in_sample : bool) then Some true else np_get neighbor_flag v.

(** The first loop of [_calculate_contribution]. *)
Fixpoint count_new (vertex : Z) (contribution : list Z)
    (index_flag neighbor_flag : list bool) (out_neighbors : list Z)
    : option (list Z) :=
  match out_neighbors with
  | [] => Some contribution
  | out_neighbor :: rest =>
      seen ← flagged index_flag neighbor_flag out_neighbor;
      contribution ←
        (if (seen : bool) then Some contribution
         else c ← np_get contribution vertex; np_set contribution vertex (c + 1));
      count_new vertex contribution index_flag neighbor_flag rest
  end.

(** The second loop of [_calculate_contribution]. *)
Fixpoint discount (contribution : list Z) (in_neighbors : list Z)
    : option (list Z) :=
  match in_neighbors with
  | [] => Some contribution
  | in_neighbor :: rest =>
      c ← np_get contribution in_neighbor;
      contribution ←
        (if decide (c > 0) then np_set contribution in_neighbor (c - 1)
         else Some contribution);
      discount contribution rest
  end.

(** [_calculate_contribution]: the contribution list afterwards. *)
Definition _calculate_contribution (vertex : Z) (contribution : list Z)
    (index_flag neighbor_flag : list bool) (out_neighbors in_neighbors : list Z)
    : option (list Z) :=
  contribution ← count_new vertex contribution index_flag neighbor_flag out_neighbors;
  discount contribution in_neighbors.

(** [_add_neighbor]: the lists [contribution], [neighbor_flag] and
    [neighbors] afterwards. *)
Definition _add_neighbor (vertex : Z) (contribution : list Z)
    (index_flag neighbor_flag : list bool) (out_neighbors in_neighbors : list Z)
    (neighbors : list Z) : option (list Z * list bool * list Z) :=
  let neighbors := neighbors ++ [vertex] in
  neighbor_flag ← np_set neighbor_flag vertex true;
  c ← np_get contribution vertex;
  if decide (c = 0) then
    contribution ← _calculate_contribution vertex contribution index_flag
                     neighbor_flag out_neighbors in_neighbors;
    Some (contribution, neighbor_flag, neighbors)
  else Some (contribution, neighbor_flag, neighbors).

(** The out-neighbours counted as new: neither sampled nor flagged. *)
Definition new_neighbors (index_flag neighbor_flag : list bool)
    (out_neighbors : list Z) : list Z :=
  filter (λ v, flagged index_flag neighbor_flag v = Some false) out_neighbors.

End Sample.

(** ** Proposals *)

(** The calls to [numpy.random] that the proposal functions make, as
    functions of their arguments: [np.random.choice(l)],
    [np.random.choice(a, p=p)], [np.random.randint(n)],
    [np.random.uniform()] and [np.random.multinomial(1, pvals)]. *)
Record Random := mkRandom {
  random_choice : list Z → option Z;
  random_choice_p : list Z → list npfloat → option Z;
  random_randint : Z → option Z;
  random_uniform : npfloat;
  random_multinomial : list npfloat → option (list Z)
}.

(** What [numpy] promises of them: a choice is an element of the array, a
    random integer lies in [0, n), a uniform draw lies in [0, 1), and the
    counts of a multinomial draw are as many as the probabilities. *)
Definition random_ok (rng : Random) : Prop :=
  (∀ l x, random_choice rng l = Some x → x ∈ l)
  ∧ (∀ a p x, random_choice_p rng a p = Some x → x ∈ a)
  ∧ (∀ n x, random_randint rng n = Some x → 0 <= x < n)
  ∧ (∃ x, random_uniform rng = Fin x ∧ (0 <= x < 1)%R)
  ∧ (∀ p v, random_multinomial rng p = Some v → length v = length p).

(** [propose_random_block]. *)
Definition propose_random_block (rng : Random) (current_block num_blocks : Z)
    (agg_move : bool) : option Z :=
  if agg_move then
    let candidates :=
      filter (λ c, c ≠ current_block) (np_arange (Z.to_nat num_blocks)) in
    random_choice rng candidates
  else random_randint rng num_blocks.

(** [a <= b] and [a == 0] on numpy floats. *)
Definition fle_dec (a b : npfloat) : bool :=
  match a, b with
  | Fin x, Fin y => if Rle_dec x y then true else false
  | NInf, Fin _ | NInf, PInf | Fin _, PInf | NInf, NInf | PInf, PInf => true
  | _, _ => false
  end.

Definition fzero_dec (a : npfloat) : bool :=
  match a with
  | Fin x => if Req_dec_T x 0 then true else false
  | _ => false
  end.

(** [a.nonzero()[0]] of an array of floats. *)
Definition fnonzero (a : list npfloat) : list nat :=
  omap (λ ix : nat * npfloat, if fzero_dec ix.2 then None else Some ix.1)
       (zip (seq 0 (length a)) a).

(** [np.flatnonzero(v)[0]]. *)
Definition first_nonzero (v : list Z) : option nat :=
  head (nonzero v).

(** [row + col] of two one-dimensional arrays: elementwise, an array of one
    element is broadcast, any other difference of shapes raises. *)
Definition np_add (a b : list Z) : option (list Z) :=
  if decide (length a = length b) then Some (zip_with Z.add a b)
  else match a, b with
       | [x], _ => Some (Z.add x <$> b)
       | _, [y] => Some ((λ x, x + y) <$> a)
       | _, _ => None
       end.

(** [propose_new_partition], dense path: the proposal and the degrees
    [k_out], [k_in] and [k].  The rows of [neighbors_out] and [neighbors_in]
    are pairs of a neighbour and a weight.  [num_blocks] is a Python integer,
    so its division by [float(d_u + num_blocks)] raises when that sum is
    zero; the division of the array of counts by [float(d_u)] is numpy's and
    does not raise. *)
Definition propose_new_partition (rng : Random) (r : Z)
    (neighbors_out neighbors_in : list (Z * Z)) (b : list Z)
    (partition : Partition) (agg_move : bool) : option (Z * Z * Z * Z) :=
  let neighbors := neighbors_out ++ neighbors_in in
  let k_out := sumZ neighbors_out.*2 in
  let k_in := sumZ neighbors_in.*2 in
  let k := k_out + k_in in
  if decide (k = 0) then
    s ← propose_random_block rng r (num_blocks partition) agg_move;
    Some (s, k_out, k_in, k)
  else
    rand_neighbor ←
      random_choice_p rng neighbors.*1
        ((λ w, fdiv (of_Z w) (of_Z k)) <$> neighbors.*2);
    u ← np_get b rand_neighbor;
    d_u ← np_get (block_degrees partition) u;
    if decide (d_u + num_blocks partition = 0) then None
    else if fle_dec (random_uniform rng)
              (fdiv (of_Z (num_blocks partition))
                    (of_Z (d_u + num_blocks partition)))
    then
      s ← propose_random_block rng r (num_blocks partition) agg_move;
      Some (s, k_out, k_in, k)
    else
      let M := interblock_edge_count partition in
      iu ← np_index (length M) u;
      row ← getrow M iu;
      ju ← np_index (length row) u;
      col ← getcol M ju;
      counts ← np_add row col;
      let multinomial_prob := (λ x, fdiv (of_Z x) (of_Z d_u)) <$> counts in
      if agg_move then
        multinomial_prob ← np_set multinomial_prob r (Fin 0);
        if fzero_dec (fsum multinomial_prob) then
          let candidates :=
            filter (λ c, c ≠ r) (np_arange (Z.to_nat (num_blocks partition))) in
          s ← random_choice rng candidates;
          Some (s, k_out, k_in, k)
        else
          let total := fsum multinomial_prob in
          let multinomial_prob := (λ x, fdiv x total) <$> multinomial_prob in
          let candidates := fnonzero multinomial_prob in
          pvals ← take_idx multinomial_prob candidates;
          draw ← random_multinomial rng pvals;
          i ← first_nonzero draw;
          s ← candidates !! i;
          Some (Z.of_nat s, k_out, k_in, k)
      else
        let candidates := fnonzero multinomial_prob in
        pvals ← take_idx multinomial_prob candidates;
        draw ← random_multinomial rng pvals;
        i ← first_nonzero draw;
        s ← candidates !! i;
        Some (Z.of_nat s, k_out, k_in, k).

(** A generator that always takes the first choice and draws [u] as its
    uniform number, for the examples. *)
Definition first_choice (u : npfloat) : Random :=
  {| random_choice := head;
     random_choice_p := λ a _, head a;
     random_randint := λ n, if decide (0 < n) then Some 0 else None;
     random_uniform := u;
     random_multinomial :=
       λ p, match p with
            | [] => Some []
            | _ :: p' => Some (1 :: replicate (length p') 0)
            end |}.

(** Three blocks on a ring, 0 -> 1 -> 2 -> 0, one vertex in each. *)
Definition ring_partition : Partition :=
  {| num_blocks := 3;
     num_blocks_to_merge := 1;
     block_assignment := [0; 1; 2];
     interblock_edge_count := [[0; 1; 0]; [0; 0; 1]; [1; 0; 0]];
     block_degrees_out := [1; 1; 1];
     block_degrees_in := [1; 1; 1];
     block_degrees := [2; 2; 2] |}.

(** * Properties of the array operations *)

Section arrays.
Implicit Types (v c : list Z) (idx b : list nat) (M : list (list Z)).

Lemma sumZ_app v1 v2 : sumZ (v1 ++ v2) = sumZ v1 + sumZ v2.
Proof. induction v1 as [|x v1 IH]; simpl; [done | rewrite IH; lia]. Qed.

Lemma vget_lookup v t x : v !! t = Some x → vget v t = x.
Proof. unfold vget. by intros ->. Qed.

Lemma vget_ge v t : (length v <= t)%nat → vget v t = 0.
Proof. intros H. unfold vget. by rewrite lookup_ge_None_2. Qed.

Lemma lookup_vget v t : (t < length v)%nat → v !! t = Some (vget v t).
Proof.
  intros H. destruct (lookup_lt_is_Some_2 v t H) as [x Hx].
  by rewrite (vget_lookup _ _ _ Hx).
Qed.

Lemma length_vec_of B f : length (vec_of B f) = B.
Proof. unfold vec_of. by rewrite length_fmap, length_seq. Qed.

Lemma lookup_vec_of B f t : (t < B)%nat → vec_of B f !! t = Some (f t).
Proof.
  intros H. unfold vec_of. rewrite list_lookup_fmap, lookup_seq_lt by done.
  done.
Qed.

Lemma vget_vec_of B f t : (t < B)%nat → vget (vec_of B f) t = f t.
Proof. intros H. apply vget_lookup, lookup_vec_of, H. Qed.

Lemma vec_of_ext B f g :
  (∀ t, (t < B)%nat → f t = g t) → vec_of B f = vec_of B g.
Proof.
  intros H. unfold vec_of. apply list_eq. intros t.
  rewrite !list_lookup_fmap.
  destruct (decide (t < B)%nat) as [Ht|Ht].
  - rewrite lookup_seq_lt by done. simpl. by rewrite H.
  - by rewrite lookup_seq_ge by lia.
Qed.

Lemma vec_of_vget v : vec_of (length v) (vget v) = v.
Proof.
  apply list_eq. intros t. destruct (decide (t < length v)%nat) as [Ht|Ht].
  - rewrite lookup_vec_of by done. by rewrite lookup_vget.
  - rewrite !lookup_ge_None_2; [done | lia | rewrite length_vec_of; lia].
Qed.

Lemma replicate_vec_of B x : replicate B x = vec_of B (λ _, x).
Proof.
  apply list_eq. intros t. destruct (decide (t < B)%nat) as [Ht|Ht].
  - rewrite lookup_vec_of by done. by apply lookup_replicate_2.
  - rewrite !lookup_ge_None_2;
      [done | rewrite length_vec_of; lia | rewrite length_replicate; lia].
Qed.

Lemma length_mat_of B F : length (mat_of B F) = B.
Proof. unfold mat_of. by rewrite length_fmap, length_seq. Qed.

Lemma lookup_mat_of B F i :
  (i < B)%nat → mat_of B F !! i = Some (vec_of B (F i)).
Proof.
  intros H. unfold mat_of. rewrite list_lookup_fmap, lookup_seq_lt by done.
  done.
Qed.

Lemma mget_mat_of B F i j :
  (i < B)%nat → (j < B)%nat → mget (mat_of B F) i j = F i j.
Proof.
  intros Hi Hj. unfold mget. rewrite lookup_mat_of by done. simpl.
  by apply vget_vec_of.
Qed.

Lemma wf_mat_of B F : wf_matrix B (mat_of B F).
Proof.
  split; [apply length_mat_of|]. unfold mat_of.
  apply Forall_fmap, Forall_forall. intros i _. apply length_vec_of.
Qed.

Lemma mat_of_ext B F G :
  (∀ i j, (i < B)%nat → (j < B)%nat → F i j = G i j) → mat_of B F = mat_of B G.
Proof.
  intros H. unfold mat_of. apply list_eq. intros i.
  rewrite !list_lookup_fmap.
  destruct (decide (i < B)%nat) as [Hi|Hi].
  - rewrite lookup_seq_lt by done. simpl. f_equal.
    apply vec_of_ext. intros j Hj. by apply H.
  - by rewrite lookup_seq_ge by lia.
Qed.

Lemma mat_of_mget B M : wf_matrix B M → mat_of B (mget M) = M.
Proof.
  intros [Hlen Hrows]. apply list_eq. intros i.
  destruct (decide (i < B)%nat) as [Hi|Hi].
  - rewrite lookup_mat_of by done.
    destruct (lookup_lt_is_Some_2 M i) as [row Hrow]; [lia|].
    rewrite Hrow. f_equal.
    assert (length row = B) as Hl.
    { eapply (proj1 (Forall_lookup _ _) Hrows); eauto. }
    rewrite <- Hl at 1. unfold mget. rewrite Hrow. simpl. apply vec_of_vget.
  - rewrite !lookup_ge_None_2; [done | lia | rewrite length_mat_of; lia].
Qed.

(** *** Sums over the blocks *)

Lemma bigsum_S B f : bigsum (S B) f = bigsum B f + f B.
Proof.
  unfold bigsum. rewrite seq_S, fmap_app, sumZ_app. simpl. lia.
Qed.

Lemma bigsum_ext B f g :
  (∀ t, (t < B)%nat → f t = g t) → bigsum B f = bigsum B g.
Proof.
  induction B as [|B IH]; intros H; [done|].
  rewrite !bigsum_S, IH, H by (intros; try apply H; lia). done.
Qed.

Lemma bigsum_add B f g :
  bigsum B (λ t, f t + g t) = bigsum B f + bigsum B g.
Proof. induction B as [|B IH]; [done|]. rewrite !bigsum_S, IH. lia. Qed.

Lemma bigsum_sub B f g :
  bigsum B (λ t, f t - g t) = bigsum B f - bigsum B g.
Proof. induction B as [|B IH]; [done|]. rewrite !bigsum_S, IH. lia. Qed.

Lemma bigsum_scale B a f : bigsum B (λ t, a * f t) = a * bigsum B f.
Proof.
  induction B as [|B IH]; [unfold bigsum; simpl; lia|].
  rewrite !bigsum_S, IH. lia.
Qed.

Lemma bigsum_zero B : bigsum B (λ _, 0) = 0.
Proof. induction B as [|B IH]; [done|]. rewrite bigsum_S, IH. lia. Qed.

Lemma bigsum_ind B i : (i < B)%nat → bigsum B (λ t, ind t i) = 1.
Proof.
  unfold ind. induction B as [|B IH]; intros Hi; [lia|].
  rewrite bigsum_S. destruct (decide (i = B)) as [->|Hne].
  - rewrite decide_True by done.
    rewrite (bigsum_ext B _ (λ _, 0)), bigsum_zero; [lia|].
    intros t Ht. rewrite decide_False; [done | lia].
  - rewrite IH by lia. rewrite decide_False; [lia | done].
Qed.

Lemma bigsum_nonneg B f :
  (∀ t, (t < B)%nat → 0 <= f t) → 0 <= bigsum B f.
Proof.
  induction B as [|B IH]; intros H; [done|].
  rewrite bigsum_S. specialize (H B) as HB. 
  assert (0 <= bigsum B f) by (apply IH; intros; apply H; lia). lia.
Qed.

Lemma bigsum_exchange B C F :
  bigsum B (λ i, bigsum C (λ j, F i j)) = bigsum C (λ j, bigsum B (λ i, F i j)).
Proof.
  induction B as [|B IH].
  - by rewrite bigsum_zero.
  - rewrite bigsum_S, IH, <- bigsum_add. apply bigsum_ext. intros j _.
    by rewrite bigsum_S.
Qed.

Lemma sumZ_vec_of B f : sumZ (vec_of B f) = bigsum B f.
Proof. done. Qed.

Lemma sumZ_bigsum v : sumZ v = bigsum (length v) (vget v).
Proof. rewrite <- sumZ_vec_of. by rewrite vec_of_vget. Qed.

Lemma row_sum_mat_of B F i :
  (i < B)%nat → row_sum (mat_of B F) i = bigsum B (F i).
Proof. intros Hi. unfold row_sum. by rewrite lookup_mat_of. Qed.

Lemma col_sum_mat_of B F j :
  (j < B)%nat → col_sum (mat_of B F) j = bigsum B (λ i, F i j).
Proof.
  intros Hj. unfold col_sum, mat_of, bigsum. rewrite <- list_fmap_compose.
  f_equal. apply list_fmap_ext. intros k i Hk. simpl.
  apply lookup_seq in Hk as [-> Hk]. by apply vget_vec_of.
Qed.

Lemma total_sum_mat_of B F :
  total_sum (mat_of B F) = bigsum B (λ i, bigsum B (F i)).
Proof.
  unfold total_sum, mat_of, bigsum at 1. by rewrite <- list_fmap_compose.
Qed.

End arrays.

(** * The array operations in closed form *)

Section arrayops.
Implicit Types (v c : list Z) (idx b : list nat) (M : list (list Z)).

Lemma upd_at_vec_of op B f i x :
  (i < B)%nat →
  upd_at op (vec_of B f) i x
  = Some (vec_of B (λ t, if decide (t = i) then op (f i) x else f t)).
Proof.
  intros Hi. unfold upd_at. rewrite lookup_vec_of by done. simpl. f_equal.
  apply list_eq. intros t. destruct (decide (t < B)%nat) as [Ht|Ht].
  - rewrite lookup_vec_of by done. destruct (decide (t = i)) as [->|Hne].
    + by rewrite list_lookup_insert_eq by (rewrite length_vec_of; lia).
    + rewrite list_lookup_insert_ne by done. by apply lookup_vec_of.
  - rewrite !lookup_ge_None_2;
      [done | rewrite length_vec_of; lia
      | rewrite length_insert, length_vec_of; lia].
Qed.

Lemma take_idx_vec_of B f idx :
  Forall (λ i, (i < B)%nat) idx → take_idx (vec_of B f) idx = Some (f <$> idx).
Proof.
  unfold take_idx. induction 1 as [|i idx Hi _ IH]; [done|].
  simpl. rewrite lookup_vec_of by done. simpl. by rewrite IH.
Qed.

Lemma take_idx_None {A} (a : list A) idx :
  ¬ Forall (λ i, (i < length a)%nat) idx → take_idx a idx = None.
Proof.
  unfold take_idx. induction idx as [|i idx IH]; intros H.
  - destruct H. constructor.
  - simpl. destruct (a !! i) as [x|] eqn:Hx; [|done]. simpl.
    rewrite IH; [done|]. intros HF. apply H. constructor; [|done].
    by eapply lookup_lt_Some.
Qed.

Lemma length_store_all v ixs : length (store_all v ixs) = length v.
Proof.
  unfold store_all. revert v. induction ixs as [|ix ixs IH]; intros v; [done|].
  simpl. by rewrite IH, length_insert.
Qed.

Lemma agg_not_in idx c t : t ∉ idx → agg idx c t = 0.
Proof.
  revert c. induction idx as [|i idx IH]; intros c Hnot; [done|].
  destruct c as [|x c]; [done|]. simpl.
  rewrite decide_False by (intros ->; apply Hnot; by left).
  rewrite IH; [done|]. intros Hin. apply Hnot. by right.
Qed.

Lemma vget_store_all v idx xs t :
  NoDup idx → length idx = length xs → (t < length v)%nat →
  vget (store_all v (zip idx xs)) t
  = if decide (t ∈ idx) then agg idx xs t else vget v t.
Proof.
  unfold store_all. intros Hnd. revert v xs.
  induction Hnd as [|i idx Hnot Hnd IH]; intros v xs Hlen Ht.
  - destruct (decide (t ∈ [])) as [Hin|_]; [by apply elem_of_nil in Hin | done].
  - destruct xs as [|x xs]; [done|].
    cbn [zip zip_with foldl fst snd agg length] in *.
    rewrite IH by (rewrite ?length_insert; lia).
    destruct (decide (i = t)) as [->|Hne].
    + rewrite (decide_True (P := t ∈ t :: idx)) by (by left).
      rewrite (decide_False (P := t ∈ idx)) by done.
      rewrite agg_not_in by done.
      unfold vget. rewrite list_lookup_insert_eq by done. simpl. lia.
    + destruct (decide (t ∈ idx)) as [Hin|Hnin].
      * rewrite decide_True by (by right). lia.
      * rewrite decide_False by (intros [->|?]%elem_of_cons; done).
        unfold vget. by rewrite list_lookup_insert_ne.
Qed.

Lemma agg_zip_with (op : Z → Z → Z) (g : nat → Z) idx c t :
  NoDup idx → length idx = length c → t ∈ idx →
  agg idx (zip_with op (g <$> idx) c) t = op (g t) (agg idx c t).
Proof.
  intros Hnd. revert c. induction Hnd as [|i idx Hnot Hnd IH]; intros c Hlen Hin.
  - by apply elem_of_nil in Hin.
  - destruct c as [|x c]; [done|].
    cbn [agg zip_with fmap list_fmap length] in *.
    destruct (decide (i = t)) as [->|Hne].
    + rewrite !agg_not_in by done. by rewrite !Z.add_0_r.
    + apply elem_of_cons in Hin as [->|Hin]; [done|].
      rewrite IH by (done || lia). by rewrite !Z.add_0_l.
Qed.

(** [v[idx] += c] and [v[idx] -= c] over distinct indices add (subtract) at
    every block the count that [(idx, c)] gives to it. *)
Lemma fancy_update_add B f idx c :
  NoDup idx → Forall (λ i, (i < B)%nat) idx → length idx = length c →
  fancy_update Z.add (vec_of B f) idx c
  = Some (vec_of B (λ t, f t + agg idx c t)).
Proof.
  intros Hnd Hrange Hlen. unfold fancy_update.
  rewrite decide_True by done. rewrite take_idx_vec_of by done. simpl.
  f_equal. rewrite <- (vec_of_vget (store_all _ _)).
  rewrite length_store_all, length_vec_of. apply vec_of_ext. intros t Ht.
  rewrite vget_store_all;
    [| done | by rewrite length_zip_with, length_fmap; lia
     | by rewrite length_vec_of].
  destruct (decide (t ∈ idx)) as [Hin|Hnin].
  - by rewrite agg_zip_with.
  - rewrite vget_vec_of, agg_not_in by done. lia.
Qed.

Lemma fancy_update_sub B f idx c :
  NoDup idx → Forall (λ i, (i < B)%nat) idx → length idx = length c →
  fancy_update Z.sub (vec_of B f) idx c
  = Some (vec_of B (λ t, f t - agg idx c t)).
Proof.
  intros Hnd Hrange Hlen. unfold fancy_update.
  rewrite decide_True by done. rewrite take_idx_vec_of by done. simpl.
  f_equal. rewrite <- (vec_of_vget (store_all _ _)).
  rewrite length_store_all, length_vec_of. apply vec_of_ext. intros t Ht.
  rewrite vget_store_all;
    [| done | by rewrite length_zip_with, length_fmap; lia
     | by rewrite length_vec_of].
  destruct (decide (t ∈ idx)) as [Hin|Hnin].
  - by rewrite agg_zip_with.
  - rewrite vget_vec_of, agg_not_in by done. lia.
Qed.

Lemma take_where_eq_from (pre c : list Z) b x :
  length b = length c →
  sumZ <$> take_idx (pre ++ c) (where_eq_from (length pre) b x)
  = Some (agg b c x).
Proof.
  revert pre c. induction b as [|y b IH]; intros pre c Hlen.
  - by destruct c.
  - destruct c as [|z c]; [done|]. simpl in *.
    specialize (IH (pre ++ [z]) c). rewrite length_app in IH. simpl in IH.
    replace (length pre + 1)%nat with (S (length pre)) in IH by lia.
    rewrite <- app_assoc in IH. simpl in IH.
    assert (length b = length c) as Hl by lia. specialize (IH Hl).
    destruct (decide (y = x)) as [->|Hne].
    + unfold take_idx in *. simpl.
      rewrite lookup_app_r, Nat.sub_diag by lia. simpl.
      destruct (mapM _ _) as [l|]; [|done]. simpl in *.
      injection IH as IH. f_equal. lia.
    + rewrite IH. f_equal.
Qed.

Lemma sum_where_agg b c x :
  length b = length c → sum_where b c x = Some (agg b c x).
Proof. intros H. apply (take_where_eq_from [] c b x H). Qed.

Lemma bigsum_agg B idx c :
  Forall (λ i, (i < B)%nat) idx → length idx = length c →
  bigsum B (agg idx c) = sumZ c.
Proof.
  intros Hr. revert c. induction Hr as [|i idx Hi _ IH]; intros c Hlen.
  - destruct c; [|done]. simpl. apply bigsum_zero.
  - destruct c as [|x c]; [done|]. simpl in *.
    rewrite bigsum_add, IH by lia.
    rewrite (bigsum_ext B _ (λ t, x * ind t i)).
    + rewrite bigsum_scale, bigsum_ind by done. lia.
    + intros t _. unfold ind.
      destruct (decide (i = t)); [rewrite decide_True by done|
                                  rewrite decide_False by done]; lia.
Qed.

Lemma getrow_mat_of B F r :
  (r < B)%nat → getrow (mat_of B F) r = Some (vec_of B (F r)).
Proof. apply lookup_mat_of. Qed.

Lemma mapM_fmap_total {X Y W} (f : X → Y) (g : Y → option W) (h : X → W) l :
  (∀ x, x ∈ l → g (f x) = Some (h x)) → mapM g (f <$> l) = Some (h <$> l).
Proof.
  induction l as [|x l IH]; intros H; [done|].
  cbn [fmap list_fmap mapM]. rewrite H by (by left). simpl.
  rewrite IH; [done|]. intros y Hy. apply H. by right.
Qed.

Lemma mapM_total {X W} (g : X → option W) (h : X → W) l :
  (∀ x, x ∈ l → g x = Some (h x)) → mapM g l = Some (h <$> l).
Proof.
  intros H. rewrite <- (list_fmap_id l) at 1. by apply mapM_fmap_total.
Qed.

Lemma getcol_mat_of B F r :
  (r < B)%nat → getcol (mat_of B F) r = Some (vec_of B (λ i, F i r)).
Proof.
  intros Hr. unfold getcol, mat_of. apply mapM_fmap_total.
  intros i _. by apply lookup_vec_of.
Qed.

Lemma set_row_mat_of B F r f :
  (r < B)%nat →
  set_row (mat_of B F) r (vec_of B f)
  = Some (mat_of B (λ i j, if decide (i = r) then f j else F i j)).
Proof.
  intros Hr. unfold set_row. rewrite lookup_mat_of by done. simpl.
  rewrite decide_True by (by rewrite !length_vec_of). f_equal.
  apply list_eq. intros i. destruct (decide (i < B)%nat) as [Hi|Hi].
  - rewrite lookup_mat_of by done. destruct (decide (i = r)) as [->|Hne].
    + rewrite list_lookup_insert_eq by (rewrite length_mat_of; lia).
      f_equal.
    + rewrite list_lookup_insert_ne by done. by rewrite lookup_mat_of.
  - rewrite !lookup_ge_None_2;
      [done | rewrite length_mat_of; lia
      | rewrite length_insert, length_mat_of; lia].
Qed.

Lemma zip_fmap_seq {X Y} (f : nat → X) (g : nat → Y) k B :
  zip (f <$> seq k B) (g <$> seq k B) = (λ i, (f i, g i)) <$> seq k B.
Proof.
  revert k. induction B as [|B IH]; intros k; [done|].
  simpl. by rewrite IH.
Qed.

Lemma set_col_mat_of B F r f :
  (r < B)%nat →
  set_col (mat_of B F) r (vec_of B f)
  = Some (mat_of B (λ i j, if decide (j = r) then f i else F i j)).
Proof.
  intros Hr. unfold set_col.
  rewrite decide_True by (by rewrite length_vec_of, length_mat_of).
  unfold mat_of at 1. unfold vec_of at 2. rewrite zip_fmap_seq.
  apply mapM_fmap_total. intros i _. simpl.
  rewrite lookup_vec_of by done. simpl. f_equal.
  apply list_eq. intros j. destruct (decide (j < B)%nat) as [Hj|Hj].
  - rewrite lookup_vec_of by done. destruct (decide (j = r)) as [->|Hne].
    + by rewrite list_lookup_insert_eq by (rewrite length_vec_of; lia).
    + rewrite list_lookup_insert_ne by done. by apply lookup_vec_of.
  - rewrite !lookup_ge_None_2;
      [done | rewrite length_vec_of; lia
      | rewrite length_insert, length_vec_of; lia].
Qed.

End arrayops.

(** * The edge-count update kernels in closed form *)

Section kernels.
Context (B : nat) (F : nat → nat → Z) (r s : nat).
Context (b_out : list nat) (count_out : list Z).
Context (b_in : list nat) (count_in : list Z) (count_self : Z).
Hypothesis Hr : (r < B)%nat.
Hypothesis Hs : (s < B)%nat.
Hypothesis Hnd_out : NoDup b_out.
Hypothesis Hnd_in : NoDup b_in.
Hypothesis Hrange_out : Forall (λ i, (i < B)%nat) b_out.
Hypothesis Hrange_in : Forall (λ i, (i < B)%nat) b_in.
Hypothesis Hlen_out : length b_out = length count_out.
Hypothesis Hlen_in : length b_in = length count_in.

Let cout := agg b_out count_out.
Let cin := agg b_in count_in.

Ltac kernel_steps :=
  repeat first
    [ rewrite getrow_mat_of by done
    | rewrite getcol_mat_of by done
    | rewrite replicate_vec_of
    | rewrite fancy_update_add by done
    | rewrite fancy_update_sub by done
    | rewrite sum_where_agg by done
    | rewrite upd_at_vec_of by done
    | progress cbn [mbind option_bind fst snd] ].

Ltac pointwise :=
  apply vec_of_ext; intros t Ht; unfold ind; subst cout cin;
  repeat (case_decide; subst; try lia).

Lemma vertex_move_closed_form :
  compute_new_rows_cols_interblock_edge_count_matrix (mat_of B F) r s
    b_out count_out b_in count_in count_self false
  = Some {|
      block_row := vec_of B (λ t,
        F r t - cout t - ind t r * cin r + ind t s * cin r);
      proposal_row := vec_of B (λ t,
        F s t + cout t - ind t r * (cin s + count_self)
        + ind t s * (cin s + count_self));
      block_col := vec_of B (λ t,
        F t r - cin t - ind t r * cout r + ind t s * cout r);
      proposal_col := vec_of B (λ t,
        F t s + cin t - ind t r * (cout s + count_self)
        + ind t s * (cout s + count_self)) |}.
Proof.
  unfold compute_new_rows_cols_interblock_edge_count_matrix.
  cbv zeta. rewrite ?length_mat_of. kernel_steps.
  f_equal. f_equal; pointwise.
Qed.

Lemma vertex_reassign_closed_form :
  vertex_reassign_edge_count_updates (mat_of B F) r s
    b_out count_out b_in count_in count_self
  = compute_new_rows_cols_interblock_edge_count_matrix (mat_of B F) r s
      b_out count_out b_in count_in count_self false.
Proof.
  rewrite vertex_move_closed_form.
  unfold vertex_reassign_edge_count_updates. kernel_steps.
  f_equal. f_equal; pointwise.
Qed.

Lemma block_merge_closed_form :
  block_merge_edge_count_updates (mat_of B F) r s
    b_out count_out b_in count_in count_self
  = Some {|
      block_row := vec_of B (λ _, 0);
      proposal_row := vec_of B (λ t,
        F s t + cout t - ind t r * (cin s + count_self)
        + ind t s * (cin s + count_self));
      block_col := vec_of B (λ _, 0);
      proposal_col := vec_of B (λ t,
        F t s + cin t - ind t r * (cout s + count_self)
        + ind t s * (cout s + count_self)) |}.
Proof.
  unfold block_merge_edge_count_updates.
  cbv zeta. rewrite ?length_mat_of. kernel_steps.
  f_equal. f_equal; pointwise.
Qed.

End kernels.

(** The merge kernel is the [agg_move] branch of the general kernel. *)
Lemma block_merge_is_agg_move M r s b_out count_out b_in count_in count_self :
  block_merge_edge_count_updates M r s b_out count_out b_in count_in count_self
  = compute_new_rows_cols_interblock_edge_count_matrix M r s
      b_out count_out b_in count_in count_self true.
Proof. reflexivity. Qed.

(** *** Neighbour counts of a block *)

Lemma nonzero_from_spec k (v : list Z) :
  NoDup (nonzero_from k v)
  ∧ (∀ i, i ∈ nonzero_from k v ↔ (k <= i)%nat ∧ vget v (i - k) ≠ 0).
Proof.
  revert k. induction v as [|x v IH]; intros k; simpl.
  - split; [constructor|]. intros i. rewrite elem_of_nil.
    split; [done|]. intros [_ H]. by destruct (i - k)%nat.
  - destruct (IH (S k)) as [Hnd Hin].
    assert (∀ i, (S k <= i)%nat → vget (x :: v) (i - k) = vget v (i - S k)) as Hsh.
    { intros i Hi. replace (i - k)%nat with (S (i - S k)) by lia. done. }
    destruct (decide (x = 0)) as [->|Hx].
    + split; [done|]. intros i. rewrite Hin. split.
      * intros [Hi Hne]. split; [lia|]. by rewrite Hsh.
      * intros [Hi Hne]. destruct (decide (i = k)) as [->|Hik].
        { rewrite Nat.sub_diag in Hne. done. }
        split; [lia|]. rewrite <- Hsh by lia. done.
    + split.
      * constructor; [|done]. rewrite Hin. lia.
      * intros i. rewrite elem_of_cons, Hin. split.
        { intros [->|[Hi Hne]].
          - split; [lia|]. by rewrite Nat.sub_diag.
          - split; [lia|]. by rewrite Hsh. }
        { intros [Hi Hne]. destruct (decide (i = k)) as [->|Hik]; [by left|].
          right. split; [lia|]. rewrite <- Hsh by lia. done. }
Qed.

Lemma NoDup_nonzero (v : list Z) : NoDup (nonzero v).
Proof. apply nonzero_from_spec. Qed.

Lemma elem_of_nonzero (v : list Z) i : i ∈ nonzero v ↔ vget v i ≠ 0.
Proof.
  unfold nonzero. rewrite (proj2 (nonzero_from_spec 0 v)), Nat.sub_0_r.
  split; [by intros [_ ?] | intros; split; [lia | done]].
Qed.

Lemma nonzero_lt (v : list Z) : Forall (λ i, (i < length v)%nat) (nonzero v).
Proof.
  apply Forall_forall. intros i Hi%elem_of_nonzero.
  destruct (decide (i < length v)%nat); [done|].
  by rewrite vget_ge in Hi by lia.
Qed.

Lemma agg_fmap (g : nat → Z) idx t :
  NoDup idx → agg idx (g <$> idx) t = if decide (t ∈ idx) then g t else 0.
Proof.
  induction 1 as [|i idx Hnot Hnd IH].
  - destruct (decide (t ∈ [])) as [H|_]; [by apply elem_of_nil in H | done].
  - cbn [fmap list_fmap agg]. rewrite IH.
    destruct (decide (i = t)) as [->|Hne].
    + rewrite (decide_False (P := t ∈ idx)) by done.
      rewrite decide_True by (by left). lia.
    + destruct (decide (t ∈ idx)) as [Hin|Hnin].
      * rewrite decide_True by (by right). lia.
      * rewrite decide_False by (intros [->|?]%elem_of_cons; done). lia.
Qed.

(** The nonzero entries of a vector, as a pair of arrays, give every block
    its entry. *)
Lemma nonzero_counts B f :
  take_idx (vec_of B f) (nonzero (vec_of B f))
  = Some (f <$> nonzero (vec_of B f))
  ∧ ∀ t, (t < B)%nat →
      agg (nonzero (vec_of B f)) (f <$> nonzero (vec_of B f)) t = f t.
Proof.
  pose proof (nonzero_lt (vec_of B f)) as Hlt. rewrite length_vec_of in Hlt.
  split; [by apply take_idx_vec_of|].
  intros t Ht. rewrite agg_fmap by apply NoDup_nonzero.
  destruct (decide (t ∈ nonzero (vec_of B f))) as [Hin|Hnin]; [done|].
  rewrite elem_of_nonzero, vget_vec_of in Hnin by done.
  destruct (decide (f t = 0)); [lia | done].
Qed.

Lemma outgoing_edges_spec B F r :
  (r < B)%nat →
  ∃ b_out count_out,
    outgoing_edges (mat_of B F) r = Some (b_out, count_out)
    ∧ NoDup b_out ∧ Forall (λ i, (i < B)%nat) b_out
    ∧ length b_out = length count_out
    ∧ ∀ t, (t < B)%nat → agg b_out count_out t = F r t.
Proof.
  intros Hr. unfold outgoing_edges. rewrite getrow_mat_of by done.
  cbn [mbind option_bind].
  destruct (nonzero_counts B (F r)) as [-> Hagg]. cbn [mbind option_bind].
  eexists _, _. split; [done|].
  pose proof (nonzero_lt (vec_of B (F r))) as Hlt. rewrite length_vec_of in Hlt.
  split; [apply NoDup_nonzero|]. split; [done|].
  split; [by rewrite length_fmap | done].
Qed.

Lemma incoming_edges_spec B F r :
  (r < B)%nat →
  ∃ b_in count_in,
    incoming_edges (mat_of B F) r = Some (b_in, count_in)
    ∧ NoDup b_in ∧ Forall (λ i, (i < B)%nat) b_in
    ∧ length b_in = length count_in
    ∧ ∀ t, (t < B)%nat → agg b_in count_in t = F t r.
Proof.
  intros Hr. unfold incoming_edges. rewrite getcol_mat_of by done.
  cbn [mbind option_bind].
  destruct (nonzero_counts B (λ i, F i r)) as [-> Hagg]. cbn [mbind option_bind].
  eexists _, _. split; [done|].
  pose proof (nonzero_lt (vec_of B (λ i, F i r))) as Hlt.
  rewrite length_vec_of in Hlt.
  split; [apply NoDup_nonzero|]. split; [done|].
  split; [by rewrite length_fmap | done].
Qed.

(** * The merge update (r empties into s) *)

Lemma Forall_vec_of (P : Z → Prop) B f :
  (∀ t, (t < B)%nat → P (f t)) → Forall P (vec_of B f).
Proof.
  intros H. unfold vec_of. apply Forall_fmap, Forall_forall.
  intros t Ht%elem_of_seq. apply H. lia.
Qed.

(** C5. For a merge of block [r] into block [s] whose neighbour counts are
    given per distinct block, with [count_self = M[r,r]], the kernel returns
    zero vectors for row [r] and column [r]; [row_s] is [M[s,.]] plus
    [count_out] at the out-neighbour blocks, minus
    [(sum of count_in where b_in == s) + count_self] at index [r] and plus the
    same quantity at index [s]; [col_s] is given by the symmetric arithmetic
    over the in-neighbours; and when the matrix has no negative entry all four
    vectors are entrywise nonnegative. *)
Theorem block_merge_edge_count_updates_spec
    (B : nat) (M : list (list Z)) (r s : nat)
    (b_out : list nat) (count_out : list Z)
    (b_in : list nat) (count_in : list Z) :
  wf_matrix B M → (r < B)%nat → (s < B)%nat →
  NoDup b_out → NoDup b_in →
  Forall (λ i, (i < B)%nat) b_out → Forall (λ i, (i < B)%nat) b_in →
  length b_out = length count_out → length b_in = length count_in →
  (∀ t, (t < B)%nat → agg b_out count_out t = mget M r t) →
  (∀ t, (t < B)%nat → agg b_in count_in t = mget M t r) →
  ∃ u,
    block_merge_edge_count_updates M r s b_out count_out b_in count_in
      (mget M r r) = Some u
    ∧ block_row u = replicate B 0
    ∧ block_col u = replicate B 0
    ∧ length (proposal_row u) = B
    ∧ length (proposal_col u) = B
    ∧ (∀ t, (t < B)%nat →
         vget (proposal_row u) t
         = mget M s t + agg b_out count_out t
           - ind t r * (agg b_in count_in s + mget M r r)
           + ind t s * (agg b_in count_in s + mget M r r))
    ∧ (∀ t, (t < B)%nat →
         vget (proposal_col u) t
         = mget M t s + agg b_in count_in t
           - ind t r * (agg b_out count_out s + mget M r r)
           + ind t s * (agg b_out count_out s + mget M r r))
    ∧ ((∀ i j, 0 <= mget M i j) →
         Forall (Z.le 0) (block_row u) ∧ Forall (Z.le 0) (proposal_row u)
         ∧ Forall (Z.le 0) (block_col u) ∧ Forall (Z.le 0) (proposal_col u)).
Proof.
  intros Hwf Hr Hs Hnd_out Hnd_in Hr_out Hr_in Hl_out Hl_in Hout Hin.
  pose proof (block_merge_closed_form B (mget M) r s b_out count_out
                b_in count_in (mget M r r) Hr Hs Hnd_out Hnd_in Hr_out Hr_in
                Hl_out Hl_in) as Hcf.
  rewrite (mat_of_mget B M Hwf) in Hcf. rewrite Hcf.
  eexists. split; [reflexivity|]. cbn [block_row block_col proposal_row proposal_col].
  rewrite !replicate_vec_of, !length_vec_of.
  repeat split; try done.
  - intros t Ht. by rewrite vget_vec_of.
  - intros t Ht. by rewrite vget_vec_of.
  - by apply Forall_vec_of.
  - apply Forall_vec_of. intros t Ht.
    rewrite Hout, (Hin s) by done.
    pose proof (H s t). pose proof (H r t). pose proof (H s r). pose proof (H r r).
    unfold ind. repeat (case_decide; subst; try lia).
  - by apply Forall_vec_of.
  - apply Forall_vec_of. intros t Ht.
    rewrite Hin, (Hout s) by done.
    pose proof (H t s). pose proof (H t r). pose proof (H r s). pose proof (H r r).
    unfold ind. repeat (case_decide; subst; try lia).
Qed.

(** A merge of block 0 into block 1 in a three-block matrix, with the counts
    that [outgoing_edges] and [incoming_edges] read off the matrix. *)
Lemma block_merge_edge_count_updates_spec_witness :
  outgoing_edges [[2; 1; 0]; [3; 4; 0]; [0; 5; 6]] 0 = Some ([0; 1]%nat, [2; 1])
  ∧ incoming_edges [[2; 1; 0]; [3; 4; 0]; [0; 5; 6]] 0 = Some ([0; 1]%nat, [2; 3])
  ∧ ∃ u,
    block_merge_edge_count_updates [[2; 1; 0]; [3; 4; 0]; [0; 5; 6]] 0 1
      [0; 1]%nat [2; 1] [0; 1]%nat [2; 3] 2 = Some u
    ∧ proposal_row u = [0; 10; 0] ∧ proposal_col u = [0; 10; 5].
Proof.
  split; [reflexivity|]. split; [reflexivity|].
  destruct (block_merge_edge_count_updates_spec 3
              [[2; 1; 0]; [3; 4; 0]; [0; 5; 6]] 0 1
              [0; 1]%nat [2; 1] [0; 1]%nat [2; 3])
    as (u & Hu & _).
  - split; [reflexivity|]. repeat constructor.
  - lia.
  - lia.
  - apply (bool_decide_unpack _). vm_compute. exact I.
  - apply (bool_decide_unpack _). vm_compute. exact I.
  - repeat constructor.
  - repeat constructor.
  - reflexivity.
  - reflexivity.
  - intros [|[|[|t]]] Ht; reflexivity.
  - intros [|[|[|t]]] Ht; reflexivity.
  - exists u. split; [exact Hu|].
    vm_compute in Hu. injection Hu as <-. split; reflexivity.
Defined.

(** * Committing a vertex move *)

Lemma new_degrees_closed_form B f r s k :
  (r < B)%nat → (s < B)%nat →
  new_degrees (vec_of B f) r s k
  = Some (vec_of B (λ t, f t - ind t r * k + ind t s * k)).
Proof.
  intros Hr Hs. unfold new_degrees.
  rewrite upd_at_vec_of by done. cbn [mbind option_bind].
  rewrite upd_at_vec_of by done. cbn [mbind option_bind]. f_equal.
  apply vec_of_ext. intros t Ht. unfold ind.
  repeat (case_decide; subst; try lia).
Qed.

Lemma new_degrees_list B (old : list Z) r s k :
  (r < B)%nat → (s < B)%nat → length old = B →
  new_degrees old r s k
  = Some (vec_of B (λ t, vget old t - ind t r * k + ind t s * k)).
Proof.
  intros Hr Hs <-.
  pose proof (new_degrees_closed_form (length old) (vget old) r s k Hr Hs) as H.
  by rewrite vec_of_vget in H.
Qed.

Lemma compute_new_block_degrees_closed_form B p r s k_out k_in k :
  (r < B)%nat → (s < B)%nat →
  length (block_degrees_out p) = B → length (block_degrees_in p) = B →
  length (block_degrees p) = B →
  compute_new_block_degrees r s p k_out k_in k
  = Some [ vec_of B (λ t, vget (block_degrees_out p) t
                          - ind t r * k_out + ind t s * k_out);
           vec_of B (λ t, vget (block_degrees_in p) t
                          - ind t r * k_in + ind t s * k_in);
           vec_of B (λ t, vget (block_degrees p) t - ind t r * k + ind t s * k) ].
Proof.
  intros Hr Hs H1 H2 H3. unfold compute_new_block_degrees.
  cbn [zip zip_with mapM fst snd].
  by rewrite !(new_degrees_list B) by done.
Qed.

Lemma update_partition_closed_form B F p ni r s f1 f2 f3 f4 d1 d2 d3 :
  interblock_edge_count p = mat_of B F →
  (ni < length (block_assignment p))%nat → (r < B)%nat → (s < B)%nat →
  update_partition p ni r s
    (mkEdgeCountUpdates (vec_of B f1) (vec_of B f2) (vec_of B f3) (vec_of B f4))
    d1 d2 d3
  = Some {| num_blocks := num_blocks p;
            num_blocks_to_merge := num_blocks_to_merge p;
            block_assignment := <[ni := Z.of_nat s]> (block_assignment p);
            interblock_edge_count := mat_of B (updated_entry F r s f1 f2 f3 f4);
            block_degrees_out := d1;
            block_degrees_in := d2;
            block_degrees := d3 |}.
Proof.
  intros HM Hni Hr Hs. unfold update_partition.
  destruct (lookup_lt_is_Some_2 _ _ Hni) as [x ->]. cbn [mbind option_bind].
  rewrite HM. cbn [block_row proposal_row block_col proposal_col].
  rewrite set_row_mat_of by done. cbn [mbind option_bind].
  rewrite set_row_mat_of by done. cbn [mbind option_bind].
  rewrite set_col_mat_of by done. cbn [mbind option_bind].
  rewrite set_col_mat_of by done. cbn [mbind option_bind].
  reflexivity.
Qed.

Section vertex_move.
Context (B : nat) (E : Z) (p : Partition) (ni r s : nat).
Context (b_out : list nat) (count_out : list Z).
Context (b_in : list nat) (count_in : list Z) (count_self : Z).
Hypothesis Hwf : wf_matrix B (interblock_edge_count p).
Hypothesis Hlen_dout : length (block_degrees_out p) = B.
Hypothesis Hlen_din : length (block_degrees_in p) = B.
Hypothesis Hlen_d : length (block_degrees p) = B.
Hypothesis Hni : (ni < length (block_assignment p))%nat.
Hypothesis Hr : (r < B)%nat.
Hypothesis Hs : (s < B)%nat.
Hypothesis Hnd_out : NoDup b_out.
Hypothesis Hnd_in : NoDup b_in.
Hypothesis Hrange_out : Forall (λ i, (i < B)%nat) b_out.
Hypothesis Hrange_in : Forall (λ i, (i < B)%nat) b_in.
Hypothesis Hlen_out : length b_out = length count_out.
Hypothesis Hlen_in : length b_in = length count_in.

Let M := interblock_edge_count p.
Let cout := agg b_out count_out.
Let cin := agg b_in count_in.

(** The partition that an accepted move leaves, in closed form. *)
Lemma move_vertex_closed_form :
  move_vertex p ni r s b_out count_out b_in count_in count_self
  = Some {|
      num_blocks := num_blocks p;
      num_blocks_to_merge := num_blocks_to_merge p;
      block_assignment := <[ni := Z.of_nat s]> (block_assignment p);
      interblock_edge_count := mat_of B (updated_entry (mget M) r s
        (λ t, mget M r t - cout t - ind t r * cin r + ind t s * cin r)
        (λ t, mget M s t + cout t - ind t r * (cin s + count_self)
              + ind t s * (cin s + count_self))
        (λ t, mget M t r - cin t - ind t r * cout r + ind t s * cout r)
        (λ t, mget M t s + cin t - ind t r * (cout s + count_self)
              + ind t s * (cout s + count_self)));
      block_degrees_out := vec_of B (λ t,
        vget (block_degrees_out p) t - ind t r * sumZ count_out
        + ind t s * sumZ count_out);
      block_degrees_in := vec_of B (λ t,
        vget (block_degrees_in p) t - ind t r * sumZ count_in
        + ind t s * sumZ count_in);
      block_degrees := vec_of B (λ t,
        vget (block_degrees p) t - ind t r * (sumZ count_out + sumZ count_in)
        + ind t s * (sumZ count_out + sumZ count_in)) |}.
Proof.
  unfold move_vertex.
  pose proof (vertex_move_closed_form B (mget M) r s b_out count_out
                b_in count_in count_self Hr Hs Hnd_out Hnd_in Hrange_out
                Hrange_in Hlen_out Hlen_in) as Hk.
  rewrite (mat_of_mget B M Hwf) in Hk. subst M. rewrite Hk.
  cbn [mbind option_bind]. cbv zeta.
  rewrite (compute_new_block_degrees_closed_form B) by done.
  cbn [mbind option_bind].
  apply update_partition_closed_form; try done.
  symmetry. by apply mat_of_mget.
Qed.

(** Every entry after the move is the old entry plus the out-counts moved
    from row [r] to row [s], plus the in-counts moved from column [r] to
    column [s], plus [count_self] moved from [(r, s)] to [(s, s)]. *)
Lemma moved_entry i j :
  r ≠ s → (i < B)%nat → (j < B)%nat →
  updated_entry (mget M) r s
    (λ t, mget M r t - cout t - ind t r * cin r + ind t s * cin r)
    (λ t, mget M s t + cout t - ind t r * (cin s + count_self)
          + ind t s * (cin s + count_self))
    (λ t, mget M t r - cin t - ind t r * cout r + ind t s * cout r)
    (λ t, mget M t s + cin t - ind t r * (cout s + count_self)
          + ind t s * (cout s + count_self)) i j
  = mget M i j + (ind i s - ind i r) * cout j + cin i * (ind j s - ind j r)
    + ((ind i s - ind i r) * count_self) * ind j s.
Proof.
  intros Hrs Hi Hj. unfold updated_entry, ind.
  repeat (case_decide; subst; try lia).
Qed.

Lemma bigsum_ind_diff j1 j2 :
  (j1 < B)%nat → (j2 < B)%nat → bigsum B (λ j, ind j j1 - ind j j2) = 0.
Proof. intros H1 H2. rewrite bigsum_sub, !bigsum_ind by done. lia. Qed.

Lemma moved_row_sum F' i :
  r ≠ s → (i < B)%nat →
  (∀ j, (j < B)%nat →
     F' j = mget M i j + (ind i s - ind i r) * cout j
            + cin i * (ind j s - ind j r)
            + ((ind i s - ind i r) * count_self) * ind j s) →
  bigsum B F'
  = bigsum B (mget M i) + (ind i s - ind i r) * (sumZ count_out + count_self).
Proof.
  intros Hrs Hi HF. rewrite (bigsum_ext _ _ _ HF).
  rewrite !bigsum_add, !bigsum_scale, bigsum_ind_diff, bigsum_ind by done.
  subst cout. rewrite bigsum_agg by done. lia.
Qed.

Lemma moved_col_sum F' j :
  r ≠ s → (j < B)%nat →
  (∀ i, (i < B)%nat →
     F' i = mget M i j + (ind i s - ind i r) * cout j
            + cin i * (ind j s - ind j r)
            + ((ind i s - ind i r) * count_self) * ind j s) →
  bigsum B F'
  = bigsum B (λ i, mget M i j) + (ind j s - ind j r) * sumZ count_in.
Proof.
  intros Hrs Hj HF.
  rewrite (bigsum_ext _ _ (λ i, mget M i j + cout j * (ind i s - ind i r)
             + (ind j s - ind j r) * cin i
             + (count_self * ind j s) * (ind i s - ind i r))).
  - rewrite !bigsum_add, !bigsum_scale, bigsum_ind_diff by done.
    subst cin. rewrite bigsum_agg by done. lia.
  - intros i Hi. rewrite HF by done. lia.
Qed.

(** After an accepted move from [r] to [s <> r]: the column sums are the new
    in-degrees, the total is unchanged, the total degrees are the sums of the
    out- and in-degrees, and the row sums are the new out-degrees except that
    row [r] falls short by [count_self] and row [s] exceeds by it. *)
Lemma move_vertex_sums :
  r ≠ s → degrees_consistent B E p →
  ∃ p', move_vertex p ni r s b_out count_out b_in count_in count_self = Some p'
    ∧ wf_matrix B (interblock_edge_count p')
    ∧ (∀ i, (i < B)%nat →
         row_sum (interblock_edge_count p') i
         = vget (block_degrees_out p') i + (ind i s - ind i r) * count_self)
    ∧ (∀ i, (i < B)%nat →
         vget (block_degrees_in p') i = col_sum (interblock_edge_count p') i)
    ∧ (∀ i, (i < B)%nat →
         vget (block_degrees p') i
         = vget (block_degrees_out p') i + vget (block_degrees_in p') i)
    ∧ total_sum (interblock_edge_count p') = E.
Proof.
  intros Hrs [Hdeg Htot]. eexists. split; [apply move_vertex_closed_form|].
  cbn [interblock_edge_count block_degrees_out block_degrees_in block_degrees].
  assert (Hrow : ∀ i, (i < B)%nat → row_sum M i = bigsum B (mget M i)).
  { intros i Hi. rewrite <- (mat_of_mget B M Hwf) at 1.
    by apply row_sum_mat_of. }
  assert (Hcol : ∀ j, (j < B)%nat → col_sum M j = bigsum B (λ i, mget M i j)).
  { intros j Hj. rewrite <- (mat_of_mget B M Hwf) at 1.
    by apply col_sum_mat_of. }
  assert (Htotal : total_sum M = bigsum B (λ i, bigsum B (mget M i))).
  { rewrite <- (mat_of_mget B M Hwf) at 1. apply total_sum_mat_of. }
  split; [apply wf_mat_of|]. split; [|split; [|split]].
  - intros i Hi. rewrite row_sum_mat_of, vget_vec_of by done.
    rewrite (moved_row_sum _ i Hrs Hi) by (intros; by apply moved_entry).
    destruct (Hdeg i Hi) as (-> & _ & _). fold M. rewrite Hrow by done. lia.
  - intros i Hi. rewrite col_sum_mat_of, vget_vec_of by done.
    rewrite (moved_col_sum _ i Hrs Hi) by (intros; by apply moved_entry).
    destruct (Hdeg i Hi) as (_ & -> & _). fold M. rewrite Hcol by done. lia.
  - intros i Hi. rewrite !vget_vec_of by done.
    destruct (Hdeg i Hi) as (_ & _ & ->). lia.
  - rewrite total_sum_mat_of.
    rewrite (bigsum_ext _ _ (λ i, bigsum B (mget M i)
               + (sumZ count_out + count_self) * (ind i s - ind i r))).
    + rewrite bigsum_add, bigsum_scale, bigsum_ind_diff by done.
      rewrite <- Htot. fold M. rewrite Htotal. lia.
    + intros i Hi.
      rewrite (moved_row_sum _ i Hrs Hi) by (intros; by apply moved_entry).
      lia.
Qed.

End vertex_move.

(** Without a self-loop on the moved vertex an accepted move keeps (I1) and
    (I2). *)
Lemma move_vertex_preserves_degrees
    (B : nat) (E : Z) (p : Partition) (ni r s : nat)
    (b_out : list nat) (count_out : list Z) (b_in : list nat) (count_in : list Z) :
  wf_matrix B (interblock_edge_count p) →
  length (block_degrees_out p) = B → length (block_degrees_in p) = B →
  length (block_degrees p) = B →
  (ni < length (block_assignment p))%nat → (r < B)%nat → (s < B)%nat →
  NoDup b_out → NoDup b_in →
  Forall (λ i, (i < B)%nat) b_out → Forall (λ i, (i < B)%nat) b_in →
  length b_out = length count_out → length b_in = length count_in →
  r ≠ s → degrees_consistent B E p →
  ∃ p', move_vertex p ni r s b_out count_out b_in count_in 0 = Some p'
        ∧ degrees_consistent B E p'.
Proof.
  intros Hwf H1 H2 H3 Hni Hr Hs Hn1 Hn2 Hr1 Hr2 Hl1 Hl2 Hrs Hc.
  destruct (move_vertex_sums B E p ni r s b_out count_out b_in count_in 0
              Hwf H1 H2 H3 Hni Hr Hs Hn1 Hn2 Hr1 Hr2 Hl1 Hl2 Hrs Hc)
    as (p' & Hp' & _ & Hrow & Hcol & Hd & Htot).
  exists p'. split; [done|]. split; [|done]. intros i Hi.
  rewrite Hrow, <- Hcol, Hd by done. lia.
Qed.

(** With a self-loop of weight [count_self <> 0] the out-degree of [r] is no
    longer the sum of row [r]. *)
Lemma move_vertex_self_loop_row
    (B : nat) (E : Z) (p : Partition) (ni r s : nat)
    (b_out : list nat) (count_out : list Z) (b_in : list nat) (count_in : list Z)
    (count_self : Z) :
  wf_matrix B (interblock_edge_count p) →
  length (block_degrees_out p) = B → length (block_degrees_in p) = B →
  length (block_degrees p) = B →
  (ni < length (block_assignment p))%nat → (r < B)%nat → (s < B)%nat →
  NoDup b_out → NoDup b_in →
  Forall (λ i, (i < B)%nat) b_out → Forall (λ i, (i < B)%nat) b_in →
  length b_out = length count_out → length b_in = length count_in →
  r ≠ s → degrees_consistent B E p → count_self ≠ 0 →
  ∃ p', move_vertex p ni r s b_out count_out b_in count_in count_self = Some p'
        ∧ vget (block_degrees_out p') r ≠ row_sum (interblock_edge_count p') r.
Proof.
  intros Hwf H1 H2 H3 Hni Hr Hs Hn1 Hn2 Hr1 Hr2 Hl1 Hl2 Hrs Hc Hself.
  destruct (move_vertex_sums B E p ni r s b_out count_out b_in count_in
              count_self Hwf H1 H2 H3 Hni Hr Hs Hn1 Hn2 Hr1 Hr2 Hl1 Hl2 Hrs Hc)
    as (p' & Hp' & _ & Hrow & _).
  exists p'. split; [done|]. rewrite Hrow by done. unfold ind.
  repeat case_decide; try done; lia.
Qed.

Lemma self_loop_partition_valid : valid_partition 2 1 self_loop_partition.
Proof.
  split; try reflexivity.
  - split; [reflexivity|]. repeat constructor.
  - intros [|[|i]] [|[|j]]; by vm_compute.
  - intros [|[|i]] Hi; [reflexivity | reflexivity | lia].
  - intros [|[|i]] Hi; [reflexivity | reflexivity | lia].
  - intros [|[|i]] Hi; [reflexivity | reflexivity | lia].
Qed.

(** C2 (does not hold for a vertex with a self-loop).  Moving vertex 0, whose
    only edge is a self-loop of weight 1, from block 0 to block 1 of a valid
    partition leaves the matrix [[-1, 0], [1, 1]] with out-degrees [0, 1]:
    the out-degree of block 0 is not the sum of row 0, the out-degree of
    block 1 is not the sum of row 1, and an entry is negative.  The in-degrees
    and the total stay consistent. *)
Theorem update_partition_self_loop_breaks_degrees :
  valid_partition 2 1 self_loop_partition
  ∧ ∃ p',
      move_vertex self_loop_partition 0 0 1 [0%nat] [1] [0%nat] [1] 1 = Some p'
      ∧ interblock_edge_count p' = [[-1; 0]; [1; 1]]
      ∧ block_degrees_out p' = [0; 1]
      ∧ block_degrees_in p' = [0; 1]
      ∧ block_degrees p' = [0; 2]
      ∧ row_sum (interblock_edge_count p') 0 ≠ vget (block_degrees_out p') 0
      ∧ row_sum (interblock_edge_count p') 1 ≠ vget (block_degrees_out p') 1
      ∧ mget (interblock_edge_count p') 0 0 < 0
      ∧ ¬ degrees_consistent 2 1 p'.
Proof.
  split; [apply self_loop_partition_valid|].
  eexists. split; [vm_compute; reflexivity|].
  cbn [interblock_edge_count block_degrees_out block_degrees_in block_degrees].
  repeat split; try (vm_compute; congruence).
  intros [Hdeg _]. destruct (Hdeg 0%nat) as (Hrow & _); [lia|].
  vm_compute in Hrow. congruence.
Qed.

(** * A vertex "move" from a block into itself *)




(** * Candidate block degrees *)

Lemma new_degrees_heap_spec (h : gmap nat (list Z)) old v B r s k :
  h !! old = Some v → length v = B → (r < B)%nat → (s < B)%nat →
  ∃ l v' h',
    (l ∉ dom h)
    ∧ new_degrees_heap h old r s k = Some (l, h')
    ∧ new_degrees v r s k = Some v'
    ∧ h' = <[l := v']> h
    ∧ v' = vec_of B (λ t, vget v t - ind t r * k + ind t s * k).
Proof.
  intros Hold Hlen Hr Hs. exists (fresh (dom h)). eexists _, _.
  pose proof (is_fresh (dom h)) as Hfresh.
  split; [done|]. split; [|split; [by apply new_degrees_list|split; done]].
  unfold new_degrees_heap, heap_copy. rewrite Hold.
  cbn [mbind option_bind fst snd]. unfold heap_upd_at.
  rewrite lookup_insert_eq. cbn [mbind option_bind].
  pose proof (new_degrees_list B v r s k Hr Hs Hlen) as Hpure.
  unfold new_degrees in Hpure.
  destruct (upd_at Z.sub v r k) as [v1|] eqn:H1; [|done].
  cbn [mbind option_bind] in *. rewrite lookup_insert_eq.
  cbn [mbind option_bind].
  destruct (upd_at Z.add v1 s k) as [v2|] eqn:H2; [|done].
  cbn [mbind option_bind] in *. injection Hpure as ->.
  by rewrite !insert_insert_eq.
Qed.

Lemma sumZ_moved B (v : list Z) r s k :
  length v = B → (r < B)%nat → (s < B)%nat →
  sumZ (vec_of B (λ t, vget v t - ind t r * k + ind t s * k)) = sumZ v.
Proof.
  intros Hlen Hr Hs. rewrite sumZ_vec_of.
  rewrite (bigsum_ext _ _ (λ t, vget v t + k * (ind t s - ind t r)))
    by (intros; lia).
  rewrite bigsum_add, bigsum_scale, bigsum_sub, !bigsum_ind by done.
  rewrite (sumZ_bigsum v), Hlen. lia.
Qed.

Lemma moved_degree_vec_of B (v : list Z) r s k :
  length v = B → (r < B)%nat → (s < B)%nat →
  moved_degree v (vec_of B (λ t, vget v t - ind t r * k + ind t s * k)) B r s k.
Proof.
  intros Hlen Hr Hs. split; [apply length_vec_of|]. split; [|split; [|split]].
  - intros t Ht H1 H2. rewrite vget_vec_of by done. unfold ind.
    rewrite !decide_False by done. lia.
  - intros Hne. rewrite !vget_vec_of by done. unfold ind.
    repeat case_decide; try done; lia.
  - intros <-. transitivity (vec_of (length v) (vget v)); [|apply vec_of_vget].
    rewrite Hlen. apply vec_of_ext. intros; lia.
  - by apply sumZ_moved.
Qed.



(** * What a committed move writes *)

Lemma vec_of_vget_length (B : nat) (v : list Z) :
  length v = B → vec_of B (vget v) = v.
Proof. intros <-. apply vec_of_vget. Qed.

(** X1. [update_partition] writes the two rows and then the two columns, so the
    columns [r] and [s] of the matrix it leaves are the column vectors of the
    update (the proposal column where [r = s]), the rows [r] and [s] are the
    row vectors outside those two columns, and every other entry is the old
    one; vertex [ni] alone changes its block, and the degree arrays are the
    ones passed in. *)
Theorem update_partition_entries
    (B : nat) (p : Partition) (ni r s : nat) (u : EdgeCountUpdates)
    (d_out_new d_in_new d_new : list Z) :
  wf_matrix B (interblock_edge_count p) →
  (ni < length (block_assignment p))%nat → (r < B)%nat → (s < B)%nat →
  length (block_row u) = B → length (proposal_row u) = B →
  length (block_col u) = B → length (proposal_col u) = B →
  ∃ p',
    update_partition p ni r s u d_out_new d_in_new d_new = Some p'
    ∧ block_assignment p' = <[ni := Z.of_nat s]> (block_assignment p)
    ∧ block_degrees_out p' = d_out_new
    ∧ block_degrees_in p' = d_in_new
    ∧ block_degrees p' = d_new
    ∧ num_blocks p' = num_blocks p
    ∧ wf_matrix B (interblock_edge_count p')
    ∧ ∀ i j, (i < B)%nat → (j < B)%nat →
        let M := interblock_edge_count p in
        let M' := interblock_edge_count p' in
        (j = s → mget M' i j = vget (proposal_col u) i)
        ∧ (j = r → r ≠ s → mget M' i j = vget (block_col u) i)
        ∧ (i = s → j ≠ r → j ≠ s → mget M' i j = vget (proposal_row u) j)
        ∧ (i = r → r ≠ s → j ≠ r → j ≠ s →
           mget M' i j = vget (block_row u) j)
        ∧ (i ≠ r → i ≠ s → j ≠ r → j ≠ s → mget M' i j = mget M i j).
Proof.
  intros Hwf Hni Hr Hs H1 H2 H3 H4.
  pose proof (update_partition_closed_form B (mget (interblock_edge_count p))
                p ni r s (vget (block_row u)) (vget (proposal_row u))
                (vget (block_col u)) (vget (proposal_col u))
                d_out_new d_in_new d_new) as Hcf.
  rewrite (mat_of_mget B _ Hwf) in Hcf.
  rewrite (vec_of_vget_length B _ H1), (vec_of_vget_length B _ H2),
    (vec_of_vget_length B _ H3), (vec_of_vget_length B _ H4) in Hcf.
  destruct u as [u1 u2 u3 u4].
  specialize (Hcf eq_refl Hni Hr Hs).
  eexists. split; [exact Hcf|]. cbn [block_assignment block_degrees_out
    block_degrees_in block_degrees num_blocks interblock_edge_count].
  repeat (split; [done|]). split; [apply wf_mat_of|].
  intros i j Hi Hj. cbv zeta. rewrite mget_mat_of by done.
  unfold updated_entry. cbn [block_row proposal_row block_col proposal_col].
  repeat split; intros; repeat case_decide; subst; try done; lia.
Qed.

Lemma update_partition_entries_witness :
  ∃ p',
    update_partition bridge_partition 0 0 1
      (mkEdgeCountUpdates [0; 0] [0; 1] [0; 0] [0; 1]) [0; 1] [0; 1] [0; 2]
    = Some p'
    ∧ interblock_edge_count p' = [[0; 0]; [0; 1]]
    ∧ block_assignment p' = [1; 1].
Proof.
  destruct (update_partition_entries 2 bridge_partition 0 0 1
              (mkEdgeCountUpdates [0; 0] [0; 1] [0; 0] [0; 1])
              [0; 1] [0; 1] [0; 2])
    as (p' & Hrun & _).
  - split; [reflexivity|]. repeat constructor.
  - simpl. lia.
  - lia.
  - lia.
  - reflexivity.
  - reflexivity.
  - reflexivity.
  - reflexivity.
  - exists p'. split; [exact Hrun|].
    vm_compute in Hrun. injection Hrun as <-. split; reflexivity.
Defined.

(** * A vertex move without a self-loop *)

(** X2. For a vertex without a self-loop ([count_self = 0]) that moves between
    two different blocks, the three steps of a move, the edge-count kernel of
    the vertex phase, [compute_new_block_degrees] on the degrees of the vertex
    and [update_partition], all return, and they keep the invariants: in the
    partition they leave, the out-degree of every block is the sum of its
    row, the in-degree the sum of its column, the degree their sum, and the
    matrix still sums to [E]. *)
Theorem vertex_move_without_self_loop_keeps_degrees
    (B : nat) (E : Z) (p : Partition) (ni r s : nat)
    (b_out : list nat) (count_out : list Z)
    (b_in : list nat) (count_in : list Z) :
  wf_matrix B (interblock_edge_count p) →
  length (block_degrees_out p) = B → length (block_degrees_in p) = B →
  length (block_degrees p) = B →
  (ni < length (block_assignment p))%nat → (r < B)%nat → (s < B)%nat →
  NoDup b_out → NoDup b_in →
  Forall (λ i, (i < B)%nat) b_out → Forall (λ i, (i < B)%nat) b_in →
  length b_out = length count_out → length b_in = length count_in →
  r ≠ s → degrees_consistent B E p →
  ∃ u d_out_new d_in_new d_new p',
    vertex_reassign_edge_count_updates (interblock_edge_count p) r s
      b_out count_out b_in count_in 0 = Some u
    ∧ compute_new_block_degrees r s p (sumZ count_out) (sumZ count_in)
        (sumZ count_out + sumZ count_in)
      = Some [d_out_new; d_in_new; d_new]
    ∧ update_partition p ni r s u d_out_new d_in_new d_new = Some p'
    ∧ degrees_consistent B E p'.
Proof.
  intros Hwf Hl1 Hl2 Hl3 Hni Hr Hs Hnd1 Hnd2 Hr1 Hr2 Hlen1 Hlen2 Hrs Hcons.
  destruct (move_vertex_preserves_degrees B E p ni r s b_out count_out
              b_in count_in) as (p' & Hmv & Hcons'); try done.
  unfold move_vertex in Hmv.
  destruct (compute_new_rows_cols_interblock_edge_count_matrix _ _ _ _ _ _ _ _ _)
    as [u|] eqn:Hu; cbn [mbind option_bind] in Hmv; [|done].
  destruct (compute_new_block_degrees _ _ _ _ _ _) as [ds|] eqn:Hds;
    cbn [mbind option_bind] in Hmv; [|done].
  destruct ds as [|d1 [|d2 [|d3 [|]]]]; try done.
  exists u, d1, d2, d3, p'. split; [|done].
  rewrite <- (mat_of_mget B _ Hwf).
  rewrite (vertex_reassign_closed_form B _ r s b_out count_out b_in count_in 0)
    by done.
  by rewrite (mat_of_mget B _ Hwf).
Qed.

Lemma vertex_move_without_self_loop_keeps_degrees_witness :
  ∃ u d_out_new d_in_new d_new p',
    vertex_reassign_edge_count_updates (interblock_edge_count bridge_partition)
      0 1 [1%nat] [1] [] [] 0 = Some u
    ∧ compute_new_block_degrees 0 1 bridge_partition 1 0 1
      = Some [d_out_new; d_in_new; d_new]
    ∧ update_partition bridge_partition 0 0 1 u d_out_new d_in_new d_new
      = Some p'
    ∧ degrees_consistent 2 1 p'.
Proof.
  apply (vertex_move_without_self_loop_keeps_degrees 2 1 bridge_partition
           0 0 1 [1%nat] [1] [] []).
  - split; [reflexivity|]. repeat constructor.
  - reflexivity.
  - reflexivity.
  - reflexivity.
  - simpl. lia.
  - lia.
  - lia.
  - repeat constructor. rewrite elem_of_nil. tauto.
  - constructor.
  - repeat constructor.
  - constructor.
  - reflexivity.
  - reflexivity.
  - lia.
  - split; [|reflexivity].
    intros i Hi. destruct i as [|[|i]]; [| |lia]; repeat split; reflexivity.
Defined.

(** * A merge proposal read off the matrix *)

(** X3. The merge of block [r] into another block [s], with the neighbour lists
    that [outgoing_edges] and [incoming_edges] read off row and column [r]
    and [count_self = M[r,r]] as in [propose_merge]: the proposal row is the
    sum of the rows [r] and [s] outside the columns [r] and [s], zero at [r],
    and holds the four crossing entries at [s]; the proposal column is the
    same for columns.  No edge is lost: the proposal row sums to the sum of
    the two rows, the proposal column to the sum of the two columns. *)
Theorem merge_proposal_from_matrix (B : nat) (M : list (list Z)) (r s : nat) :
  wf_matrix B M → (r < B)%nat → (s < B)%nat → r ≠ s →
  ∃ b_out count_out b_in count_in u,
    outgoing_edges M r = Some (b_out, count_out)
    ∧ incoming_edges M r = Some (b_in, count_in)
    ∧ block_merge_edge_count_updates M r s b_out count_out b_in count_in
        (mget M r r) = Some u
    ∧ sumZ count_out = row_sum M r
    ∧ sumZ count_in = col_sum M r
    ∧ (∀ t, (t < B)%nat →
         vget (proposal_row u) t
         = if decide (t = r) then 0
           else if decide (t = s)
                then mget M s s + mget M r s + mget M s r + mget M r r
                else mget M s t + mget M r t)
    ∧ (∀ t, (t < B)%nat →
         vget (proposal_col u) t
         = if decide (t = r) then 0
           else if decide (t = s)
                then mget M s s + mget M s r + mget M r s + mget M r r
                else mget M t s + mget M t r)
    ∧ sumZ (proposal_row u) = row_sum M r + row_sum M s
    ∧ sumZ (proposal_col u) = col_sum M r + col_sum M s.
Proof.
  intros Hwf Hr Hs Hrs.
  destruct (outgoing_edges_spec B (mget M) r Hr)
    as (b_out & count_out & Hout & Hnd1 & Hr1 & Hl1 & Hagg1).
  destruct (incoming_edges_spec B (mget M) r Hr)
    as (b_in & count_in & Hin & Hnd2 & Hr2 & Hl2 & Hagg2).
  pose proof (block_merge_closed_form B (mget M) r s b_out count_out
                b_in count_in (mget M r r) Hr Hs Hnd1 Hnd2 Hr1 Hr2 Hl1 Hl2)
    as Hcf.
  pose proof (row_sum_mat_of B (mget M) r Hr) as Hrow_r.
  pose proof (row_sum_mat_of B (mget M) s Hs) as Hrow_s.
  pose proof (col_sum_mat_of B (mget M) r Hr) as Hcol_r.
  pose proof (col_sum_mat_of B (mget M) s Hs) as Hcol_s.
  rewrite (mat_of_mget B M Hwf) in Hout, Hin, Hcf, Hrow_r, Hrow_s, Hcol_r,
    Hcol_s.
  exists b_out, count_out, b_in, count_in. eexists.
  split; [exact Hout|]. split; [exact Hin|]. split; [exact Hcf|].
  cbn [proposal_row proposal_col].
  assert (sumZ count_out = row_sum M r) as Hk_out.
  { rewrite <- (bigsum_agg B b_out count_out Hr1 Hl1), Hrow_r.
    by apply bigsum_ext. }
  assert (sumZ count_in = col_sum M r) as Hk_in.
  { rewrite <- (bigsum_agg B b_in count_in Hr2 Hl2), Hcol_r.
    by apply bigsum_ext. }
  split; [done|]. split; [done|].
  split; [|split; [|split]].
  - intros t Ht. rewrite vget_vec_of by done.
    rewrite Hagg1, (Hagg2 s) by done. unfold ind.
    repeat (case_decide; subst; try lia).
  - intros t Ht. rewrite vget_vec_of by done.
    rewrite Hagg2, (Hagg1 s) by done. unfold ind.
    repeat (case_decide; subst; try lia).
  - rewrite sumZ_vec_of, Hrow_r, Hrow_s.
    rewrite (bigsum_ext B _
      (λ t, (mget M s t + mget M r t)
            + (agg b_in count_in s + mget M r r) * (ind t s - ind t r))).
    + rewrite bigsum_add, bigsum_add, bigsum_scale, bigsum_sub,
        !bigsum_ind by done. lia.
    + intros t Ht. rewrite Hagg1 by done. lia.
  - rewrite sumZ_vec_of, Hcol_r, Hcol_s.
    rewrite (bigsum_ext B _
      (λ t, (mget M t s + mget M t r)
            + (agg b_out count_out s + mget M r r) * (ind t s - ind t r))).
    + rewrite bigsum_add, bigsum_add, bigsum_scale, bigsum_sub,
        !bigsum_ind by done. lia.
    + intros t Ht. rewrite Hagg2 by done. lia.
Qed.

Lemma merge_proposal_from_matrix_witness :
  ∃ u,
    block_merge_edge_count_updates [[2; 1; 0]; [3; 4; 0]; [0; 5; 6]] 0 1
      [0; 1]%nat [2; 1] [0; 1]%nat [2; 3] 2 = Some u
    ∧ sumZ (proposal_row u) = 3 + 7
    ∧ sumZ (proposal_col u) = 5 + 10.
Proof.
  destruct (merge_proposal_from_matrix 3 [[2; 1; 0]; [3; 4; 0]; [0; 5; 6]] 0 1)
    as (b_out & count_out & b_in & count_in & u & Hout & Hin & Hu & _ & _
        & _ & _ & Hrow & Hcol).
  - split; [reflexivity|]. repeat constructor.
  - lia.
  - lia.
  - lia.
  - vm_compute in Hout. injection Hout as <- <-.
    vm_compute in Hin. injection Hin as <- <-.
    exists u. split; [exact Hu|]. split; [exact Hrow|exact Hcol].
Defined.

(** * The kernels agree *)


(** * Properties of the float operations and of sums of reals *)

Section floats.
Local Open Scope R_scope.

Lemma fadd_fin x y : fadd (Fin x) (Fin y) = Fin (x + y).
Proof. reflexivity. Qed.

Lemma fopp_fin x : fopp (Fin x) = Fin (- x).
Proof. reflexivity. Qed.

Lemma fsub_fin x y : fsub (Fin x) (Fin y) = Fin (x - y).
Proof. reflexivity. Qed.

Lemma fmul_fin x y : fmul (Fin x) (Fin y) = Fin (x * y).
Proof. reflexivity. Qed.

Lemma fdiv_fin x y : y ≠ 0 → fdiv (Fin x) (Fin y) = Fin (x / y).
Proof. intros Hy. unfold fdiv. by destruct (Req_dec_T y 0). Qed.

Lemma flog_fin x : 0 < x → flog (Fin x) = Fin (ln x).
Proof.
  intros Hx. unfold flog. destruct (total_order_T x 0) as [[H|H]|H]; [lra|lra|done].
Qed.

Lemma scale_inf_neg x pos : x < 0 → scale_inf x pos = if pos then NInf else PInf.
Proof.
  intros Hx. unfold scale_inf.
  destruct (total_order_T x 0) as [[H|H]|H]; [done|lra|lra].
Qed.

Lemma scale_inf_pos x pos : 0 < x → scale_inf x pos = if pos then PInf else NInf.
Proof.
  intros Hx. unfold scale_inf.
  destruct (total_order_T x 0) as [[H|H]|H]; [lra|lra|done].
Qed.

Lemma scale_inf_zero pos : scale_inf 0 pos = NaN.
Proof.
  unfold scale_inf. destruct (total_order_T 0 0) as [[H|H]|H]; [lra|done|lra].
Qed.

Lemma fdiv_zero x : fdiv (Fin x) (Fin 0) = scale_inf x true.
Proof. unfold fdiv. destruct (Req_dec_T 0 0); [done|lra]. Qed.

Lemma flog_zero : flog (Fin 0) = NInf.
Proof.
  unfold flog. destruct (total_order_T 0 0) as [[H|H]|H]; [lra|done|lra].
Qed.

Lemma flog_neg x : x < 0 → flog (Fin x) = NaN.
Proof.
  intros Hx. unfold flog.
  destruct (total_order_T x 0) as [[H|H]|H]; [done|lra|lra].
Qed.

Lemma fsum_fin (l : list R) : fsum (Fin <$> l) = Fin (sumR l).
Proof.
  induction l as [|x l IH]; [done|].
  cbn [fmap list_fmap fsum foldr sumR]. unfold fsum in IH. by rewrite IH.
Qed.

Lemma fsum_cons a l : fsum (a :: l) = fadd a (fsum l).
Proof. reflexivity. Qed.

Lemma fadd_NaN_l a : fadd NaN a = NaN.
Proof. by destruct a. Qed.

Lemma fadd_NaN_r a : fadd a NaN = NaN.
Proof. by destruct a. Qed.

Lemma ln_quot x y : 0 < x → 0 < y → ln (x / y) = ln x - ln y.
Proof.
  intros Hx Hy. unfold Rdiv.
  rewrite ln_mult, ln_Rinv by (try apply Rinv_0_lt_compat; lra). lra.
Qed.

(** *** Sums of reals *)

Lemma sumR_app l1 l2 : sumR (l1 ++ l2) = sumR l1 + sumR l2.
Proof. induction l1 as [|x l1 IH]; simpl; [lra | rewrite IH; lra]. Qed.

Lemma bigsumR_S B f : bigsumR (S B) f = bigsumR B f + f B.
Proof.
  unfold bigsumR. rewrite seq_S, fmap_app, sumR_app. simpl. lra.
Qed.

Lemma bigsumR_ext B f g :
  (∀ t, (t < B)%nat → f t = g t) → bigsumR B f = bigsumR B g.
Proof.
  induction B as [|B IH]; intros H; [done|].
  rewrite !bigsumR_S, IH, H by (intros; try apply H; lia). done.
Qed.

Lemma bigsumR_zero B : bigsumR B (λ _, 0) = 0.
Proof. induction B as [|B IH]; [done|]. rewrite bigsumR_S, IH. lra. Qed.

Lemma bigsumR_add B f g :
  bigsumR B (λ t, f t + g t) = bigsumR B f + bigsumR B g.
Proof.
  induction B as [|B IH]; [unfold bigsumR; simpl; lra|].
  rewrite !bigsumR_S, IH. lra.
Qed.

Lemma bigsumR_sub B f g :
  bigsumR B (λ t, f t - g t) = bigsumR B f - bigsumR B g.
Proof.
  induction B as [|B IH]; [unfold bigsumR; simpl; lra|].
  rewrite !bigsumR_S, IH. lra.
Qed.

Lemma bigsumR_pick B f r :
  (r < B)%nat →
  bigsumR B (λ t, if decide (t = r) then f t else 0) = f r.
Proof.
  induction B as [|B IH]; intros Hr; [lia|].
  rewrite bigsumR_S. destruct (decide (r = B)) as [->|Hne].
  - rewrite decide_True by done.
    rewrite (bigsumR_ext B _ (λ _, 0)), bigsumR_zero; [lra|].
    intros t Ht. rewrite decide_False; [done | lia].
  - rewrite IH by lia. rewrite decide_False; [lra | done].
Qed.

(** Two blocks taken out of a sum. *)
Lemma bigsumR_split2 B f r s :
  (r < B)%nat → (s < B)%nat → r ≠ s →
  bigsumR B f
  = f r + f s + bigsumR B (λ t, if decide (t = r ∨ t = s) then 0 else f t).
Proof.
  intros Hr Hs Hne.
  rewrite <- (bigsumR_pick B f r Hr) at 1.
  rewrite <- (bigsumR_pick B f s Hs) at 1.
  rewrite <- !bigsumR_add. apply bigsumR_ext. intros t Ht.
  destruct (decide (t = r)) as [E1|H1]; destruct (decide (t = s)) as [E2|H2].
  - congruence.
  - rewrite decide_True by (by left). lra.
  - rewrite decide_True by (by right). lra.
  - rewrite decide_False by (intros [?|?]; done). lra.
Qed.

Lemma bigsumR_exchange B C F :
  bigsumR B (λ i, bigsumR C (λ j, F i j))
  = bigsumR C (λ j, bigsumR B (λ i, F i j)).
Proof.
  induction B as [|B IH].
  - by rewrite bigsumR_zero.
  - rewrite bigsumR_S, IH, <- bigsumR_add. apply bigsumR_ext. intros j _.
    by rewrite bigsumR_S.
Qed.

End floats.

(** * Sums over the nonzero entries *)

Section entropy_sums.
Local Open Scope R_scope.

Lemma fsum_fmap_fin {X} (h : X → npfloat) (hr : X → R) (l : list X) :
  (∀ x, x ∈ l → h x = Fin (hr x)) → fsum (h <$> l) = Fin (sumR (hr <$> l)).
Proof.
  induction l as [|x l IH]; intros H; [done|].
  cbn [fmap list_fmap]. rewrite fsum_cons, H by (by left).
  rewrite IH by (intros y Hy; apply H; by right). done.
Qed.

Lemma sumR_nonzero_from (g : nat → R) (f : nat → Z) k n :
  sumR (g <$> nonzero_from k (f <$> seq k n))
  = sumR ((λ t, if decide (f t = 0%Z) then 0 else g t) <$> seq k n).
Proof.
  revert k. induction n as [|n IH]; intros k; [done|].
  cbn [seq fmap list_fmap nonzero_from sumR foldr].
  destruct (decide (f k = 0%Z)) as [H0|H0].
  - rewrite IH. unfold sumR. lra.
  - cbn [fmap list_fmap foldr]. rewrite IH. done.
Qed.

Lemma sumR_nonzero_vec_of (g : nat → R) B (f : nat → Z) :
  sumR (g <$> nonzero (vec_of B f))
  = bigsumR B (λ t, if decide (f t = 0%Z) then 0 else g t).
Proof. apply sumR_nonzero_from. Qed.

Lemma imap_seq_diag {X} (f : nat → nat → X) k n :
  imap f (seq k n) = (λ i, f (i - k)%nat i) <$> seq k n.
Proof.
  revert f k. induction n as [|n IH]; intros f k; [done|].
  cbn [seq]. rewrite imap_cons, IH. cbn [fmap list_fmap]. f_equal.
  - by rewrite Nat.sub_diag.
  - apply list_fmap_ext. intros j i Hi. apply lookup_seq in Hi as [-> Hj].
    simpl. f_equal. lia.
Qed.

Lemma nonzero2_mat_of B F :
  nonzero2 (mat_of B F)
  = mjoin ((λ i, pair i <$> nonzero (vec_of B (F i))) <$> seq 0 B).
Proof.
  unfold nonzero2, mat_of. rewrite imap_fmap, imap_seq_diag. f_equal.
  apply list_fmap_ext. intros k i Hi. simpl. by rewrite Nat.sub_0_r.
Qed.

Lemma elem_of_nonzero2 B F i j :
  (i, j) ∈ nonzero2 (mat_of B F) ↔ (i < B)%nat ∧ (j < B)%nat ∧ F i j ≠ 0%Z.
Proof.
  rewrite nonzero2_mat_of, list_elem_of_join. split.
  - intros (l & Hin & Hl). apply list_elem_of_fmap in Hl as (i' & -> & Hi').
    apply list_elem_of_fmap in Hin as (j' & [= -> ->] & Hj').
    apply elem_of_seq in Hi'. pose proof Hj' as Hnz.
    apply elem_of_nonzero in Hnz.
    pose proof (nonzero_lt (vec_of B (F i'))) as Hlt.
    rewrite length_vec_of in Hlt.
    pose proof (proj1 (Forall_forall _ _) Hlt _ Hj') as Hj. simpl in Hj.
    rewrite vget_vec_of in Hnz by done. split; [lia|]. done.
  - intros (Hi & Hj & Hne).
    exists (pair i <$> nonzero (vec_of B (F i))). split.
    + apply list_elem_of_fmap. exists j. split; [done|].
      apply elem_of_nonzero. by rewrite vget_vec_of.
    + apply list_elem_of_fmap. exists i. split; [done|].
      apply elem_of_seq. lia.
Qed.

Lemma sumR_join_fmap {X} (hr : X → R) (L : nat → list X) B :
  sumR (hr <$> mjoin (L <$> seq 0 B)) = bigsumR B (λ i, sumR (hr <$> L i)).
Proof.
  unfold bigsumR. generalize 0%nat. induction B as [|B IH]; intros k; [done|].
  cbn [seq fmap list_fmap mjoin list_join]. rewrite fmap_app, sumR_app.
  cbn [sumR foldr]. fold (sumR (hr <$> L k)). f_equal. apply IH.
Qed.

(** The sum over the nonzero entries of a matrix is the sum over all pairs
    of blocks of the terms that vanish on zero entries. *)
Lemma sumR_nonzero2 (hr : nat * nat → R) B F :
  sumR (hr <$> nonzero2 (mat_of B F))
  = bigsumR B (λ i, bigsumR B (λ j,
      if decide (F i j = 0%Z) then 0 else hr (i, j))).
Proof.
  rewrite nonzero2_mat_of, sumR_join_fmap. apply bigsumR_ext. intros i Hi.
  rewrite <- list_fmap_compose. apply (sumR_nonzero_vec_of (hr ∘ pair i)).
Qed.

End entropy_sums.

(** * The overall entropy *)

Lemma bigsum_ge_term B f j :
  (∀ t, (t < B)%nat → 0 <= f t) → (j < B)%nat → f j <= bigsum B f.
Proof.
  induction B as [|B IH]; intros H Hj; [lia|].
  rewrite bigsum_S. destruct (decide (j = B)) as [->|Hne].
  - assert (0 <= bigsum B f) by (apply bigsum_nonneg; intros; apply H; lia).
    lia.
  - assert (f j <= bigsum B f) by (apply IH; [intros; apply H; lia | lia]).
    specialize (H B). lia.
Qed.

(** In a valid partition a nonzero entry is positive and so are the
    out-degree of its row and the in-degree of its column. *)
Lemma valid_entry_degrees B E p i j :
  valid_partition B E p → (i < B)%nat → (j < B)%nat →
  mget (interblock_edge_count p) i j ≠ 0 →
  0 < mget (interblock_edge_count p) i j
  ∧ mget (interblock_edge_count p) i j <= vget (block_degrees_out p) i
  ∧ mget (interblock_edge_count p) i j <= vget (block_degrees_in p) j.
Proof.
  intros Hv Hi Hj Hne. destruct Hv as [_ Hwf _ _ _ Hnn Hout Hin _ _].
  pose proof (Hnn i j) as H0. split; [lia|].
  rewrite Hout, Hin by done.
  rewrite <- (mat_of_mget B _ Hwf) at 2 4.
  rewrite row_sum_mat_of, col_sum_mat_of by done. split.
  - by apply (bigsum_ge_term B (mget (interblock_edge_count p) i) j).
  - by apply (bigsum_ge_term B (λ i, mget (interblock_edge_count p) i j) i).
Qed.

Section overall.
Local Open Scope R_scope.

Lemma data_entry_fin (x a b : Z) :
  (0 < x)%Z → (0 < a)%Z → (0 < b)%Z →
  data_entry x a b = Fin (data_term x a b).
Proof.
  intros Hx Ha Hb. unfold data_entry, data_term, of_Z.
  rewrite decide_False by lia. rewrite mult_IZR.
  apply IZR_lt in Hx, Ha, Hb.
  assert (0 < IZR a * IZR b) by (by apply Rmult_lt_0_compat).
  rewrite fdiv_fin by lra. rewrite flog_fin by (by apply Rdiv_lt_0_compat).
  done.
Qed.

(** The value that the code computes: the data term and [N ln B] of the
    objective, but a model term [E (1 + x) ln (1 + x) - x ln x] in which the
    factor [E] reaches the first product only. *)
Lemma compute_overall_entropy_value B E0 p N E :
  valid_partition B E0 p → (0 < B)%nat → (0 < E)%Z →
  compute_overall_entropy p N E
  = Some (Fin (S_overall B p N E
               + (IZR E - 1) * (IZR (Z.of_nat B) ^ 2 / IZR E
                                * ln (IZR (Z.of_nat B) ^ 2 / IZR E)))).
Proof.
  intros Hv HB HE. pose proof Hv as [Hnb Hwf Hlo Hli _ _ _ _ _ _].
  unfold compute_overall_entropy. cbv zeta.
  set (M := interblock_edge_count p) in *.
  set (a := block_degrees_out p) in *. set (b := block_degrees_in p) in *.
  rewrite (mapM_total _ (λ ij, data_entry (mget M ij.1 ij.2)
                                 (vget a ij.1) (vget b ij.2))).
  2:{ intros [i j] Hij. rewrite <- (mat_of_mget B M Hwf) in Hij.
      apply elem_of_nonzero2 in Hij as (Hi & Hj & Hne). cbn [fst snd].
      destruct (lookup_lt_is_Some_2 M i) as [row Hrow];
        [destruct Hwf; lia|].
      assert (length row = B) as Hlr.
      { destruct Hwf as [_ Hrows].
        eapply (proj1 (Forall_lookup _ _) Hrows); eauto. }
      rewrite Hrow. cbn [mbind option_bind].
      rewrite (lookup_vget row j) by lia. cbn [mbind option_bind].
      rewrite (lookup_vget a i), (lookup_vget b j) by lia.
      cbn [mbind option_bind]. unfold mget. by rewrite Hrow. }
  cbn [mbind option_bind]. rewrite decide_False by lia.
  rewrite (fsum_fmap_fin _ (λ ij, data_term (mget M ij.1 ij.2)
                                    (vget a ij.1) (vget b ij.2))).
  2:{ intros [i j] Hij. rewrite <- (mat_of_mget B M Hwf) in Hij.
      apply elem_of_nonzero2 in Hij as (Hi & Hj & Hne). cbn [fst snd].
      destruct (valid_entry_degrees B E0 p i j Hv Hi Hj Hne) as (H1 & H2 & H3).
      apply data_entry_fin; [done | unfold a; lia | unfold b; lia]. }
  assert (sumR ((λ ij : nat * nat, data_term (mget M ij.1 ij.2)
                  (vget a ij.1) (vget b ij.2)) <$> nonzero2 M)
          = data_sum B M a b) as ->.
  { rewrite <- (mat_of_mget B M Hwf) at 1. rewrite sumR_nonzero2.
    unfold data_sum. apply bigsumR_ext. intros i Hi.
    apply bigsumR_ext. intros j Hj. cbn [fst snd]. unfold data_term.
    destruct (decide (mget M i j = 0%Z)); done. }
  rewrite Hnb. unfold of_Z.
  assert (0 < IZR (Z.of_nat B)) as HBr by (apply IZR_lt; lia).
  assert (0 < IZR E) as HEr by (by apply IZR_lt).
  assert (IZR (Z.of_nat B ^ 2) = IZR (Z.of_nat B) ^ 2) as ->.
  { replace (Z.of_nat B ^ 2)%Z with (Z.of_nat B * Z.of_nat B)%Z by lia.
    rewrite mult_IZR. simpl. lra. }
  set (x := IZR (Z.of_nat B) ^ 2 / IZR E).
  assert (0 < x) as Hx.
  { unfold x. apply Rdiv_lt_0_compat; [|done]. apply pow_lt. done. }
  rewrite fdiv_fin by lra. fold x.
  rewrite !fadd_fin, !fmul_fin, !flog_fin by lra.
  rewrite !fmul_fin, fopp_fin, fsub_fin, !fadd_fin.
  do 2 f_equal. unfold S_overall, h_fun. fold x. fold M a b. lra.
Qed.

End overall.

Lemma two_edge_partition_valid : valid_partition 1 2 two_edge_partition.
Proof.
  split; try reflexivity.
  - split; [reflexivity|]. repeat constructor.
  - intros [|i] [|j]; by vm_compute.
  - intros [|i] Hi; [reflexivity | lia].
  - intros [|i] Hi; [reflexivity | lia].
  - intros [|i] Hi; [reflexivity | lia].
Qed.

(** C1 (the code departs from the formula).  On the valid one-block partition
    of a graph with [N = 2] vertices and [E = 2] edges, [B^2/E = 1/2] and
    [compute_overall_entropy] returns the objective
    [E h(B^2/E) + N ln B - sum M ln(M / (d_out d_in))] plus
    [(E - 1) (B^2/E) ln (B^2/E) = (1/2) ln (1/2)], which is not zero: the
    [- x ln x] part of [h] is not multiplied by [E]. *)
Theorem compute_overall_entropy_model_term :
  valid_partition 1 2 two_edge_partition
  ∧ ∃ v : R,
      compute_overall_entropy two_edge_partition 2 2 = Some (Fin v)
      ∧ v = (S_overall 1 two_edge_partition 2 2 + 1 / 2 * ln (1 / 2))%R
      ∧ (v < S_overall 1 two_edge_partition 2 2)%R
      ∧ v ≠ S_overall 1 two_edge_partition 2 2.
Proof.
  split; [apply two_edge_partition_valid|].
  pose proof (compute_overall_entropy_value 1 2 two_edge_partition 2 2
                two_edge_partition_valid) as H.
  eexists. split; [apply H; lia|].
  change (Z.of_nat 1) with 1%Z.
  assert (1 ^ 2 / 2 = 1 / 2)%R as -> by (simpl; lra).
  assert (ln (1 / 2) < 0)%R as Hln.
  { rewrite <- ln_1. apply ln_increasing; lra. }
  split; [lra|]. split; lra.
Qed.

(** * The change of entropy in closed form *)

Section delta_parts.
Local Open Scope R_scope.

Lemma entropy_entry_fin (deg m d : Z) :
  (0 < m)%Z → (0 < d)%Z → (0 < deg)%Z →
  entropy_entry deg m d = Fin (entropy_term deg m d).
Proof.
  intros Hm Hd Hdeg. unfold entropy_entry, entropy_term, of_Z.
  rewrite decide_False by lia. apply IZR_lt in Hm, Hd, Hdeg.
  rewrite !fdiv_fin by lra.
  rewrite flog_fin by (repeat apply Rdiv_lt_0_compat; lra). done.
Qed.

Lemma entropy_term_zero (deg d : Z) : entropy_term deg 0 d = 0.
Proof. unfold entropy_term. by rewrite decide_True. Qed.

(** Selecting the nonzero entries of [ms] and the degrees [ds] at the same
    positions, and summing the terms. *)
Lemma nonzero_part_lists (deg : Z) (ms0 : list Z) :
  ∀ (ds0 pm pd : list Z),
  length pm = length pd → length ms0 = length ds0 →
  Forall (λ md : Z * Z, finite_term deg md.1 md.2) (zip ms0 ds0) →
  ∃ ds ms,
    take_idx (pd ++ ds0) (nonzero_from (length pm) ms0) = Some ds
    ∧ take_idx (pm ++ ms0) (nonzero_from (length pm) ms0) = Some ms
    ∧ entropy_sum ms ds deg = Fin (sumR (zip_with (entropy_term deg) ms0 ds0)).
Proof.
  induction ms0 as [|m ms0 IH]; intros ds0 pm pd Hpre Hlen Hfin.
  - exists [], []. destruct ds0; done.
  - destruct ds0 as [|d ds0]; [done|].
    cbn [zip zip_with] in Hfin. apply Forall_cons in Hfin as [Hmd Hfin].
    cbn [fst snd] in Hmd.
    destruct (IH ds0 (pm ++ [m]) (pd ++ [d])) as (ds & ms & Hds & Hms & Hsum).
    { rewrite !length_app. simpl. lia. }
    { simpl in Hlen. lia. }
    { done. }
    rewrite length_app in Hds, Hms. cbn [length] in Hds, Hms.
    replace (length pm + 1)%nat with (S (length pm)) in Hds, Hms by lia.
    rewrite <- app_assoc in Hds, Hms. cbn [app] in Hds, Hms.
    cbn [nonzero_from zip_with sumR foldr].
    fold (sumR (zip_with (entropy_term deg) ms0 ds0)).
    destruct (decide (m = 0%Z)) as [->|Hne].
    + exists ds, ms. split; [done|]. split; [done|]. rewrite Hsum.
      rewrite entropy_term_zero. f_equal. lra.
    + destruct (Hmd Hne) as (H1 & H2 & H3).
      exists (d :: ds), (m :: ms). unfold take_idx in *.
      cbn [mapM]. rewrite Hpre at 1.
      rewrite !lookup_app_r, <- ?Hpre, !Nat.sub_diag by lia.
      cbn [lookup list_lookup mbind option_bind].
      rewrite Hds, Hms. cbn [mbind option_bind mret option_ret].
      split; [done|]. split; [done|].
      unfold entropy_sum in *. cbn [zip_with]. rewrite fsum_cons, Hsum.
      by rewrite entropy_entry_fin.
Qed.

Lemma zip_with_fmap2 {X Y W V} (f : Y → W → V) (m : X → Y) (d : X → W) ix :
  zip_with f (m <$> ix) (d <$> ix) = (λ t, f (m t) (d t)) <$> ix.
Proof. induction ix as [|t ix IH]; [done|]. simpl. f_equal. apply IH. Qed.

Lemma nonzero_part (deg : Z) (m d : nat → Z) (ix : list nat) :
  (∀ t, t ∈ ix → finite_term deg (m t) (d t)) →
  ∃ ds ms,
    take_idx (d <$> ix) (nonzero (m <$> ix)) = Some ds
    ∧ take_idx (m <$> ix) (nonzero (m <$> ix)) = Some ms
    ∧ entropy_sum ms ds deg
      = Fin (sumR ((λ t, entropy_term deg (m t) (d t)) <$> ix)).
Proof.
  intros Hfin.
  destruct (nonzero_part_lists deg (m <$> ix) (d <$> ix) [] [])
    as (ds & ms & Hds & Hms & Hsum).
  - done.
  - by rewrite !length_fmap.
  - rewrite (zip_with_fmap2 pair m d ix).
    apply Forall_fmap, Forall_forall. intros t Ht. by apply Hfin.
  - exists ds, ms. split; [done|]. split; [done|]. rewrite Hsum.
    by rewrite (zip_with_fmap2 (entropy_term deg) m d ix).
Qed.

End delta_parts.

Section index_without.
Local Open Scope R_scope.

Lemma sumR_fmap_ext {X} (f g : X → R) (l : list X) :
  (∀ t, t ∈ l → f t = g t) → sumR (f <$> l) = sumR (g <$> l).
Proof.
  induction l as [|x l IH]; intros H; [done|].
  cbn [fmap list_fmap sumR foldr]. rewrite H by (by left).
  f_equal. apply IH. intros t Ht. apply H. by right.
Qed.

Lemma sumR_fmap_zero {X} (f : X → R) (l : list X) :
  (∀ t, t ∈ l → f t = 0) → sumR (f <$> l) = 0.
Proof.
  induction l as [|x l IH]; intros H; [done|].
  cbn [fmap list_fmap sumR foldr]. rewrite H by (by left).
  fold (sumR (f <$> l)). rewrite IH; [lra|]. intros t Ht. apply H. by right.
Qed.

Lemma seq_split (lo B : nat) :
  (lo < B)%nat → seq 0 B = seq 0 lo ++ lo :: seq (S lo) (B - S lo).
Proof.
  intros H. replace B with (lo + S (B - S lo))%nat at 1 by lia.
  by rewrite seq_app.
Qed.

(** The index list [range(B)] after [del idx[hi]] and [del idx[lo]], for
    [lo < hi < B]. *)
Lemma del_idx_two (lo hi B : nat) :
  (lo < hi)%nat → (hi < B)%nat →
  (l ← del_idx (seq 0 B) hi; del_idx l lo)
  = Some (seq 0 lo ++ seq (S lo) (hi - S lo) ++ seq (S hi) (B - S hi)).
Proof.
  intros Hlo Hhi. unfold del_idx.
  destruct (decide (hi < length (seq 0 B))%nat) as [_|Hn];
    [|rewrite length_seq in Hn; lia].
  cbn [mbind option_bind].
  assert (delete hi (seq 0 B) = seq 0 hi ++ seq (S hi) (B - S hi)) as ->.
  { rewrite (seq_split hi B) by done.
    pose proof (delete_middle (seq 0 hi) (seq (S hi) (B - S hi)) hi) as H.
    by rewrite length_seq in H. }
  destruct (decide (lo < length (seq 0 hi ++ seq (S hi) (B - S hi)))%nat)
    as [_|Hn]; [|rewrite length_app, !length_seq in Hn; lia].
  f_equal. rewrite (seq_split lo hi) by done. rewrite <- app_assoc.
  cbn [app].
  pose proof (delete_middle (seq 0 lo)
                (seq (S lo) (hi - S lo) ++ seq (S hi) (B - S hi)) lo) as H.
  by rewrite length_seq in H.
Qed.

Lemma sumR_without (lo hi B : nat) (r s : nat) (g : nat → R) :
  (lo < hi)%nat → (hi < B)%nat →
  (r = lo ∧ s = hi) ∨ (r = hi ∧ s = lo) →
  sumR (g <$> (seq 0 lo ++ seq (S lo) (hi - S lo) ++ seq (S hi) (B - S hi)))
  = bigsumR B (excl r s g).
Proof.
  intros Hlo Hhi Hrs. unfold bigsumR.
  rewrite (seq_split hi B), (seq_split lo hi) by done.
  rewrite <- app_assoc. cbn [app].
  rewrite !fmap_app, !fmap_cons, !fmap_app, !sumR_app.
  cbn [sumR foldr]. rewrite !sumR_app. rewrite !fmap_cons.
  cbn [sumR foldr].
  fold (sumR (excl r s g <$> seq (S hi) (B - S hi))).
  assert (excl r s g lo = 0) as ->.
  { unfold excl. rewrite decide_True; [done | lia]. }
  assert (excl r s g hi = 0) as ->.
  { unfold excl. rewrite decide_True; [done | lia]. }
  rewrite (sumR_fmap_ext (excl r s g) g (seq 0 lo)).
  2:{ intros t Ht%elem_of_seq. unfold excl. rewrite decide_False; [done|lia]. }
  rewrite (sumR_fmap_ext (excl r s g) g (seq (S lo) (hi - S lo))).
  2:{ intros t Ht%elem_of_seq. unfold excl. rewrite decide_False; [done|lia]. }
  rewrite (sumR_fmap_ext (excl r s g) g (seq (S hi) (B - S hi))).
  2:{ intros t Ht%elem_of_seq. unfold excl. rewrite decide_False; [done|lia]. }
  lra.
Qed.

Lemma del_idx_others B r s :
  (r < B)%nat → (s < B)%nat → r ≠ s →
  (l ← del_idx (seq 0 B) (r `max` s); del_idx l (r `min` s))
  = Some (others B r s).
Proof. intros Hr Hs Hne. apply del_idx_two; lia. Qed.

Lemma elem_of_others B r s t :
  (r < B)%nat → (s < B)%nat →
  t ∈ others B r s → (t < B)%nat ∧ t ≠ r ∧ t ≠ s.
Proof.
  intros Hr Hs. unfold others. rewrite !elem_of_app, !elem_of_seq.
  destruct (Nat.min_spec r s) as [[? ->]|[? ->]];
    destruct (Nat.max_spec r s) as [[? ->]|[? ->]]; lia.
Qed.

Lemma sumR_others B r s g :
  (r < B)%nat → (s < B)%nat → r ≠ s →
  sumR (g <$> others B r s) = bigsumR B (excl r s g).
Proof.
  intros Hr Hs Hne. apply sumR_without; lia.
Qed.

End index_without.

Section delta_closed.
Local Open Scope R_scope.

Lemma nonzero_part_vec B (deg : Z) (m d : nat → Z) :
  (∀ t, (t < B)%nat → finite_term deg (m t) (d t)) →
  ∃ ds ms,
    take_idx (vec_of B d) (nonzero (vec_of B m)) = Some ds
    ∧ take_idx (vec_of B m) (nonzero (vec_of B m)) = Some ms
    ∧ entropy_sum ms ds deg
      = Fin (bigsumR B (λ t, entropy_term deg (m t) (d t))).
Proof.
  intros H. apply (nonzero_part deg m d (seq 0 B)).
  intros t Ht%elem_of_seq. apply H. lia.
Qed.

Lemma nonzero_part_others B r s (deg : Z) (m d : nat → Z) :
  (r < B)%nat → (s < B)%nat → r ≠ s →
  (∀ t, (t < B)%nat → t ≠ r → t ≠ s → finite_term deg (m t) (d t)) →
  ∃ ds ms,
    take_idx (d <$> others B r s) (nonzero (m <$> others B r s)) = Some ds
    ∧ take_idx (m <$> others B r s) (nonzero (m <$> others B r s)) = Some ms
    ∧ entropy_sum ms ds deg
      = Fin (bigsumR B (excl r s (λ t, entropy_term deg (m t) (d t)))).
Proof.
  intros Hr Hs Hne H.
  destruct (nonzero_part deg m d (others B r s)) as (ds & ms & H1 & H2 & H3).
  { intros t Ht. apply (elem_of_others B r s t Hr Hs) in Ht as (? & ? & ?).
    by apply H. }
  exists ds, ms. split; [done|]. split; [done|].
  rewrite H3. f_equal. by apply sumR_others.
Qed.

Context (B r s : nat) (p : Partition) (F : nat → nat → Z) (a b : nat → Z).
Context (f1 f2 f3 f4 a' b' : nat → Z).
Hypothesis HM : interblock_edge_count p = mat_of B F.
Hypothesis Hout : block_degrees_out p = vec_of B a.
Hypothesis Hin : block_degrees_in p = vec_of B b.
Hypothesis Hr : (r < B)%nat.
Hypothesis Hs : (s < B)%nat.
Hypothesis Hne : r ≠ s.
Hypothesis Hf1 : ∀ t, (t < B)%nat → finite_term (a' r) (f1 t) (b' t).
Hypothesis Hf2 : ∀ t, (t < B)%nat → finite_term (a' s) (f2 t) (b' t).
Hypothesis Hf3 : ∀ t, (t < B)%nat → t ≠ r → t ≠ s →
  finite_term (b' r) (f3 t) (a' t).
Hypothesis Hf4 : ∀ t, (t < B)%nat → t ≠ r → t ≠ s →
  finite_term (b' s) (f4 t) (a' t).
Hypothesis Ho1 : ∀ t, (t < B)%nat → finite_term (a r) (F r t) (b t).
Hypothesis Ho2 : ∀ t, (t < B)%nat → finite_term (a s) (F s t) (b t).
Hypothesis Ho3 : ∀ t, (t < B)%nat → t ≠ r → t ≠ s →
  finite_term (b r) (F t r) (a t).
Hypothesis Ho4 : ∀ t, (t < B)%nat → t ≠ r → t ≠ s →
  finite_term (b s) (F t s) (a t).

(** The value of [compute_delta_entropy] when every term is finite: the
    entries of the new rows [r] and [s] over all columns, those of the new
    columns [r] and [s] over the rows other than [r] and [s], and the same
    for the current matrix with the opposite sign. *)
Lemma compute_delta_entropy_closed_form :
  compute_delta_entropy r s p
    (mkEdgeCountUpdates (vec_of B f1) (vec_of B f2) (vec_of B f3) (vec_of B f4))
    (vec_of B a') (vec_of B b')
  = Some (Fin (
      0 - bigsumR B (λ t, entropy_term (a' r) (f1 t) (b' t))
        - bigsumR B (λ t, entropy_term (a' s) (f2 t) (b' t))
        - bigsumR B (excl r s (λ t, entropy_term (b' r) (f3 t) (a' t)))
        - bigsumR B (excl r s (λ t, entropy_term (b' s) (f4 t) (a' t)))
        + bigsumR B (λ t, entropy_term (a r) (F r t) (b t))
        + bigsumR B (λ t, entropy_term (a s) (F s t) (b t))
        + bigsumR B (excl r s (λ t, entropy_term (b r) (F t r) (a t)))
        + bigsumR B (excl r s (λ t, entropy_term (b s) (F t s) (a t))))).
Proof.
  destruct (nonzero_part_vec B _ _ _ Hf1) as (d1 & m1 & Hd1 & Hm1 & E1).
  destruct (nonzero_part_vec B _ _ _ Hf2) as (d2 & m2 & Hd2 & Hm2 & E2).
  destruct (nonzero_part_others B r s _ _ _ Hr Hs Hne Hf3)
    as (d3 & m3 & Hd3 & Hm3 & E3).
  destruct (nonzero_part_others B r s _ _ _ Hr Hs Hne Hf4)
    as (d4 & m4 & Hd4 & Hm4 & E4).
  destruct (nonzero_part_vec B _ _ _ Ho1) as (d5 & m5 & Hd5 & Hm5 & E5).
  destruct (nonzero_part_vec B _ _ _ Ho2) as (d6 & m6 & Hd6 & Hm6 & E6).
  destruct (nonzero_part_others B r s _ _ _ Hr Hs Hne Ho3)
    as (d7 & m7 & Hd7 & Hm7 & E7).
  destruct (nonzero_part_others B r s _ _ _ Hr Hs Hne Ho4)
    as (d8 & m8 & Hd8 & Hm8 & E8).
  pose proof (del_idx_others B r s Hr Hs Hne) as Hdel.
  destruct (del_idx (seq 0 B) (r `max` s)) as [l1|] eqn:Hl1; [|done].
  cbn [mbind option_bind] in Hdel.
  assert (Forall (λ i, (i < B)%nat) (others B r s)) as Hoth.
  { apply Forall_forall. intros t Ht.
    by apply (elem_of_others B r s t Hr Hs) in Ht as (? & ? & ?). }
  unfold compute_delta_entropy. rewrite HM, Hout, Hin.
  cbn [block_row proposal_row block_col proposal_col].
  rewrite (getrow_mat_of B F r Hr), (getrow_mat_of B F s Hs).
  rewrite (getcol_mat_of B F r Hr), (getcol_mat_of B F s Hs).
  cbn [mbind option_bind].
  rewrite length_vec_of, Hl1. cbn [mbind option_bind].
  rewrite Hdel. cbn [mbind option_bind].
  rewrite !(take_idx_vec_of B _ (others B r s) Hoth). cbn [mbind option_bind].
  rewrite Hd1, Hd2, Hm1, Hm2. cbn [mbind option_bind].
  rewrite Hd3, Hd4, Hm3, Hm4. cbn [mbind option_bind].
  rewrite Hd5, Hd6, Hm5, Hm6. cbn [mbind option_bind].
  rewrite Hd7, Hd8, Hm7, Hm8. cbn [mbind option_bind].
  rewrite !lookup_vec_of by done. cbn [mbind option_bind].
  rewrite E1, E2, E3, E4, E5, E6, E7, E8.
  by rewrite !fsub_fin, !fadd_fin.
Qed.

End delta_closed.

(** The closed form over arrays. *)
Lemma compute_delta_entropy_value B r s p u d_out_new d_in_new :
  delta_shapes B p u d_out_new d_in_new →
  (r < B)%nat → (s < B)%nat → r ≠ s →
  delta_terms_finite B r s p u d_out_new d_in_new →
  compute_delta_entropy r s p u d_out_new d_in_new
  = Some (Fin (delta_entropy_value B r s p u d_out_new d_in_new)).
Proof.
  intros (Hwf & Hlo & Hli & H1 & H2 & H3 & H4 & Hno & Hni) Hr Hs Hne [Hrow Hcol].
  destruct u as [v1 v2 v3 v4].
  cbn [block_row proposal_row block_col proposal_col] in *.
  pose proof (compute_delta_entropy_closed_form B r s p
    (mget (interblock_edge_count p))
    (vget (block_degrees_out p)) (vget (block_degrees_in p))
    (vget v1) (vget v2) (vget v3) (vget v4)
    (vget d_out_new) (vget d_in_new)) as Hcf.
  rewrite <- H1, vec_of_vget, H1 in Hcf.
  rewrite <- H2, vec_of_vget, H2 in Hcf.
  rewrite <- H3, vec_of_vget, H3 in Hcf.
  rewrite <- H4, vec_of_vget, H4 in Hcf.
  rewrite <- Hno, vec_of_vget, Hno in Hcf.
  rewrite <- Hni, vec_of_vget, Hni in Hcf.
  rewrite Hcf; [done | | | | done | done | done | | | | | | | |].
  - symmetry. by apply mat_of_mget.
  - by rewrite <- Hlo, vec_of_vget.
  - by rewrite <- Hli, vec_of_vget.
  - intros t Ht. by apply Hrow.
  - intros t Ht. by apply Hrow.
  - intros t Ht ? ?. by apply Hcol.
  - intros t Ht ? ?. by apply Hcol.
  - intros t Ht. by apply Hrow.
  - intros t Ht. by apply Hrow.
  - intros t Ht ? ?. by apply Hcol.
  - intros t Ht ? ?. by apply Hcol.
Qed.

(** * The Hastings correction *)

Section hastings_lists.

Lemma position_lookup (t : list nat) x k :
  position t x = Some k → t !! k = Some x.
Proof.
  revert k. induction t as [|y t IH]; intros k; [done|]. simpl.
  destruct (decide (y = x)) as [->|Hne].
  - by intros [= <-].
  - destruct (position t x) as [k'|] eqn:Hp; [|done].
    intros [= <-]. simpl. by apply IH.
Qed.

Lemma position_elem_of (t : list nat) x :
  x ∈ t → ∃ k, position t x = Some k.
Proof.
  induction t as [|y t IH]; intros Hin; [by apply elem_of_nil in Hin|].
  simpl. destruct (decide (y = x)) as [->|Hne]; [by eexists|].
  apply elem_of_cons in Hin as [->|Hin]; [done|].
  destruct (IH Hin) as [k ->]. by eexists.
Qed.

Lemma position_NoDup (t : list nat) x k :
  NoDup t → t !! k = Some x → position t x = Some k.
Proof.
  intros Hnd Hk.
  destruct (position_elem_of t x) as [k' Hk'].
  { by eapply list_elem_of_lookup_2. }
  apply position_lookup in Hk' as Hl.
  by rewrite (NoDup_lookup t k k' x Hnd Hk Hl).
Qed.

Lemma agg_app b1 c1 b2 c2 t :
  length b1 = length c1 →
  agg (b1 ++ b2) (c1 ++ c2) t = agg b1 c1 t + agg b2 c2 t.
Proof.
  revert c1. induction b1 as [|i b1 IH]; intros c1 Hlen.
  - destruct c1; [|done]. simpl. lia.
  - destruct c1 as [|x c1]; [done|]. simpl in *. rewrite IH by lia. lia.
Qed.

(** The counts of [np.bincount] over the inverse of [np.unique] are the
    counts per block. *)
Lemma bincount_unique (t l : list nat) (w : list Z) :
  NoDup t → (∀ x, x ∈ l → x ∈ t) →
  ∃ idx,
    mapM (position t) l = Some idx
    ∧ length idx = length l
    ∧ vec_of (length t) (agg idx w) = agg l w <$> t.
Proof.
  intros Hnd Hsub.
  assert (∃ idx, mapM (position t) l = Some idx
                 ∧ Forall2 (λ x k, position t x = Some k) l idx)
    as (idx & Hidx & HF).
  { destruct (mapM (position t) l) as [idx|] eqn:Hm.
    - exists idx. split; [done|]. by apply mapM_Some_1.
    - apply mapM_None_1, Exists_exists in Hm as (x & Hx & Hnone).
      destruct (position_elem_of t x (Hsub x Hx)) as [k Hk]. congruence. }
  exists idx. split; [done|].
  split; [symmetry; by eapply Forall2_length|].
  apply list_eq. intros k. rewrite list_lookup_fmap.
  destruct (t !! k) as [x|] eqn:Hx.
  - rewrite lookup_vec_of by (by eapply lookup_lt_Some). simpl. f_equal.
    clear Hidx Hsub. revert w. induction HF as [|y j l idx Hy HF IH]; intros w.
    + done.
    + destruct w as [|z w]; [done|]. simpl. rewrite IH. f_equal.
      destruct (decide (j = k)) as [->|Hjk].
      * apply position_lookup in Hy. rewrite Hx in Hy.
        injection Hy as ->. by rewrite decide_True.
      * rewrite decide_False; [done|]. intros ->.
        rewrite (position_NoDup t x k Hnd Hx) in Hy. congruence.
  - simpl. apply lookup_ge_None_2. rewrite length_vec_of.
    by apply lookup_ge_None_1.
Qed.

Lemma np_unique_NoDup (l : list nat) : NoDup (np_unique l).
Proof.
  unfold np_unique. rewrite merge_sort_Permutation. apply NoDup_remove_dups.
Qed.

Lemma elem_of_np_unique (l : list nat) x : x ∈ np_unique l ↔ x ∈ l.
Proof.
  unfold np_unique. rewrite merge_sort_Permutation. apply elem_of_remove_dups.
Qed.

End hastings_lists.

Lemma take_idx_list (v : list Z) (idx : list nat) :
  Forall (λ i, (i < length v)%nat) idx → take_idx v idx = Some (vget v <$> idx).
Proof.
  intros H. pose proof (take_idx_vec_of (length v) (vget v) idx H) as Ht.
  by rewrite vec_of_vget in Ht.
Qed.

Section hastings.
Local Open Scope R_scope.

Lemma proposal_weight_fin (B c a b d : Z) :
  IZR d + IZR B ≠ 0 →
  proposal_weight B c a b d
  = Fin (IZR c * (IZR a + IZR b + 1) / (IZR d + IZR B)).
Proof.
  intros H. unfold proposal_weight, of_Z. rewrite fadd_fin, fdiv_fin by done.
  by rewrite mult_IZR, !plus_IZR.
Qed.

Lemma zip_with_fmap4 {X} (f : Z → Z * Z * Z → npfloat)
    (g1 g2 g3 g4 : X → Z) (t : list X) :
  zip_with f (g1 <$> t) (zip (zip (g2 <$> t) (g3 <$> t)) (g4 <$> t))
  = (λ x, f (g1 x) (g2 x, g3 x, g4 x)) <$> t.
Proof. induction t as [|x t IH]; [done|]. simpl. f_equal. apply IH. Qed.

(** One of the two sums of the correction. *)
Lemma proposal_sum_fin (B : Z) (t : list nat) (count a b d : nat → Z) :
  (∀ x, x ∈ t → IZR (d x) + IZR B ≠ 0) →
  fsum (zip_with (λ c x, proposal_weight B c x.1.1 x.1.2 x.2)
          (count <$> t) (zip (zip (a <$> t) (b <$> t)) (d <$> t)))
  = Fin (proposal_sum B t count a b d).
Proof.
  intros H.
  rewrite (zip_with_fmap4 (λ c x, proposal_weight B c x.1.1 x.1.2 x.2)).
  cbn [fst snd]. unfold proposal_sum. apply fsum_fmap_fin.
  intros x Hx. apply proposal_weight_fin. by apply H.
Qed.

End hastings.

(** The value of [compute_Hastings_correction] when the degrees are not
    negative and there is at least one block: both sums are finite, since
    every denominator [d + B] is positive. *)
Lemma compute_Hastings_correction_value
    (B : nat) (p : Partition) (s : nat)
    (b_out : list nat) (count_out : list Z)
    (b_in : list nat) (count_in : list Z)
    (M_r_row M_r_col d_new : list Z) :
  wf_matrix B (interblock_edge_count p) →
  num_blocks p = Z.of_nat B → (0 < B)%nat →
  length (block_degrees p) = B →
  length M_r_row = B → length M_r_col = B → length d_new = B →
  (s < B)%nat →
  Forall (λ i, (i < B)%nat) b_out → Forall (λ i, (i < B)%nat) b_in →
  length b_out = length count_out → length b_in = length count_in →
  (∀ t, (t < B)%nat → 0 <= vget (block_degrees p) t) →
  (∀ t, (t < B)%nat → 0 <= vget d_new t) →
  compute_Hastings_correction b_out count_out b_in count_in s p
    M_r_row M_r_col d_new
  = Some (fdiv
      (Fin (proposal_sum (num_blocks p) (np_unique (b_out ++ b_in))
              (λ t, agg b_out count_out t + agg b_in count_in t)
              (vget M_r_row) (vget M_r_col) (vget d_new)))
      (Fin (proposal_sum (num_blocks p) (np_unique (b_out ++ b_in))
              (λ t, agg b_out count_out t + agg b_in count_in t)
              (λ t, mget (interblock_edge_count p) t s)
              (λ t, mget (interblock_edge_count p) s t)
              (vget (block_degrees p))))).
Proof.
  intros Hwf HB HB0 Hld Hlr Hlc Hln Hs Hro Hri Hlo Hli Hd Hdn.
  set (M := interblock_edge_count p).
  set (blocks := np_unique (b_out ++ b_in)).
  set (count := λ t, agg b_out count_out t + agg b_in count_in t).
  set (p_forward := proposal_sum _ _ _ (λ t, mget M t s) _ _).
  set (p_backward := proposal_sum _ _ _ (vget M_r_row) _ _).
  unfold compute_Hastings_correction. cbv zeta. fold M blocks.
  assert (NoDup blocks) as Hnd by apply np_unique_NoDup.
  assert (∀ x, x ∈ blocks → (x < B)%nat) as Hlt.
  { intros x Hx. apply (proj1 (elem_of_np_unique _ _)) in Hx.
    apply elem_of_app in Hx as [Hx|Hx].
    - by apply (proj1 (Forall_forall _ _) Hro).
    - by apply (proj1 (Forall_forall _ _) Hri). }
  destruct (bincount_unique blocks (b_out ++ b_in) (count_out ++ count_in))
    as (idx & Hidx & Hlidx & Hcount); [done | |].
  { intros x Hx. by apply (proj2 (elem_of_np_unique _ _)). }
  rewrite Hidx. cbn [mbind option_bind]. unfold np_bincount.
  rewrite decide_True by (by rewrite Hlidx, !length_app, Hlo, Hli).
  cbn [mbind option_bind]. rewrite Hcount.
  rewrite (mapM_total _ (λ i, mget M i s)).
  2:{ intros i Hi. apply Hlt in Hi.
      destruct (lookup_lt_is_Some_2 M i) as [row Hrow];
        [unfold M; destruct Hwf; lia|].
      assert (length row = B) as Hl.
      { destruct Hwf as [_ Hrows].
        eapply (proj1 (Forall_lookup _ _) Hrows); eauto. }
      rewrite Hrow. cbn [mbind option_bind]. unfold mget. rewrite Hrow.
      simpl. apply lookup_vget. lia. }
  cbn [mbind option_bind].
  destruct (lookup_lt_is_Some_2 M s) as [row_s Hrow_s];
    [unfold M; destruct Hwf; lia|].
  assert (length row_s = B) as Hls.
  { destruct Hwf as [_ Hrows].
    eapply (proj1 (Forall_lookup _ _) Hrows); eauto. }
  rewrite Hrow_s. cbn [mbind option_bind].
  assert (∀ v : list Z, length v = B →
            take_idx v blocks = Some (vget v <$> blocks)) as Htake.
  { intros v Hv. apply take_idx_list, Forall_forall. intros x Hx.
    rewrite Hv. by apply Hlt. }
  rewrite !Htake by done. cbn [mbind option_bind].
  assert (0 < IZR (Z.of_nat B))%R as HBr by (apply IZR_lt; lia).
  rewrite !proposal_sum_fin.
  2,3: intros x Hx; rewrite HB; specialize (Hdn x (Hlt x Hx));
       specialize (Hd x (Hlt x Hx)); apply IZR_le in Hdn, Hd; lra.
  do 3 f_equal.
  - unfold p_backward, proposal_sum. apply sumR_fmap_ext. intros t Ht.
    unfold count. rewrite agg_app, plus_IZR by done. done.
  - unfold p_forward, proposal_sum. apply sumR_fmap_ext. intros t Ht.
    unfold count. rewrite agg_app, plus_IZR by done.
    assert (mget M s t = vget row_s t) as ->
      by (unfold mget; by rewrite Hrow_s).
    done.
Qed.

(** C6. [compute_Hastings_correction] returns [p_backward / p_forward], where
    [p_forward] is the sum over the distinct neighbour blocks [t] of
    [count t (M[t,s] + M[s,t] + 1) / (d[t] + B)] on the current matrix and
    degrees, [p_backward] is the same sum with the new row [r], the new
    column [r] and the candidate degrees, and [count t] is the total count
    that the out- and in-neighbour arrays give to [t].  The merge phase
    compares changes of entropy only: no Hastings correction enters it. *)
Theorem compute_Hastings_correction_ratio
    (B : nat) (p : Partition) (s : nat)
    (b_out : list nat) (count_out : list Z)
    (b_in : list nat) (count_in : list Z)
    (M_r_row M_r_col d_new : list Z) :
  wf_matrix B (interblock_edge_count p) →
  num_blocks p = Z.of_nat B → (0 < B)%nat →
  length (block_degrees p) = B →
  length M_r_row = B → length M_r_col = B → length d_new = B →
  (s < B)%nat →
  Forall (λ i, (i < B)%nat) b_out → Forall (λ i, (i < B)%nat) b_in →
  length b_out = length count_out → length b_in = length count_in →
  (∀ t, (t < B)%nat → 0 <= vget (block_degrees p) t) →
  (∀ t, (t < B)%nat → 0 <= vget d_new t) →
  let M := interblock_edge_count p in
  let blocks := np_unique (b_out ++ b_in) in
  let count := λ t, agg b_out count_out t + agg b_in count_in t in
  let p_forward :=
    proposal_sum (num_blocks p) blocks count
      (λ t, mget M t s) (λ t, mget M s t) (vget (block_degrees p)) in
  let p_backward :=
    proposal_sum (num_blocks p) blocks count
      (vget M_r_row) (vget M_r_col) (vget d_new) in
  compute_Hastings_correction b_out count_out b_in count_in s p
    M_r_row M_r_col d_new
  = Some (fdiv (Fin p_backward) (Fin p_forward))
  ∧ (p_forward ≠ 0%R →
     compute_Hastings_correction b_out count_out b_in count_in s p
       M_r_row M_r_col d_new
     = Some (Fin (p_backward / p_forward)))
  ∧ (∀ best proposal delta_entropy,
       merge_blocks_step best proposal delta_entropy
       = if flt_dec delta_entropy best.2 then (proposal, delta_entropy)
         else best).
Proof.
  intros Hwf HB HB0 Hld Hlr Hlc Hln Hs Hro Hri Hlo Hli Hd Hdn
         M blocks count p_forward p_backward.
  pose proof (compute_Hastings_correction_value B p s b_out count_out b_in
                count_in M_r_row M_r_col d_new Hwf HB HB0 Hld Hlr Hlc Hln Hs
                Hro Hri Hlo Hli Hd Hdn) as Heq.
  split; [exact Heq|]. split; [|done].
  intros Hne. rewrite Heq. by rewrite fdiv_fin.
Qed.

(** The correction for moving vertex 0 of the single-edge partition from
    block 0 to block 1. *)
Lemma compute_Hastings_correction_ratio_witness :
  ∃ p_forward p_backward : R,
    compute_Hastings_correction [1%nat] [1] [] [] 1 bridge_partition
      [0; 0] [0; 0] [0; 2]
    = Some (fdiv (Fin p_backward) (Fin p_forward)).
Proof.
  destruct (compute_Hastings_correction_ratio 2 bridge_partition 1
              [1%nat] [1] [] [] [0; 0] [0; 0] [0; 2]) as (H & _ & _).
  - split; [reflexivity|]. repeat constructor.
  - reflexivity.
  - lia.
  - reflexivity.
  - reflexivity.
  - reflexivity.
  - reflexivity.
  - lia.
  - repeat constructor.
  - constructor.
  - reflexivity.
  - reflexivity.
  - intros [|[|t]] Ht; vm_compute; congruence.
  - intros [|[|t]] Ht; vm_compute; congruence.
  - eexists _, _. exact H.
Defined.

(** * Zero degrees in the denominators *)

Lemma fdiv_NInf_zero : fdiv NInf (Fin 0) = NInf.
Proof. unfold fdiv. destruct (Rlt_dec 0 0); [lra | done]. Qed.

Lemma not_finite_NaN : ¬ is_finite NaN.
Proof. intros [x Hx]. discriminate. Qed.


Section unguarded.
Local Open Scope R_scope.

(** A nonzero entry over a zero degree is never a finite term. *)
Lemma entropy_entry_zero_degree (deg m : Z) :
  m ≠ 0%Z → ¬ is_finite (entropy_entry deg m 0).
Proof.
  intros Hm [x Hx]. unfold entropy_entry, of_Z in Hx.
  rewrite fdiv_zero in Hx.
  destruct (Z.lt_total m 0) as [Hlt|[->|Hgt]]; [|done|].
  - apply IZR_lt in Hlt. rewrite scale_inf_neg in Hx by done.
    unfold fdiv in Hx. destruct (Rlt_dec (IZR deg) 0).
    + cbn [flog fmul] in Hx. rewrite scale_inf_neg in Hx by done. done.
    + cbn [flog fmul] in Hx. done.
  - apply IZR_lt in Hgt. rewrite scale_inf_pos in Hx by done.
    unfold fdiv in Hx. destruct (Rlt_dec (IZR deg) 0).
    + cbn [flog fmul] in Hx. done.
    + cbn [flog fmul] in Hx. rewrite scale_inf_pos in Hx by done. done.
Qed.

End unguarded.



(** * The change of entropy against the objective *)

Lemma self_loop_pair_partition_valid :
  valid_partition 2 4 self_loop_pair_partition.
Proof.
  split; try reflexivity.
  - split; [reflexivity|]. repeat constructor.
  - intros [|[|i]] [|[|j]]; by vm_compute.
  - intros [|[|i]] Hi; [reflexivity | reflexivity | lia].
  - intros [|[|i]] Hi; [reflexivity | reflexivity | lia].
  - intros [|[|i]] Hi; [reflexivity | reflexivity | lia].
Qed.

Ltac fin_eval :=
  unfold fsum, of_Z; cbn [foldr];
  repeat first
    [ rewrite fadd_fin | rewrite fsub_fin | rewrite fmul_fin | rewrite fopp_fin
    | rewrite fdiv_fin by lra | rewrite flog_fin by lra ].

Section mismatch.
Local Open Scope R_scope.

Lemma ln_quotients :
  ln (1 / 2) = - ln 2 ∧ ln (1 / 6) = - ln 2 - ln 3 ∧ ln (2 / 6) = - ln 3
  ∧ ln (3 / 4) = ln 3 - 2 * ln 2 ∧ ln (3 / 4) < 0.
Proof.
  assert (ln 6 = ln 2 + ln 3) as H6.
  { replace 6 with (2 * 3) by lra. apply ln_mult; lra. }
  assert (ln 4 = 2 * ln 2) as H4.
  { replace 4 with (2 * 2) by lra. rewrite ln_mult by lra. lra. }
  repeat split.
  - rewrite ln_quot, ln_1 by lra. lra.
  - rewrite ln_quot, ln_1, H6 by lra. lra.
  - replace (2 / 6) with (1 / 3) by lra. rewrite ln_quot, ln_1 by lra. lra.
  - rewrite ln_quot, H4 by lra. lra.
  - rewrite <- ln_1. apply ln_increasing; lra.
Qed.

(** C3 (does not hold for a vertex with a self-loop).  Vertex 0 carries a
    self-loop of weight 1 and no other edge; moving it from block 1 to block 0
    of a valid partition, with the update and the degrees that the kernels
    produce, [compute_delta_entropy] returns [0] while
    [compute_overall_entropy] after [update_partition] minus
    [compute_overall_entropy] before is [ln (3/4)]. *)
Theorem compute_delta_entropy_self_loop_mismatch :
  valid_partition 2 4 self_loop_pair_partition
  ∧ ∃ u d_out_new d_in_new d_new p' (S_old S_new : R),
      compute_new_rows_cols_interblock_edge_count_matrix
        (interblock_edge_count self_loop_pair_partition) 1 0
        [1%nat] [1%Z] [1%nat] [1%Z] 1 false = Some u
      ∧ compute_new_block_degrees 1 0 self_loop_pair_partition 1 1 2
        = Some [d_out_new; d_in_new; d_new]
      ∧ update_partition self_loop_pair_partition 0 1 0 u
          d_out_new d_in_new d_new = Some p'
      ∧ compute_delta_entropy 1 0 self_loop_pair_partition u
          d_out_new d_in_new = Some (Fin 0)
      ∧ compute_overall_entropy self_loop_pair_partition 3 4 = Some (Fin S_old)
      ∧ compute_overall_entropy p' 3 4 = Some (Fin S_new)
      ∧ S_new - S_old = ln (3 / 4)
      ∧ S_new - S_old < 0
      ∧ 1 / 1000000 * Rabs (S_new - S_old) < Rabs (0 - (S_new - S_old)).
Proof.
  split; [apply self_loop_pair_partition_valid|].
  destruct ln_quotients as (H2 & H6 & H3 & H34 & Hneg).
  eexists _, _, _, _, _, _, _.
  split; [vm_compute; reflexivity|].
  split; [vm_compute; reflexivity|].
  split; [vm_compute; reflexivity|].
  split.
  { cbv -[fadd fsub fmul fdiv flog fopp of_Z IZR Rplus Rmult fsum].
    fin_eval. do 2 f_equal.
    replace (1 / 2 / 1) with (1 / 2) by lra.
    replace (2 / 2 / 3) with (2 / 6) by lra.
    replace (1 / 2 / 3) with (1 / 6) by lra.
    replace (2 / 3 / 2) with (2 / 6) by lra.
    replace (1 / 1 / 2) with (1 / 2) by lra.
    replace (1 / 3 / 2) with (1 / 6) by lra.
    rewrite H2, H6, H3. lra. }
  split.
  { cbv -[fadd fsub fmul fdiv flog fopp of_Z IZR Rplus Rmult fsum].
    fin_eval. reflexivity. }
  split.
  { cbv -[fadd fsub fmul fdiv flog fopp of_Z IZR Rplus Rmult fsum].
    fin_eval. reflexivity. }
  assert (∀ m : R, m + - (2 * ln (2 / 6) + (2 * ln (2 / 6) + 0))
            - (m + - (1 * ln (1 / 2) + (1 * ln (1 / 6)
                                        + (2 * ln (2 / 6) + 0))))
          = ln (3 / 4)) as Hdiff.
  { intros m. rewrite H2, H6, H3, H34. lra. }
  rewrite Hdiff. split; [done|]. split; [done|].
  replace (0 - ln (3 / 4)) with (- ln (3 / 4)) by lra.
  rewrite Rabs_Ropp. rewrite Rabs_left by done. lra.
Qed.

End mismatch.

(** * The change of entropy against the entropy *)

Section entropy_difference.
Local Open Scope R_scope.

Lemma entropy_term_row (x a b : Z) : entropy_term a x b = data_term x a b.
Proof.
  unfold entropy_term, data_term. case_decide; [done|].
  do 2 f_equal. unfold Rdiv. rewrite Rinv_mult. ring.
Qed.

Lemma entropy_term_col (x a b : Z) : entropy_term b x a = data_term x a b.
Proof.
  unfold entropy_term, data_term. case_decide; [done|].
  do 2 f_equal. unfold Rdiv. rewrite Rinv_mult. ring.
Qed.

(** A double sum whose terms vanish outside the rows and columns [r] and
    [s] is the sum over those two rows and, outside them, over the two
    columns. *)
Lemma bigsumR_cross (B r s : nat) (D : nat → nat → R) :
  (r < B)%nat → (s < B)%nat → r ≠ s →
  (∀ i j, (i < B)%nat → (j < B)%nat →
     i ≠ r → i ≠ s → j ≠ r → j ≠ s → D i j = 0) →
  bigsumR B (λ i, bigsumR B (D i))
  = bigsumR B (D r) + bigsumR B (D s)
    + bigsumR B (excl r s (λ t, D t r)) + bigsumR B (excl r s (λ t, D t s)).
Proof.
  intros Hr Hs Hne Hzero.
  rewrite (bigsumR_split2 B (λ i, bigsumR B (D i)) r s Hr Hs Hne).
  assert (bigsumR B (λ t, if decide (t = r ∨ t = s) then 0
                          else bigsumR B (D t))
          = bigsumR B (excl r s (λ t, D t r))
            + bigsumR B (excl r s (λ t, D t s))) as ->; [|lra].
  rewrite <- bigsumR_add.
  apply bigsumR_ext. intros i Hi. unfold excl.
  destruct (decide (i = r ∨ i = s)) as [Hi'|Hi']; [lra|].
  rewrite (bigsumR_split2 B (D i) r s Hr Hs Hne).
  rewrite (bigsumR_ext B _ (λ _, 0)), bigsumR_zero; [lra|].
  intros j Hj. destruct (decide (j = r ∨ j = s)) as [Hj'|Hj']; [done|].
  apply Hzero; tauto || lia.
Qed.

Lemma bigsumR_excl_sub (B r s : nat) (f g : nat → R) :
  bigsumR B (excl r s (λ t, f t - g t))
  = bigsumR B (excl r s f) - bigsumR B (excl r s g).
Proof.
  rewrite <- bigsumR_sub. apply bigsumR_ext. intros t _. unfold excl.
  case_decide; lra.
Qed.

Lemma data_sum_difference (B r s : nat) (T T' : nat → nat → R) :
  (r < B)%nat → (s < B)%nat → r ≠ s →
  (∀ i j, (i < B)%nat → (j < B)%nat →
     i ≠ r → i ≠ s → j ≠ r → j ≠ s → T' i j = T i j) →
  bigsumR B (λ i, bigsumR B (T' i)) - bigsumR B (λ i, bigsumR B (T i))
  = bigsumR B (T' r) + bigsumR B (T' s)
    + bigsumR B (excl r s (λ t, T' t r)) + bigsumR B (excl r s (λ t, T' t s))
    - bigsumR B (T r) - bigsumR B (T s)
    - bigsumR B (excl r s (λ t, T t r)) - bigsumR B (excl r s (λ t, T t s)).
Proof.
  intros Hr Hs Hne Hframe.
  pose proof (bigsumR_cross B r s (λ i j, T' i j - T i j) Hr Hs Hne) as Hc.
  cbv beta in Hc. rewrite !bigsumR_excl_sub, !bigsumR_sub in Hc.
  rewrite (bigsumR_ext B _ (λ i, bigsumR B (T' i) - bigsumR B (T i))) in Hc
    by (intros i _; apply bigsumR_sub).
  rewrite bigsumR_sub in Hc. rewrite Hc; [lra|].
  intros i j Hi Hj H1 H2 H3 H4. rewrite Hframe by done. lra.
Qed.

End entropy_difference.

Lemma getrow_mget (B : nat) (M : list (list Z)) (r : nat) (row : list Z) :
  wf_matrix B M → (r < B)%nat → getrow M r = Some row →
  length row = B ∧ ∀ t, (t < B)%nat → vget row t = mget M r t.
Proof.
  intros Hwf Hr Hrow. rewrite <- (mat_of_mget B M Hwf) in Hrow.
  rewrite getrow_mat_of in Hrow by done. injection Hrow as <-.
  split; [apply length_vec_of|]. intros t Ht. by rewrite vget_vec_of.
Qed.

Lemma getcol_mget (B : nat) (M : list (list Z)) (r : nat) (col : list Z) :
  wf_matrix B M → (r < B)%nat → getcol M r = Some col →
  length col = B ∧ ∀ t, (t < B)%nat → vget col t = mget M t r.
Proof.
  intros Hwf Hr Hcol. rewrite <- (mat_of_mget B M Hwf) in Hcol.
  rewrite getcol_mat_of in Hcol by done. injection Hcol as <-.
  split; [apply length_vec_of|]. intros t Ht. by rewrite vget_vec_of.
Qed.

Lemma valid_finite_term (B : nat) (E : Z) (p : Partition) (i j : nat) :
  valid_partition B E p → (i < B)%nat → (j < B)%nat →
  finite_term (vget (block_degrees_out p) i)
    (mget (interblock_edge_count p) i j) (vget (block_degrees_in p) j)
  ∧ finite_term (vget (block_degrees_in p) j)
      (mget (interblock_edge_count p) i j) (vget (block_degrees_out p) i).
Proof.
  intros Hv Hi Hj. unfold finite_term.
  split; intros Hne;
    destruct (valid_entry_degrees B E p i j Hv Hi Hj Hne) as (H1 & H2 & H3);
    lia.
Qed.

Lemma delta_entropy_value_difference
    (B : nat) (E0 E0' : Z) (p p' : Partition) (r s : nat)
    (u : EdgeCountUpdates) (N E : Z) :
  valid_partition B E0 p → valid_partition B E0' p' →
  (r < B)%nat → (s < B)%nat → r ≠ s → 0 < E →
  getrow (interblock_edge_count p') r = Some (block_row u) →
  getrow (interblock_edge_count p') s = Some (proposal_row u) →
  getcol (interblock_edge_count p') r = Some (block_col u) →
  getcol (interblock_edge_count p') s = Some (proposal_col u) →
  (∀ i j, (i < B)%nat → (j < B)%nat → i ≠ r → i ≠ s → j ≠ r → j ≠ s →
     mget (interblock_edge_count p') i j = mget (interblock_edge_count p) i j) →
  (∀ t, (t < B)%nat → t ≠ r → t ≠ s →
     vget (block_degrees_out p') t = vget (block_degrees_out p) t
     ∧ vget (block_degrees_in p') t = vget (block_degrees_in p) t) →
  delta_shapes B p u (block_degrees_out p') (block_degrees_in p')
  ∧ delta_terms_finite B r s p u (block_degrees_out p') (block_degrees_in p')
  ∧ delta_entropy_value B r s p u (block_degrees_out p') (block_degrees_in p')
    = (S_overall B p' N E - S_overall B p N E)%R.
Proof.
  intros Hv Hv' Hr Hs Hne HE Hrow_r Hrow_s Hcol_r Hcol_s HframeM Hframed.
  assert (0 < B)%nat as HB by lia.
  pose proof Hv as [_ Hwf Hlo Hli _ _ _ _ _ _].
  pose proof Hv' as [_ Hwf' Hlo' Hli' _ _ _ _ _ _].
  destruct (getrow_mget B _ r _ Hwf' Hr Hrow_r) as [Hl1 Hg1].
  destruct (getrow_mget B _ s _ Hwf' Hs Hrow_s) as [Hl2 Hg2].
  destruct (getcol_mget B _ r _ Hwf' Hr Hcol_r) as [Hl3 Hg3].
  destruct (getcol_mget B _ s _ Hwf' Hs Hcol_s) as [Hl4 Hg4].
  assert (delta_shapes B p u (block_degrees_out p') (block_degrees_in p'))
    as Hshapes by (repeat split; try done; by destruct Hwf).
  assert (delta_terms_finite B r s p u (block_degrees_out p')
            (block_degrees_in p')) as Hfin.
  { split.
    - intros t Ht. rewrite Hg1, Hg2 by done.
      pose proof (valid_finite_term B E0' p' r t Hv' Hr Ht) as [H1 _].
      pose proof (valid_finite_term B E0' p' s t Hv' Hs Ht) as [H2 _].
      pose proof (valid_finite_term B E0 p r t Hv Hr Ht) as [H3 _].
      pose proof (valid_finite_term B E0 p s t Hv Hs Ht) as [H4 _].
      done.
    - intros t Ht Htr Hts. rewrite Hg3, Hg4 by done.
      pose proof (valid_finite_term B E0' p' t r Hv' Ht Hr) as [_ H1].
      pose proof (valid_finite_term B E0' p' t s Hv' Ht Hs) as [_ H2].
      pose proof (valid_finite_term B E0 p t r Hv Ht Hr) as [_ H3].
      pose proof (valid_finite_term B E0 p t s Hv Ht Hs) as [_ H4].
      done. }
  split; [done|]. split; [done|]. clear Hshapes Hfin.
  unfold S_overall, delta_entropy_value, data_sum. cbv zeta.
  set (M := interblock_edge_count p) in *.
  set (M' := interblock_edge_count p') in *.
  set (a := block_degrees_out p) in *. set (b := block_degrees_in p) in *.
  set (a' := block_degrees_out p') in *. set (b' := block_degrees_in p') in *.
  pose proof (data_sum_difference B r s
    (λ i j, data_term (mget M i j) (vget a i) (vget b j))
    (λ i j, data_term (mget M' i j) (vget a' i) (vget b' j)) Hr Hs Hne)
    as Hdiff.
  cbv beta in Hdiff.
  rewrite (bigsumR_ext B
    (λ t, entropy_term (vget a' r) (vget (block_row u) t) (vget b' t))
    (λ t, data_term (mget M' r t) (vget a' r) (vget b' t)))
    by (intros t Ht; by rewrite Hg1, entropy_term_row).
  rewrite (bigsumR_ext B
    (λ t, entropy_term (vget a' s) (vget (proposal_row u) t) (vget b' t))
    (λ t, data_term (mget M' s t) (vget a' s) (vget b' t)))
    by (intros t Ht; by rewrite Hg2, entropy_term_row).
  rewrite (bigsumR_ext B
    (excl r s (λ t, entropy_term (vget b' r) (vget (block_col u) t)
                      (vget a' t)))
    (excl r s (λ t, data_term (mget M' t r) (vget a' t) (vget b' r))))
    by (intros t Ht; unfold excl; case_decide; [done|];
        by rewrite Hg3, entropy_term_col).
  rewrite (bigsumR_ext B
    (excl r s (λ t, entropy_term (vget b' s) (vget (proposal_col u) t)
                      (vget a' t)))
    (excl r s (λ t, data_term (mget M' t s) (vget a' t) (vget b' s))))
    by (intros t Ht; unfold excl; case_decide; [done|];
        by rewrite Hg4, entropy_term_col).
  rewrite (bigsumR_ext B
    (λ t, entropy_term (vget a r) (mget M r t) (vget b t))
    (λ t, data_term (mget M r t) (vget a r) (vget b t)))
    by (intros t Ht; by rewrite entropy_term_row).
  rewrite (bigsumR_ext B
    (λ t, entropy_term (vget a s) (mget M s t) (vget b t))
    (λ t, data_term (mget M s t) (vget a s) (vget b t)))
    by (intros t Ht; by rewrite entropy_term_row).
  rewrite (bigsumR_ext B
    (excl r s (λ t, entropy_term (vget b r) (mget M t r) (vget a t)))
    (excl r s (λ t, data_term (mget M t r) (vget a t) (vget b r))))
    by (intros t Ht; unfold excl; case_decide; [done|];
        by rewrite entropy_term_col).
  rewrite (bigsumR_ext B
    (excl r s (λ t, entropy_term (vget b s) (mget M t s) (vget a t)))
    (excl r s (λ t, data_term (mget M t s) (vget a t) (vget b s))))
    by (intros t Ht; unfold excl; case_decide; [done|];
        by rewrite entropy_term_col).
  assert (∀ i j, (i < B)%nat → (j < B)%nat →
            i ≠ r → i ≠ s → j ≠ r → j ≠ s →
            data_term (mget M' i j) (vget a' i) (vget b' j)
            = data_term (mget M i j) (vget a i) (vget b j)) as Hsame.
  { intros i j Hi Hj H1 H2 H3 H4. rewrite HframeM by done.
    destruct (Hframed i Hi H1 H2) as [-> _].
    destruct (Hframed j Hj H3 H4) as [_ ->]. done. }
  specialize (Hdiff Hsame). lra.
Qed.

(** X5. Let the update vectors be the rows and the columns [r] and [s] of the
    matrix of a valid partition [p'] that agrees with the valid partition
    [p] outside those rows and columns, in the matrix and in the degrees.
    Then the value of [compute_delta_entropy] for the update, with the
    degrees of [p'], is the difference of the values of
    [compute_overall_entropy] on [p'] and on [p]. *)
Theorem compute_delta_entropy_matches_overall_entropy
    (B : nat) (E0 E0' : Z) (p p' : Partition) (r s : nat)
    (u : EdgeCountUpdates) (N E : Z) :
  valid_partition B E0 p → valid_partition B E0' p' →
  (r < B)%nat → (s < B)%nat → r ≠ s → 0 < E →
  getrow (interblock_edge_count p') r = Some (block_row u) →
  getrow (interblock_edge_count p') s = Some (proposal_row u) →
  getcol (interblock_edge_count p') r = Some (block_col u) →
  getcol (interblock_edge_count p') s = Some (proposal_col u) →
  (∀ i j, (i < B)%nat → (j < B)%nat → i ≠ r → i ≠ s → j ≠ r → j ≠ s →
     mget (interblock_edge_count p') i j = mget (interblock_edge_count p) i j) →
  (∀ t, (t < B)%nat → t ≠ r → t ≠ s →
     vget (block_degrees_out p') t = vget (block_degrees_out p) t
     ∧ vget (block_degrees_in p') t = vget (block_degrees_in p) t) →
  ∃ S S' : R,
    compute_overall_entropy p N E = Some (Fin S)
    ∧ compute_overall_entropy p' N E = Some (Fin S')
    ∧ compute_delta_entropy r s p u
        (block_degrees_out p') (block_degrees_in p')
      = Some (Fin (S' - S)).
Proof.
  intros Hv Hv' Hr Hs Hne HE Hrow_r Hrow_s Hcol_r Hcol_s HframeM Hframed.
  assert (0 < B)%nat as HB by lia.
  destruct (delta_entropy_value_difference B E0 E0' p p' r s u N E)
    as (Hshapes & Hfin & Hval); try done.
  eexists _, _.
  split; [exact (compute_overall_entropy_value B E0 p N E Hv HB HE)|].
  split; [exact (compute_overall_entropy_value B E0' p' N E Hv' HB HE)|].
  rewrite (compute_delta_entropy_value B r s p u _ _ Hshapes Hr Hs Hne Hfin).
  rewrite Hval. do 2 f_equal. lra.
Qed.


Lemma bridge_partition_valid : valid_partition 2 1 bridge_partition.
Proof.
  split; try reflexivity.
  - split; [reflexivity|]. repeat constructor.
  - intros [|[|i]] [|[|j]]; by vm_compute.
  - intros [|[|i]] Hi; [reflexivity | reflexivity | lia].
  - intros [|[|i]] Hi; [reflexivity | reflexivity | lia].
  - intros [|[|i]] Hi; [reflexivity | reflexivity | lia].
Qed.

Lemma bridge_moved_partition_valid : valid_partition 2 1 bridge_moved_partition.
Proof.
  split; try reflexivity.
  - split; [reflexivity|]. repeat constructor.
  - intros [|[|i]] [|[|j]]; by vm_compute.
  - intros [|[|i]] Hi; [reflexivity | reflexivity | lia].
  - intros [|[|i]] Hi; [reflexivity | reflexivity | lia].
  - intros [|[|i]] Hi; [reflexivity | reflexivity | lia].
Qed.

Lemma compute_delta_entropy_matches_overall_entropy_witness :
  ∃ S S' : R,
    compute_overall_entropy bridge_partition 2 1 = Some (Fin S)
    ∧ compute_overall_entropy bridge_moved_partition 2 1 = Some (Fin S')
    ∧ compute_delta_entropy 0 1 bridge_partition
        (mkEdgeCountUpdates [0; 0] [0; 1] [0; 0] [0; 1]) [0; 1] [0; 1]
      = Some (Fin (S' - S)).
Proof.
  apply (compute_delta_entropy_matches_overall_entropy 2 1 1 bridge_partition
           bridge_moved_partition 0 1
           (mkEdgeCountUpdates [0; 0] [0; 1] [0; 0] [0; 1]) 2 1).
  - exact bridge_partition_valid.
  - exact bridge_moved_partition_valid.
  - lia.
  - lia.
  - lia.
  - lia.
  - reflexivity.
  - reflexivity.
  - reflexivity.
  - reflexivity.
  - intros i j Hi Hj H1 H2. lia.
  - intros t Ht H1 H2. lia.
Defined.

(** X6. A vertex without a self-loop that moves between two different blocks of
    a valid partition: when the matrix that [update_partition] leaves has no
    negative entry, the value that [compute_delta_entropy] returns for the
    update of the vertex-phase kernel and the degrees of
    [compute_new_block_degrees] is the value of [compute_overall_entropy] on
    the partition after [update_partition] minus its value on the partition
    before. *)
Theorem vertex_move_delta_entropy_exact
    (B : nat) (E0 : Z) (p p' : Partition) (ni r s : nat)
    (b_out : list nat) (count_out : list Z)
    (b_in : list nat) (count_in : list Z)
    (u : EdgeCountUpdates) (d_out_new d_in_new d_new : list Z) (N E : Z) :
  valid_partition B E0 p →
  (ni < length (block_assignment p))%nat → (r < B)%nat → (s < B)%nat →
  NoDup b_out → NoDup b_in →
  Forall (λ i, (i < B)%nat) b_out → Forall (λ i, (i < B)%nat) b_in →
  length b_out = length count_out → length b_in = length count_in →
  r ≠ s → 0 < E →
  vertex_reassign_edge_count_updates (interblock_edge_count p) r s
    b_out count_out b_in count_in 0 = Some u →
  compute_new_block_degrees r s p (sumZ count_out) (sumZ count_in)
    (sumZ count_out + sumZ count_in) = Some [d_out_new; d_in_new; d_new] →
  update_partition p ni r s u d_out_new d_in_new d_new = Some p' →
  (∀ i j, 0 <= mget (interblock_edge_count p') i j) →
  ∃ S S' : R,
    compute_overall_entropy p N E = Some (Fin S)
    ∧ compute_overall_entropy p' N E = Some (Fin S')
    ∧ compute_delta_entropy r s p u d_out_new d_in_new = Some (Fin (S' - S)).
Proof.
  intros Hv Hni Hr Hs Hn1 Hn2 Hr1 Hr2 Hl1 Hl2 Hrs HE Hu Hds Hup Hnonneg.
  pose proof Hv as [Hnb Hwf Hlo Hli Hld _ Hvo Hvi Hvd Hvt].
  assert (degrees_consistent B E0 p) as Hcons.
  { split; [|done]. intros i Hi.
    split; [by apply Hvo|split; [by apply Hvi|by apply Hvd]]. }
  (* the three results, in closed form *)
  rewrite <- (mat_of_mget B _ Hwf) in Hu.
  rewrite (vertex_reassign_closed_form B _ r s b_out count_out b_in count_in 0)
    in Hu by done.
  pose proof Hu as Hu'.
  rewrite (vertex_move_closed_form B _ r s b_out count_out b_in count_in 0)
    in Hu' by done.
  injection Hu' as Hu'.
  rewrite (mat_of_mget B _ Hwf) in Hu.
  pose proof Hds as Hds'.
  rewrite (compute_new_block_degrees_closed_form B p r s) in Hds' by done.
  injection Hds' as Hd1 Hd2 Hd3.
  (* the partition that the move leaves keeps the invariants *)
  destruct (move_vertex_preserves_degrees B E0 p ni r s b_out count_out
              b_in count_in) as (p'' & Hmv & [Hcons' Htot']); try done.
  unfold move_vertex in Hmv. rewrite Hu in Hmv.
  cbn [mbind option_bind] in Hmv. rewrite Hds in Hmv.
  cbn [mbind option_bind] in Hmv. rewrite Hup in Hmv.
  injection Hmv as <-.
  pose proof Hup as Hup'. rewrite <- Hu' in Hup'.
  rewrite (update_partition_closed_form B (mget (interblock_edge_count p)))
    in Hup' by (done || by rewrite mat_of_mget).
  injection Hup' as Hp'.
  assert (valid_partition B E0 p') as Hv'.
  { split.
    - by rewrite <- Hp'.
    - rewrite <- Hp'. apply wf_mat_of.
    - rewrite <- Hp'. cbn. rewrite <- Hd1. apply length_vec_of.
    - rewrite <- Hp'. cbn. rewrite <- Hd2. apply length_vec_of.
    - rewrite <- Hp'. cbn. rewrite <- Hd3. apply length_vec_of.
    - done.
    - intros i Hi. by apply Hcons'.
    - intros i Hi. by apply Hcons'.
    - intros i Hi. by apply Hcons'.
    - done. }
  assert (block_degrees_out p' = d_out_new) as Ho by (by rewrite <- Hp').
  assert (block_degrees_in p' = d_in_new) as Hi by (by rewrite <- Hp').
  rewrite <- Ho, <- Hi.
  assert (0 < B)%nat as HB by lia.
  destruct (delta_entropy_value_difference B E0 E0 p p' r s u N E)
    as (Hshapes & Hfin & Hval); try done.
  7:{ eexists _, _.
      split; [exact (compute_overall_entropy_value B E0 p N E Hv HB HE)|].
      split; [exact (compute_overall_entropy_value B E0 p' N E Hv' HB HE)|].
      rewrite (compute_delta_entropy_value B r s p u _ _ Hshapes Hr Hs Hrs Hfin).
      rewrite Hval. do 2 f_equal. lra. }
  - rewrite <- Hp', <- Hu'. cbn [interblock_edge_count block_row].
    rewrite getrow_mat_of by done. f_equal. apply vec_of_ext. intros t Ht.
    unfold updated_entry, ind. repeat (case_decide; subst; try lia).
  - rewrite <- Hp', <- Hu'. cbn [interblock_edge_count proposal_row].
    rewrite getrow_mat_of by done. f_equal. apply vec_of_ext. intros t Ht.
    unfold updated_entry, ind. repeat (case_decide; subst; try lia).
  - rewrite <- Hp', <- Hu'. cbn [interblock_edge_count block_col].
    rewrite getcol_mat_of by done. f_equal. apply vec_of_ext. intros t Ht.
    unfold updated_entry, ind. repeat (case_decide; subst; try lia).
  - rewrite <- Hp', <- Hu'. cbn [interblock_edge_count proposal_col].
    rewrite getcol_mat_of by done. f_equal. apply vec_of_ext. intros t Ht.
    unfold updated_entry, ind. repeat (case_decide; subst; try lia).
  - intros i j Hi' Hj H1 H2 H3 H4. rewrite <- Hp'.
    cbn [interblock_edge_count]. rewrite mget_mat_of by done.
    unfold updated_entry. repeat (case_decide; subst; try lia); done.
  - intros t Ht H1 H2. rewrite Ho, Hi, <- Hd1, <- Hd2.
    rewrite !vget_vec_of by done. unfold ind.
    repeat (case_decide; subst; try lia).
Qed.

Lemma vertex_move_delta_entropy_exact_witness :
  ∃ S S' : R,
    compute_overall_entropy bridge_partition 2 1 = Some (Fin S)
    ∧ compute_overall_entropy bridge_moved_partition 2 1 = Some (Fin S')
    ∧ compute_delta_entropy 0 1 bridge_partition
        (mkEdgeCountUpdates [0; 0] [0; 1] [0; 0] [0; 1]) [0; 1] [0; 1]
      = Some (Fin (S' - S)).
Proof.
  apply (vertex_move_delta_entropy_exact 2 1 bridge_partition
           bridge_moved_partition 0 0 1 [1%nat] [1] [] []
           (mkEdgeCountUpdates [0; 0] [0; 1] [0; 0] [0; 1])
           [0; 1] [0; 1] [0; 2] 2 1).
  - exact bridge_partition_valid.
  - simpl. lia.
  - lia.
  - lia.
  - repeat constructor. rewrite elem_of_nil. tauto.
  - constructor.
  - repeat constructor.
  - constructor.
  - reflexivity.
  - reflexivity.
  - lia.
  - lia.
  - reflexivity.
  - reflexivity.
  - reflexivity.
  - intros [|[|i]] [|[|j]]; by vm_compute.
Defined.

(** * Carrying out the best merges *)

Section merge_loop.
Context (best_merge : list Z).

Lemma apply_merges_cons m ms a :
  apply_merges (m :: ms) a = apply_merges ms (replace_eq a (Z.of_nat m.1) m.2).
Proof. reflexivity. Qed.

(** The loop commits the first [n] merges of the scan, when the scan has
    that many. *)
Lemma merge_loop_trace n order :
  ∀ num bm asg,
  n - num <= Z.of_nat (length (valid_merges best_merge order bm)) →
  merge_loop best_merge n order num bm asg
  = Some (apply_merges
            (take (Z.to_nat (n - num)) (valid_merges best_merge order bm)) bm,
          apply_merges
            (take (Z.to_nat (n - num)) (valid_merges best_merge order bm)) asg).
Proof.
  induction order as [|a rest IH]; intros num bm asg Hlen.
  - cbn [valid_merges length] in *. cbn [merge_loop].
    rewrite decide_False by lia. by rewrite take_nil.
  - cbn [merge_loop]. destruct (decide (num < n)) as [Hlt|Hge].
    2:{ replace (Z.to_nat (n - num)) with 0%nat by lia. by rewrite take_0. }
    cbn [valid_merges] in *.
    destruct (b ← best_merge !! a; np_get bm b) as [c|] eqn:Hc.
    2:{ cbn [length] in Hlen. lia. }
    assert ((b ← best_merge !! a; mergeTo ← np_get bm b;
             if decide (mergeTo ≠ Z.of_nat a)
             then merge_loop best_merge n rest (num + 1)
                    (replace_eq bm (Z.of_nat a) mergeTo)
                    (replace_eq asg (Z.of_nat a) mergeTo)
             else merge_loop best_merge n rest num bm asg)
            = if decide (c ≠ Z.of_nat a)
              then merge_loop best_merge n rest (num + 1)
                     (replace_eq bm (Z.of_nat a) c)
                     (replace_eq asg (Z.of_nat a) c)
              else merge_loop best_merge n rest num bm asg) as ->.
    { destruct (best_merge !! a) as [b|]; [|done]. cbn [mbind option_bind] in *.
      by rewrite Hc. }
    destruct (decide (c ≠ Z.of_nat a)) as [Hne|Heq].
    + cbn [length] in Hlen. rewrite IH by lia.
      replace (Z.to_nat (n - num)) with (S (Z.to_nat (n - (num + 1)))) by lia.
      by rewrite firstn_cons, !apply_merges_cons.
    + by rewrite IH.
Qed.

Lemma elem_of_replace_eq v a x y :
  v ∈ replace_eq a x y ↔ (v = y ∧ x ∈ a) ∨ (v ≠ x ∧ v ∈ a).
Proof.
  unfold replace_eq. rewrite list_elem_of_fmap. split.
  - intros (w & -> & Hw). destruct (decide (w = x)) as [->|Hne]; eauto.
  - intros [[-> Hx]|[Hne Hv]].
    + exists x. by rewrite decide_True.
    + exists v. by rewrite decide_False.
Qed.

Lemma labels_replace_eq a x y :
  y ∈ labels a → y ≠ x → labels (replace_eq a x y) = labels a ∖ {[x]}.
Proof.
  intros Hy Hne. apply set_eq. intros v. unfold labels in *.
  rewrite elem_of_difference, !elem_of_list_to_set, elem_of_replace_eq,
    elem_of_singleton.
  rewrite elem_of_list_to_set in Hy. split.
  - intros [[-> ?]|[? ?]]; done.
  - intros [? ?]. by right.
Qed.

Lemma size_labels_replace_eq a x y :
  x ∈ labels a → y ∈ labels a → y ≠ x →
  (size (labels (replace_eq a x y)) + 1 = size (labels a))%nat.
Proof.
  intros Hx Hy Hne. rewrite labels_replace_eq by done.
  rewrite size_difference by (by apply singleton_subseteq_l).
  rewrite size_singleton.
  assert (size (labels a) ≠ 0%nat); [|lia].
  intros H0. apply size_empty_inv in H0. by rewrite H0 in Hx.
Qed.

Lemma np_get_lookup {A} (a : list A) i x :
  np_get a i = Some x → ∃ k, a !! k = Some x.
Proof.
  unfold np_get. destruct (np_index (length a) i) as [k|]; [|done].
  simpl. eauto.
Qed.

Lemma no_merge_invariant (asg : list Z) (order : list nat) :
  labels (apply_merges [] asg) ⊆ labels asg
  ∧ (size (labels (apply_merges [] asg)) + 0 = size (labels asg))%nat
  ∧ Forall (λ m : nat * Z, m.2 ≠ Z.of_nat m.1) []
  ∧ ([] : list (nat * Z)).*1 `sublist_of` order.
Proof.
  unfold apply_merges. cbn [foldl]. split; [done|]. split; [lia|].
  split; [constructor | apply sublist_nil_l].
Qed.

(** The invariant of the scan: the targets recorded in [block_map] and the
    blocks still to be scanned are labels in use.  Every committed merge
    then removes exactly one label. *)
Lemma valid_merges_invariant order :
  ∀ bm asg k,
  NoDup order →
  (∀ i v, bm !! i = Some v → v ∈ labels asg) →
  (∀ a, a ∈ order → Z.of_nat a ∈ labels asg) →
  (k <= length (valid_merges best_merge order bm))%nat →
  labels (apply_merges (take k (valid_merges best_merge order bm)) asg)
    ⊆ labels asg
  ∧ (size (labels (apply_merges
                     (take k (valid_merges best_merge order bm)) asg)) + k
     = size (labels asg))%nat
  ∧ Forall (λ m : nat * Z, m.2 ≠ Z.of_nat m.1)
      (take k (valid_merges best_merge order bm))
  ∧ (take k (valid_merges best_merge order bm)).*1 `sublist_of` order.
Proof.
  induction order as [|a rest IH]; intros bm asg k Hnd Himg Hrest Hk.
  - cbn [valid_merges length] in *. replace k with 0%nat by lia.
    rewrite take_0. apply no_merge_invariant.
  - apply NoDup_cons in Hnd as [Ha Hnd]. cbn [valid_merges] in *.
    destruct (b ← best_merge !! a; np_get bm b) as [c|] eqn:Hc.
    2:{ cbn [length] in Hk. replace k with 0%nat by lia.
        rewrite take_0. apply no_merge_invariant. }
    assert (c ∈ labels asg) as Hcin.
    { destruct (best_merge !! a) as [b|]; [|done]. cbn in Hc.
      apply np_get_lookup in Hc as [i Hi]. by eapply Himg. }
    destruct (decide (c ≠ Z.of_nat a)) as [Hne|Heq].
    + destruct k as [|k].
      { rewrite take_0. apply no_merge_invariant. }
      cbn [length] in Hk. rewrite firstn_cons, apply_merges_cons.
      cbn [fst snd].
      assert (Z.of_nat a ∈ labels asg) as Hain by (apply Hrest; by left).
      pose proof (labels_replace_eq asg (Z.of_nat a) c Hcin Hne) as Hlab.
      pose proof (size_labels_replace_eq asg (Z.of_nat a) c Hain Hcin Hne)
        as Hsize.
      destruct (IH (replace_eq bm (Z.of_nat a) c)
                  (replace_eq asg (Z.of_nat a) c) k Hnd)
        as (Hsub & Hsz & Hall & Hsl).
      * intros i v Hv.
        apply list_elem_of_lookup_2, elem_of_replace_eq in Hv.
        rewrite Hlab, elem_of_difference, elem_of_singleton.
        destruct Hv as [[-> _]|[Hvne Hv]]; [done|]. split; [|done].
        apply list_elem_of_lookup_1 in Hv as [j Hj]. by eapply Himg.
      * intros a' Ha'. rewrite Hlab, elem_of_difference, elem_of_singleton.
        split; [apply Hrest; by right|]. intros Heq.
        apply Nat2Z.inj in Heq. by subst.
      * lia.
      * split; [|split; [|split]].
        -- etrans; [exact Hsub|]. rewrite Hlab. apply subseteq_difference_l.
           done.
        -- lia.
        -- by constructor.
        -- cbn [fmap list_fmap fst]. by apply sublist_skip.
    + destruct (IH bm asg k Hnd Himg) as (Hsub & Hsz & Hall & Hsl).
      * intros a' Ha'. apply Hrest. by right.
      * done.
      * repeat split; try done. by apply sublist_cons.
Qed.

End merge_loop.

(** *** The renumbering *)

Lemma np_index_nonneg len i :
  0 <= i < Z.of_nat len → np_index len i = Some (Z.to_nat i).
Proof.
  intros H. unfold np_index. rewrite !decide_True by lia. done.
Qed.

Lemma np_uniqueZ_NoDup (l : list Z) : NoDup (np_uniqueZ l).
Proof.
  unfold np_uniqueZ. rewrite merge_sort_Permutation. apply NoDup_remove_dups.
Qed.

Lemma elem_of_np_uniqueZ (l : list Z) x : x ∈ np_uniqueZ l ↔ x ∈ l.
Proof.
  unfold np_uniqueZ. rewrite merge_sort_Permutation. apply elem_of_remove_dups.
Qed.

Lemma length_np_uniqueZ (l : list Z) : length (np_uniqueZ l) = size (labels l).
Proof.
  unfold np_uniqueZ, labels. rewrite merge_sort_Permutation.
  rewrite <- (size_list_to_set (C := gset Z) (remove_dups l))
    by apply NoDup_remove_dups.
  f_equal. apply set_eq. intros x.
  by rewrite !elem_of_list_to_set, elem_of_remove_dups.
Qed.

Lemma assign_ranks_spec (remaining : list Z) :
  ∀ (mapping : list Z) k,
  NoDup remaining →
  Forall (λ b, 0 <= b < Z.of_nat (length mapping)) remaining →
  ∃ mapping',
    assign_ranks mapping remaining k = Some mapping'
    ∧ length mapping' = length mapping
    ∧ (∀ j b, remaining !! j = Some b →
         mapping' !! Z.to_nat b = Some (k + Z.of_nat j))
    ∧ (∀ i, (∀ b, b ∈ remaining → Z.to_nat b ≠ i) →
         mapping' !! i = mapping !! i).
Proof.
  induction remaining as [|b rest IH]; intros mapping k Hnd Hrange.
  - exists mapping. repeat split; try done.
  - apply NoDup_cons in Hnd as [Hb Hnd].
    apply Forall_cons in Hrange as [Hb0 Hrange].
    cbn [assign_ranks]. unfold np_set. rewrite np_index_nonneg by done.
    cbn [mbind option_bind].
    destruct (IH (<[Z.to_nat b := k]> mapping) (k + 1) Hnd)
      as (m' & Hm' & Hlen & Hget & Hother).
    { by rewrite length_insert. }
    exists m'. split; [done|]. split; [by rewrite Hlen, length_insert|].
    split.
    + intros [|j] b' Hj.
      * injection Hj as <-. rewrite Z.add_0_r. rewrite Hother.
        { apply list_lookup_insert_eq. lia. }
        intros b' Hb' Heq.
        assert (0 <= b') by (apply (proj1 (Forall_forall _ _) Hrange _ Hb')).
        assert (b' = b) as -> by lia. done.
      * rewrite (Hget j b' Hj). f_equal. lia.
    + intros i Hi. rewrite Hother.
      * apply list_lookup_insert_ne. apply Hi. by left.
      * intros b' Hb'. apply Hi. by right.
Qed.

(** The new labels are the ranks of the old ones among the labels in use:
    they fill [0, number of labels in use). *)
Lemma compact_labels_spec (B : nat) (asg : list Z) :
  Forall (λ v, 0 <= v < Z.of_nat B) asg →
  ∃ res,
    compact_labels (Z.of_nat B) asg = Some res
    ∧ length res = length asg
    ∧ Forall (λ v, 0 <= v < Z.of_nat (size (labels asg))) res
    ∧ ∀ k, (k < size (labels asg))%nat → Z.of_nat k ∈ res.
Proof.
  intros Hrange. unfold compact_labels. cbv zeta. rewrite Nat2Z.id.
  pose proof (np_uniqueZ_NoDup asg) as Hnd.
  destruct (assign_ranks_spec (np_uniqueZ asg) (replicate B (-1)) 0 Hnd)
    as (m & Hm & Hlen & Hget & _).
  { apply Forall_forall. intros b Hb.
    apply (proj1 (elem_of_np_uniqueZ _ _)) in Hb.
    rewrite length_replicate.
    exact (proj1 (Forall_forall _ _) Hrange b Hb). }
  rewrite length_replicate in Hlen.
  rewrite Hm. cbn [mbind option_bind].
  assert (∀ v, v ∈ asg → ∃ j, np_uniqueZ asg !! j = Some v
                         ∧ np_get m v = Some (Z.of_nat j)) as Hrank.
  { intros v Hv. pose proof Hv as Hv'.
    apply (proj2 (elem_of_np_uniqueZ _ _)), list_elem_of_lookup_1 in Hv'
      as [j Hj].
    exists j. split; [done|].
    pose proof (proj1 (Forall_forall _ _) Hrange _ Hv) as Hv0. simpl in Hv0.
    unfold np_get. rewrite Hlen, np_index_nonneg by done.
    cbn [mbind option_bind]. by rewrite (Hget j v Hj). }
  exists ((λ v, default 0 (np_get m v)) <$> asg).
  split; [|split; [|split]].
  - apply mapM_total. intros v Hv. destruct (Hrank v Hv) as (j & _ & ->). done.
  - by rewrite length_fmap.
  - apply Forall_fmap, Forall_forall. intros v Hv. simpl.
    destruct (Hrank v Hv) as (j & Hj & ->). simpl.
    apply lookup_lt_Some in Hj. rewrite length_np_uniqueZ in Hj. lia.
  - intros k Hk. rewrite <- length_np_uniqueZ in Hk.
    destruct (lookup_lt_is_Some_2 _ _ Hk) as [b Hb].
    assert (b ∈ asg) as Hin.
    { apply (proj1 (elem_of_np_uniqueZ _ _)).
      by eapply list_elem_of_lookup_2. }
    apply list_elem_of_fmap. exists b. split; [|done].
    destruct (Hrank b Hin) as (j & Hj & ->). simpl.
    by rewrite (NoDup_lookup _ _ _ _ Hnd Hb Hj).
Qed.

Lemma StronglySorted_sublist {X} (R : X → X → Prop) (l1 l2 : list X) :
  l1 `sublist_of` l2 → StronglySorted R l2 → StronglySorted R l1.
Proof.
  induction 1 as [|x l1 l2 Hsub IH|x l1 l2 Hsub IH]; intros Hs.
  - constructor.
  - apply StronglySorted_inv in Hs as [Hs Hall]. constructor; [by apply IH|].
    apply Forall_forall. intros y Hy.
    apply (proj1 (Forall_forall _ _) Hall). by apply (sublist_subseteq _ _ Hsub).
  - apply StronglySorted_inv in Hs as [Hs _]. by apply IH.
Qed.

Lemma labels_all_blocks (B : nat) (asg : list Z) :
  Forall (λ v, 0 <= v < Z.of_nat B) asg →
  (∀ b, (b < B)%nat → Z.of_nat b ∈ asg) →
  size (labels asg) = B.
Proof.
  intros Hrange Hall.
  assert (labels asg = list_to_set (np_arange B)) as ->.
  { apply set_eq. intros v. unfold labels, np_arange.
    rewrite !elem_of_list_to_set, list_elem_of_fmap. split.
    - intros Hv. pose proof (proj1 (Forall_forall _ _) Hrange _ Hv) as H0.
      simpl in H0. exists (Z.to_nat v). split; [lia|]. apply elem_of_seq. lia.
    - intros (b & -> & Hb%elem_of_seq). apply Hall. lia. }
  rewrite size_list_to_set.
  - unfold np_arange. by rewrite length_fmap, length_seq.
  - unfold np_arange. apply NoDup_fmap_2; [apply _ | apply NoDup_seq].
Qed.

(** C4.  Let every block label in [0, B) be in use and let the scan of the
    blocks in ascending order of their change of entropy admit at least
    [num_blocks_to_merge] merges.  Then [carry_out_best_merges] returns a
    partition with [B - num_blocks_to_merge] blocks; its assignment is the
    renumbering of the assignment after the committed merges, every entry
    lies in [0, B - num_blocks_to_merge) and every such label is in use; the
    committed merges are the first [num_blocks_to_merge] merges of the scan:
    their sources follow the order of [argsort], so that the changes of
    entropy do not decrease along them, and a block whose target resolved
    through [block_map] is the block itself is skipped. *)
Theorem carry_out_best_merges_spec
    {T} (le : T → T → Prop) (argsort : list T → list nat)
    (delta : list T) (best_merge : list Z) (p : Partition) (B : nat) :
  num_blocks p = Z.of_nat B →
  0 <= num_blocks_to_merge p →
  is_argsort le delta (argsort delta) → length delta = B →
  Forall (λ v, 0 <= v < Z.of_nat B) (block_assignment p) →
  (∀ b, (b < B)%nat → Z.of_nat b ∈ block_assignment p) →
  num_blocks_to_merge p
  <= Z.of_nat (length (valid_merges best_merge (argsort delta) (np_arange B))) →
  let n := num_blocks_to_merge p in
  let committed :=
    take (Z.to_nat n) (valid_merges best_merge (argsort delta) (np_arange B)) in
  ∃ p',
    carry_out_best_merges argsort delta best_merge p = Some p'
    ∧ num_blocks p' = Z.of_nat B - n
    ∧ length (block_assignment p') = length (block_assignment p)
    ∧ Forall (λ v, 0 <= v < Z.of_nat B - n) (block_assignment p')
    ∧ (∀ k, 0 <= k < Z.of_nat B - n → k ∈ block_assignment p')
    ∧ compact_labels (Z.of_nat B)
        (apply_merges committed (block_assignment p))
      = Some (block_assignment p')
    ∧ length committed = Z.to_nat n
    ∧ committed.*1 `sublist_of` argsort delta
    ∧ StronglySorted
        (λ i j, ∀ x y, delta !! i = Some x → delta !! j = Some y → le x y)
        committed.*1
    ∧ Forall (λ m : nat * Z, m.2 ≠ Z.of_nat m.1) committed.
Proof.
  intros HB Hn0 (Hnd & Hpos & Hsorted) Hlen Hrange Hall Hadm n committed.
  set (asg := block_assignment p) in *.
  set (scan := valid_merges best_merge (argsort delta) (np_arange B)) in *.
  destruct (valid_merges_invariant best_merge (argsort delta) (np_arange B)
              asg (Z.to_nat n) Hnd) as (Hsub & Hsize & Hne & Hsl).
  { intros i v Hv. unfold np_arange in Hv.
    apply list_lookup_fmap_Some in Hv as (b & -> & Hb).
    apply lookup_seq in Hb as [-> Hb]. unfold labels.
    apply elem_of_list_to_set. by apply Hall. }
  { intros a Ha. unfold labels. apply elem_of_list_to_set, Hall.
    pose proof (proj1 (Forall_forall _ _) Hpos _ Ha) as Hlt. simpl in Hlt.
    lia. }
  { fold scan. unfold n. lia. }
  fold scan committed in Hsub, Hsize, Hne, Hsl.
  rewrite (labels_all_blocks B asg Hrange Hall) in Hsize.
  assert (Forall (λ v, 0 <= v < Z.of_nat B) (apply_merges committed asg))
    as Hrange'.
  { apply Forall_forall. intros v Hv.
    apply (proj1 (Forall_forall _ _) Hrange).
    assert (v ∈ labels (apply_merges committed asg)) as Hv'
      by (by apply elem_of_list_to_set).
    apply Hsub in Hv'. by apply elem_of_list_to_set in Hv'. }
  destruct (compact_labels_spec B _ Hrange')
    as (res & Hres & Hlres & Hbound & Hsurj).
  assert (Z.of_nat (size (labels (apply_merges committed asg)))
          = Z.of_nat B - n) as Hcount by (unfold n in *; lia).
  eexists. split.
  { unfold carry_out_best_merges. cbv zeta. rewrite HB, Nat2Z.id.
    rewrite merge_loop_trace by (rewrite Z.sub_0_r; exact Hadm).
    cbn [mbind option_bind snd]. rewrite Z.sub_0_r.
    fold scan. fold n. fold committed. fold asg. rewrite Hres.
    reflexivity. }
  cbn [num_blocks block_assignment].
  split; [done|].
  split.
  { rewrite Hlres. unfold apply_merges. clear.
    generalize asg. induction committed as [|m ms IH]; intros a; [done|].
    cbn [foldl]. rewrite IH. unfold replace_eq. by rewrite length_fmap. }
  split; [by rewrite <- Hcount|].
  split.
  { intros k Hk. replace k with (Z.of_nat (Z.to_nat k)) by lia.
    apply Hsurj. lia. }
  split; [done|].
  split; [apply length_take_le; fold scan; unfold n; lia|].
  split; [done|].
  split; [by eapply StronglySorted_sublist|done].
Qed.

Lemma carry_out_best_merges_spec_witness :
  ∃ p',
    carry_out_best_merges argsortZ [3; 1; 2; 4] [1; 2; 1; 0] four_block_partition
    = Some p'
    ∧ num_blocks p' = 2
    ∧ block_assignment p' = [0; 0; 0; 1; 0; 0]
    ∧ take 2 (valid_merges [1; 2; 1; 0] (argsortZ [3; 1; 2; 4]) (np_arange 4))
      = [(1%nat, 2); (0%nat, 2)].
Proof.
  destruct (carry_out_best_merges_spec Z.le argsortZ [3; 1; 2; 4] [1; 2; 1; 0]
              four_block_partition 4)
    as (p' & Hrun & Hnum & _ & _ & _ & Hasg & _).
  - reflexivity.
  - simpl. lia.
  - assert (argsortZ [3; 1; 2; 4] = [1; 2; 0; 3]%nat) as -> by reflexivity.
    split; [|split].
    + repeat constructor; rewrite ?elem_of_cons, ?elem_of_nil; lia.
    + repeat constructor; simpl; lia.
    + repeat constructor; intros x y Hx Hy; cbv in Hx, Hy;
        injection Hx as <-; injection Hy as <-; lia.
  - reflexivity.
  - repeat constructor; simpl; lia.
  - intros b Hb. simpl.
    destruct b as [|[|[|[|b]]]]; [| | | |lia];
      rewrite !elem_of_cons; simpl; auto.
  - vm_compute. discriminate.
  - exists p'. split; [exact Hrun|]. split; [exact Hnum|].
    split; [|reflexivity]. apply (inj Some). rewrite <- Hasg. reflexivity.
Defined.

(** * More on carrying out the merges *)

Lemma merge_loop_too_few (best_merge : list Z) n order :
  ∀ num bm asg,
  Z.of_nat (length (valid_merges best_merge order bm)) < n - num →
  merge_loop best_merge n order num bm asg = None.
Proof.
  induction order as [|a order IH]; intros num bm asg Hlt; cbn [merge_loop].
  - cbn [valid_merges length] in Hlt. rewrite decide_True by lia. done.
  - assert (num < n) as Hnum by lia. rewrite decide_True by done.
    cbn [valid_merges] in Hlt.
    destruct (best_merge !! a) as [b|]; cbn [mbind option_bind] in *; [|done].
    destruct (np_get bm b) as [mergeTo|]; cbn [mbind option_bind] in *; [|done].
    destruct (decide (mergeTo ≠ Z.of_nat a)) as [Hne|Heq].
    + apply IH. cbn [length] in Hlt. lia.
    + by apply IH.
Qed.

(** X7. When the scan of all the blocks admits fewer merges than
    [num_blocks_to_merge], the loop of [carry_out_best_merges] does not stop
    at the end of [bestMerges]: reading past it raises, and no partition is
    returned. *)
Theorem carry_out_best_merges_too_few_merges
    {T} (argsort : list T → list nat) (delta : list T) (best_merge : list Z)
    (p : Partition) :
  Z.of_nat (length (valid_merges best_merge (argsort delta)
                      (np_arange (Z.to_nat (num_blocks p)))))
  < num_blocks_to_merge p →
  carry_out_best_merges argsort delta best_merge p = None.
Proof.
  intros Hlt. unfold carry_out_best_merges. cbv zeta.
  rewrite merge_loop_too_few by lia. done.
Qed.

Lemma carry_out_best_merges_too_few_merges_witness :
  carry_out_best_merges argsortZ [3; 1; 2; 4] [0; 1; 2; 3]
    four_block_partition = None.
Proof.
  apply carry_out_best_merges_too_few_merges. vm_compute. reflexivity.
Defined.

Lemma apply_merges_pointwise (merges : list (nat * Z)) :
  ∃ f : Z → Z, ∀ a, apply_merges merges a = f <$> a.
Proof.
  induction merges as [|m ms IH].
  - exists (λ v, v). intros a. unfold apply_merges. cbn [foldl].
    symmetry. apply (list_fmap_id a).
  - destruct IH as [f Hf].
    exists (f ∘ (λ v, if decide (v = Z.of_nat m.1) then m.2 else v)).
    intros a. rewrite apply_merges_cons, Hf. unfold replace_eq.
    by rewrite <- list_fmap_compose.
Qed.

Lemma merge_loop_pointwise (best_merge : list Z) n order :
  ∀ num bm asg bm' asg',
  merge_loop best_merge n order num bm asg = Some (bm', asg') →
  ∃ f : Z → Z, asg' = f <$> asg.
Proof.
  induction order as [|a order IH]; intros num bm asg bm' asg';
    cbn [merge_loop].
  - case_decide; [done|]. intros [= _ <-]. exists (λ v, v).
    symmetry. apply (list_fmap_id asg).
  - case_decide;
      [|intros [= _ <-]; exists (λ v, v); symmetry; apply (list_fmap_id asg)].
    destruct (best_merge !! a) as [b|]; cbn [mbind option_bind]; [|done].
    destruct (np_get bm b) as [mergeTo|]; cbn [mbind option_bind]; [|done].
    case_decide.
    + intros Hrun. apply IH in Hrun as [f ->].
      exists (f ∘ (λ v, if decide (v = Z.of_nat a) then mergeTo else v)).
      unfold replace_eq. by rewrite <- list_fmap_compose.
    + apply IH.
Qed.

Lemma mapM_pointwise {A C} (g : A → option C) (l : list A) (res : list C)
    i j x :
  mapM g l = Some res → l !! i = Some x → l !! j = Some x →
  res !! i = res !! j.
Proof.
  intros Hm%mapM_Some_1 Hi Hj.
  destruct (Forall2_lookup_l _ _ _ _ _ Hm Hi) as (x' & Hi' & Hgi).
  destruct (Forall2_lookup_l _ _ _ _ _ Hm Hj) as (y' & Hj' & Hgj).
  rewrite Hi', Hj'. congruence.
Qed.

(** X8. Merging only coarsens the partition: two vertices that are in the same
    block before [carry_out_best_merges] are in the same block after it. *)
Theorem carry_out_best_merges_coarsens
    {T} (argsort : list T → list nat) (delta : list T) (best_merge : list Z)
    (p p' : Partition) (i j : nat) (x : Z) :
  carry_out_best_merges argsort delta best_merge p = Some p' →
  block_assignment p !! i = Some x →
  block_assignment p !! j = Some x →
  block_assignment p' !! i = block_assignment p' !! j.
Proof.
  unfold carry_out_best_merges. cbv zeta. intros Hrun Hi Hj.
  destruct (merge_loop best_merge (num_blocks_to_merge p) (argsort delta) 0
              (np_arange (Z.to_nat (num_blocks p))) (block_assignment p))
    as [[bm asg]|] eqn:Hloop; cbn [mbind option_bind snd] in Hrun; [|done].
  destruct (compact_labels (num_blocks p) asg) as [res|] eqn:Hres;
    cbn [mbind option_bind] in Hrun; [|done].
  injection Hrun as <-. cbn [block_assignment].
  apply merge_loop_pointwise in Hloop as [f ->].
  unfold compact_labels in Hres. cbv zeta in Hres.
  destruct (assign_ranks _ _ _) as [m|]; cbn [mbind option_bind] in Hres;
    [|done].
  apply (mapM_pointwise _ _ _ i j (f x) Hres);
    rewrite list_lookup_fmap; [by rewrite Hi|by rewrite Hj].
Qed.

Lemma carry_out_best_merges_coarsens_witness :
  ∃ p',
    carry_out_best_merges argsortZ [3; 1; 2; 4] [1; 2; 1; 0]
      four_block_partition = Some p'
    ∧ block_assignment p' !! 1%nat = block_assignment p' !! 4%nat.
Proof.
  eexists. split; [reflexivity|].
  eapply (carry_out_best_merges_coarsens argsortZ [3; 1; 2; 4] [1; 2; 1; 0]
            four_block_partition _ 1 4 1); reflexivity.
Defined.

Lemma np_uniqueZ_sorted (l : list Z) : StronglySorted Z.le (np_uniqueZ l).
Proof.
  unfold np_uniqueZ. apply Sorted_StronglySorted; [apply _|].
  apply Sorted_merge_sort. apply _.
Qed.

Lemma sorted_lookup_lt (l : list Z) :
  StronglySorted Z.le l → NoDup l →
  ∀ i j x y, l !! i = Some x → l !! j = Some y → (i < j)%nat → x < y.
Proof.
  induction 1 as [|a l Hs IH Hall]; intros Hnd i j x y Hi Hj Hij; [done|].
  apply NoDup_cons in Hnd as [Hnotin Hnd].
  destruct j as [|j]; [lia|]. cbn in Hj.
  destruct i as [|i].
  - injection Hi as <-.
    pose proof (list_elem_of_lookup_2 _ _ _ Hj) as Hy.
    pose proof (proj1 (Forall_forall _ _) Hall _ Hy) as Hle.
    assert (a ≠ y) by (intros ->; done). lia.
  - cbn in Hi. apply (IH Hnd i j); [done|done|lia].
Qed.

Lemma sorted_lookup_iff (l : list Z) i j x y :
  StronglySorted Z.le l → NoDup l →
  l !! i = Some x → l !! j = Some y → (x < y ↔ (i < j)%nat).
Proof.
  intros Hs Hnd Hi Hj. split.
  - intros Hxy. destruct (lt_eq_lt_dec i j) as [[Hlt|Heq]|Hgt]; [done| |].
    + subst j. rewrite Hi in Hj. injection Hj as <-. lia.
    + pose proof (sorted_lookup_lt l Hs Hnd j i y x Hj Hi Hgt). lia.
  - by apply (sorted_lookup_lt l Hs Hnd).
Qed.

(** The renumbering gives every label its rank among the labels in use. *)
Lemma compact_labels_rank (B : nat) (asg : list Z) :
  Forall (λ v, 0 <= v < Z.of_nat B) asg →
  ∃ res,
    compact_labels (Z.of_nat B) asg = Some res
    ∧ ∀ i x, asg !! i = Some x →
        ∃ k, np_uniqueZ asg !! k = Some x ∧ res !! i = Some (Z.of_nat k).
Proof.
  intros Hrange. unfold compact_labels. cbv zeta. rewrite Nat2Z.id.
  pose proof (np_uniqueZ_NoDup asg) as Hnd.
  destruct (assign_ranks_spec (np_uniqueZ asg) (replicate B (-1)) 0 Hnd)
    as (m & Hm & Hlen & Hget & _).
  { apply Forall_forall. intros b Hb.
    apply (proj1 (elem_of_np_uniqueZ _ _)) in Hb.
    rewrite length_replicate.
    exact (proj1 (Forall_forall _ _) Hrange b Hb). }
  rewrite length_replicate in Hlen.
  rewrite Hm. cbn [mbind option_bind].
  assert (∀ v, v ∈ asg → ∃ k, np_uniqueZ asg !! k = Some v
                         ∧ np_get m v = Some (Z.of_nat k)) as Hrank.
  { intros v Hv. pose proof Hv as Hv'.
    apply (proj2 (elem_of_np_uniqueZ _ _)), list_elem_of_lookup_1 in Hv'
      as [k Hk].
    exists k. split; [done|].
    pose proof (proj1 (Forall_forall _ _) Hrange _ Hv) as Hv0. simpl in Hv0.
    unfold np_get. rewrite Hlen, np_index_nonneg by done.
    cbn [mbind option_bind]. by rewrite (Hget k v Hk). }
  exists ((λ v, default 0 (np_get m v)) <$> asg). split.
  - apply mapM_total. intros v Hv. destruct (Hrank v Hv) as (k & _ & ->). done.
  - intros i x Hi.
    destruct (Hrank x (list_elem_of_lookup_2 _ _ _ Hi)) as (k & Hk & Hg).
    exists k. split; [done|]. by rewrite list_lookup_fmap, Hi; cbn; rewrite Hg.
Qed.

Lemma merged_labels_in_range (best_merge : list Z) (order : list nat)
    (B : nat) (asg : list Z) (k : nat) :
  NoDup order → Forall (λ i, (i < B)%nat) order →
  Forall (λ v, 0 <= v < Z.of_nat B) asg →
  (∀ b, (b < B)%nat → Z.of_nat b ∈ asg) →
  (k <= length (valid_merges best_merge order (np_arange B)))%nat →
  Forall (λ v, 0 <= v < Z.of_nat B)
    (apply_merges (take k (valid_merges best_merge order (np_arange B))) asg).
Proof.
  intros Hnd Hpos Hrange Hall Hk.
  destruct (valid_merges_invariant best_merge order (np_arange B) asg k Hnd)
    as (Hsub & _).
  { intros i v Hv. unfold np_arange in Hv.
    apply list_lookup_fmap_Some in Hv as (b & -> & Hb).
    apply lookup_seq in Hb as [-> Hb]. unfold labels.
    apply elem_of_list_to_set. by apply Hall. }
  { intros a Ha. unfold labels. apply elem_of_list_to_set, Hall.
    exact (proj1 (Forall_forall _ _) Hpos _ Ha). }
  { done. }
  apply Forall_forall. intros v Hv.
  apply (proj1 (Forall_forall _ _) Hrange).
  assert (v ∈ labels (apply_merges
            (take k (valid_merges best_merge order (np_arange B))) asg))
    as Hv' by (by apply elem_of_list_to_set).
  apply Hsub in Hv'. by apply elem_of_list_to_set in Hv'.
Qed.

(** X9. The renumbering at the end of [carry_out_best_merges] keeps the order of
    the surviving labels: of two vertices, the one with the smaller label
    after the committed merges has the smaller label in the result, so that
    vertices in different blocks after the merges stay in different blocks. *)
Theorem carry_out_best_merges_renumbering_monotone
    {T} (argsort : list T → list nat) (delta : list T) (best_merge : list Z)
    (p : Partition) (B : nat) :
  num_blocks p = Z.of_nat B →
  0 <= num_blocks_to_merge p →
  NoDup (argsort delta) → Forall (λ i, (i < B)%nat) (argsort delta) →
  Forall (λ v, 0 <= v < Z.of_nat B) (block_assignment p) →
  (∀ b, (b < B)%nat → Z.of_nat b ∈ block_assignment p) →
  num_blocks_to_merge p
  <= Z.of_nat (length (valid_merges best_merge (argsort delta) (np_arange B))) →
  let merged :=
    apply_merges
      (take (Z.to_nat (num_blocks_to_merge p))
         (valid_merges best_merge (argsort delta) (np_arange B)))
      (block_assignment p) in
  ∃ p',
    carry_out_best_merges argsort delta best_merge p = Some p'
    ∧ ∀ i j x y x' y',
        merged !! i = Some x → merged !! j = Some y →
        block_assignment p' !! i = Some x' →
        block_assignment p' !! j = Some y' →
        (x < y ↔ x' < y') ∧ (x = y ↔ x' = y').
Proof.
  intros HB Hn0 Hnd Hpos Hrange Hall Hadm merged.
  assert (Forall (λ v, 0 <= v < Z.of_nat B) merged) as Hrange'.
  { apply merged_labels_in_range; try done. lia. }
  destruct (compact_labels_rank B merged Hrange') as (res & Hres & Hrank).
  eexists. split.
  { unfold carry_out_best_merges. cbv zeta. rewrite HB, Nat2Z.id.
    rewrite merge_loop_trace by (rewrite Z.sub_0_r; exact Hadm).
    cbn [mbind option_bind snd]. rewrite Z.sub_0_r.
    fold merged. rewrite Hres. reflexivity. }
  cbn [block_assignment]. intros i j x y x' y' Hi Hj Hi' Hj'.
  destruct (Hrank i x Hi) as (ki & Hki & Hri).
  destruct (Hrank j y Hj) as (kj & Hkj & Hrj).
  rewrite Hri in Hi'. rewrite Hrj in Hj'.
  injection Hi' as <-. injection Hj' as <-.
  pose proof (sorted_lookup_iff _ ki kj x y (np_uniqueZ_sorted merged)
                (np_uniqueZ_NoDup merged) Hki Hkj) as Hlt.
  split; [rewrite Hlt; lia|]. split.
  - intros ->.
    by rewrite (NoDup_lookup _ _ _ _ (np_uniqueZ_NoDup merged) Hki Hkj).
  - intros Heq. assert (ki = kj) as -> by lia. congruence.
Qed.

Lemma carry_out_best_merges_renumbering_monotone_witness :
  ∃ p',
    carry_out_best_merges argsortZ [3; 1; 2; 4] [1; 2; 1; 0]
      four_block_partition = Some p'
    ∧ block_assignment p' = [0; 0; 0; 1; 0; 0].
Proof.
  destruct (carry_out_best_merges_renumbering_monotone argsortZ [3; 1; 2; 4]
              [1; 2; 1; 0] four_block_partition 4)
    as (p' & Hrun & _).
  - reflexivity.
  - simpl. lia.
  - assert (argsortZ [3; 1; 2; 4] = [1; 2; 0; 3]%nat) as -> by reflexivity.
    repeat constructor; rewrite ?elem_of_cons, ?elem_of_nil; lia.
  - assert (argsortZ [3; 1; 2; 4] = [1; 2; 0; 3]%nat) as -> by reflexivity.
    repeat constructor; simpl; lia.
  - repeat constructor; simpl; lia.
  - intros b Hb. simpl.
    destruct b as [|[|[|[|b]]]]; [| | | |lia];
      rewrite !elem_of_cons; simpl; auto.
  - vm_compute. discriminate.
  - exists p'. split; [exact Hrun|].
    vm_compute in Hrun. injection Hrun as <-. reflexivity.
Defined.

Lemma np_uniqueZ_all_blocks (B : nat) (asg : list Z) :
  Forall (λ v, 0 <= v < Z.of_nat B) asg →
  (∀ b, (b < B)%nat → Z.of_nat b ∈ asg) →
  np_uniqueZ asg = np_arange B.
Proof.
  intros Hrange Hall.
  assert (NoDup (np_arange B)) as Hnd.
  { unfold np_arange. apply NoDup_fmap_2; [apply _|apply NoDup_seq]. }
  apply (StronglySorted_unique Z.le).
  - apply np_uniqueZ_sorted.
  - unfold np_arange. apply (StronglySorted_fmap _ le).
    + intros a b Hab. lia.
    + clear. generalize 0%nat. induction B as [|B IH]; intros k; cbn.
      * constructor.
      * constructor; [apply IH|]. apply Forall_forall.
        intros x Hx%elem_of_seq. lia.
  - apply NoDup_Permutation; [apply np_uniqueZ_NoDup|done|].
    intros v. rewrite elem_of_np_uniqueZ. unfold np_arange.
    rewrite list_elem_of_fmap. split.
    + intros Hv. pose proof (proj1 (Forall_forall _ _) Hrange _ Hv) as H0.
      simpl in H0. exists (Z.to_nat v). split; [lia|]. apply elem_of_seq. lia.
    + intros (b & -> & Hb%elem_of_seq). apply Hall. lia.
Qed.

(** X10. With nothing to merge and every label in [0, B) in use,
    [carry_out_best_merges] returns the partition as it is: the renumbering
    maps every label to itself. *)
Theorem carry_out_best_merges_nothing_to_merge
    {T} (argsort : list T → list nat) (delta : list T) (best_merge : list Z)
    (p : Partition) (B : nat) :
  num_blocks p = Z.of_nat B →
  num_blocks_to_merge p = 0 →
  Forall (λ v, 0 <= v < Z.of_nat B) (block_assignment p) →
  (∀ b, (b < B)%nat → Z.of_nat b ∈ block_assignment p) →
  carry_out_best_merges argsort delta best_merge p = Some p.
Proof.
  intros HB Hn Hrange Hall.
  destruct (compact_labels_rank B _ Hrange) as (res & Hres & Hrank).
  destruct (compact_labels_spec B _ Hrange) as (res' & Hres' & Hlen & _).
  assert (res' = res) as -> by congruence.
  assert (res = block_assignment p) as ->.
  { apply list_eq. intros i.
    destruct (block_assignment p !! i) as [x|] eqn:Hi.
    - destruct (Hrank i x Hi) as (k & Hk & ->).
      rewrite (np_uniqueZ_all_blocks B _ Hrange Hall) in Hk.
      unfold np_arange in Hk.
      apply list_lookup_fmap_Some in Hk as (b & -> & Hb).
      apply lookup_seq in Hb as [-> _]. done.
    - apply lookup_ge_None. apply lookup_ge_None in Hi. lia. }
  unfold carry_out_best_merges. cbv zeta. rewrite Hn.
  assert (merge_loop best_merge 0 (argsort delta) 0
            (np_arange (Z.to_nat (num_blocks p))) (block_assignment p)
          = Some (np_arange (Z.to_nat (num_blocks p)), block_assignment p))
    as ->.
  { destruct (argsort delta); cbn [merge_loop]; by rewrite decide_False by lia. }
  cbn [mbind option_bind snd]. rewrite HB, Hres. cbn [mbind option_bind].
  rewrite <- HB, Z.sub_0_r, <- Hn. by destruct p.
Qed.

Lemma carry_out_best_merges_nothing_to_merge_witness :
  carry_out_best_merges argsortZ [3; 1; 2; 4] [1; 2; 1; 0]
    (set_num_blocks_to_merge four_block_partition 0)
  = Some (set_num_blocks_to_merge four_block_partition 0).
Proof.
  apply (carry_out_best_merges_nothing_to_merge _ _ _ _ 4).
  - reflexivity.
  - reflexivity.
  - repeat constructor; simpl; lia.
  - intros b Hb. simpl.
    destruct b as [|[|[|[|b]]]]; [| | | |lia];
      rewrite !elem_of_cons; simpl; auto.
Defined.

Lemma np_get_arange_last (B : nat) :
  (0 < B)%nat → np_get (np_arange B) (-1) = Some (Z.of_nat B - 1).
Proof.
  intros HB. unfold np_get, np_index, np_arange.
  rewrite length_fmap, length_seq.
  rewrite decide_False by lia. rewrite decide_True by lia.
  cbn [mbind option_bind]. rewrite list_lookup_fmap.
  rewrite (lookup_seq_lt 0 B) by lia. cbn. f_equal. lia.
Qed.

(** X11. [-1], the entry of [best_merge_for_each_block] of a block without an
    accepted proposal, is not a mark that [carry_out_best_merges] looks for:
    as an index into [block_map] it is the last position.  When such a block
    [a], not the last one, is the first in the order and one merge is asked
    for, the vertices of [a] end in the block of the vertices of the last
    block. *)
Theorem carry_out_best_merges_no_proposal_joins_last
    {T} (argsort : list T → list nat) (delta : list T) (best_merge : list Z)
    (p : Partition) (B a : nat) (rest : list nat) :
  num_blocks p = Z.of_nat B →
  num_blocks_to_merge p = 1 →
  argsort delta = a :: rest →
  best_merge !! a = Some (-1) →
  (S a < B)%nat →
  Forall (λ v, 0 <= v < Z.of_nat B) (block_assignment p) →
  ∃ p',
    carry_out_best_merges argsort delta best_merge p = Some p'
    ∧ ∀ i j,
        block_assignment p !! i = Some (Z.of_nat a) →
        block_assignment p !! j = Some (Z.of_nat B - 1) →
        block_assignment p' !! i = block_assignment p' !! j.
Proof.
  intros HB Hn Hord Hbest Ha Hrange.
  set (asg := replace_eq (block_assignment p) (Z.of_nat a) (Z.of_nat B - 1)).
  assert (Forall (λ v, 0 <= v < Z.of_nat B) asg) as Hrange'.
  { unfold asg, replace_eq. apply Forall_fmap, Forall_forall. intros v Hv.
    simpl. pose proof (proj1 (Forall_forall _ _) Hrange _ Hv) as Hv0.
    simpl in Hv0. case_decide; lia. }
  destruct (compact_labels_spec B asg Hrange') as (res & Hres & _).
  assert (merge_loop best_merge 1 (a :: rest) 0 (np_arange B)
            (block_assignment p)
          = Some (replace_eq (np_arange B) (Z.of_nat a) (Z.of_nat B - 1), asg))
    as Hloop.
  { cbn [merge_loop]. rewrite decide_True by lia. rewrite Hbest.
    cbn [mbind option_bind]. rewrite np_get_arange_last by lia.
    cbn [mbind option_bind]. rewrite decide_True by lia.
    destruct rest; cbn [merge_loop]; by rewrite decide_False by lia. }
  eexists. split.
  { unfold carry_out_best_merges. cbv zeta.
    rewrite Hord, Hn, HB, Nat2Z.id, Hloop.
    cbn [mbind option_bind snd]. rewrite Hres. reflexivity. }
  cbn [block_assignment]. intros i j Hi Hj.
  unfold compact_labels in Hres. cbv zeta in Hres.
  destruct (assign_ranks _ _ _) as [m|]; cbn [mbind option_bind] in Hres;
    [|done].
  apply (mapM_pointwise _ _ _ i j (Z.of_nat B - 1) Hres);
    unfold asg, replace_eq; rewrite list_lookup_fmap.
  - rewrite Hi. cbn. by rewrite decide_True.
  - rewrite Hj. cbn. by rewrite decide_False by lia.
Qed.

Lemma carry_out_best_merges_no_proposal_joins_last_witness :
  ∃ p',
    carry_out_best_merges argsortZ [3; 1; 2; 4] [1; -1; 1; 0]
      (set_num_blocks_to_merge four_block_partition 1) = Some p'
    ∧ block_assignment p' = [0; 2; 1; 2; 2; 0].
Proof.
  destruct (carry_out_best_merges_no_proposal_joins_last argsortZ [3; 1; 2; 4]
              [1; -1; 1; 0] (set_num_blocks_to_merge four_block_partition 1)
              4 1 [2; 0; 3]%nat)
    as (p' & Hrun & _).
  - reflexivity.
  - reflexivity.
  - reflexivity.
  - reflexivity.
  - lia.
  - repeat constructor; simpl; lia.
  - exists p'. split; [exact Hrun|].
    vm_compute in Hrun. injection Hrun as <-. reflexivity.
Defined.

(** * The best merge of a block *)

Lemma flt_irrefl (a : npfloat) : ¬ flt a a.
Proof. destruct a; simpl; try tauto. lra. Qed.

Lemma flt_trans (a b c : npfloat) : flt a b → flt b c → flt a c.
Proof.
  destruct a as [x| | |], b as [y| | |], c as [z| | |]; simpl; try tauto; lra.
Qed.

(** What is not below [b] is not below anything below [b]. *)
Lemma flt_ge_trans (d b b' : npfloat) :
  b ≠ NaN → b' ≠ NaN → ¬ flt d b → ¬ flt b b' → ¬ flt d b'.
Proof.
  destruct d as [x| | |], b as [y| | |], b' as [z| | |]; simpl;
    intros Hb Hb' H1 H2; try tauto; lra.
Qed.

Lemma merge_blocks_fold (proposals : list (Z * npfloat)) :
  ∀ best : Z * npfloat,
  best.2 ≠ NaN →
  (foldl (λ best pd, merge_blocks_step best pd.1 pd.2) best proposals).2 ≠ NaN
  ∧ (foldl (λ best pd, merge_blocks_step best pd.1 pd.2) best proposals = best
     ∨ (foldl (λ best pd, merge_blocks_step best pd.1 pd.2) best proposals
          ∈ proposals
        ∧ flt (foldl (λ best pd, merge_blocks_step best pd.1 pd.2) best
                 proposals).2 best.2))
  ∧ ¬ flt best.2
        (foldl (λ best pd, merge_blocks_step best pd.1 pd.2) best proposals).2
  ∧ ∀ pd, pd ∈ proposals →
      ¬ flt pd.2
          (foldl (λ best pd, merge_blocks_step best pd.1 pd.2) best
             proposals).2.
Proof.
  induction proposals as [|[q d] ps IH]; intros best Hbest; cbn [foldl].
  - split; [done|]. split; [by left|]. split; [apply flt_irrefl|].
    intros pd Hpd. by apply elem_of_nil in Hpd.
  - cbn [fst snd].
    destruct (flt_dec d best.2) as [Hlt|Hge] eqn:Hdec;
      [assert (merge_blocks_step best q d = (q, d)) as ->
         by (unfold merge_blocks_step; by rewrite Hdec)
      |assert (merge_blocks_step best q d = best) as ->
         by (unfold merge_blocks_step; by rewrite Hdec)].
    + assert (d ≠ NaN) as Hd by (intros ->; by destruct (best.2)).
      destruct (IH (q, d) Hd) as (Hnan & Hres & Hmin & Hall).
      cbn [fst snd] in *. set (res := foldl _ (q, d) ps) in *.
      split; [done|]. split; [|split].
      * right. destruct Hres as [->|[Hin Hlt']].
        -- split; [left|done].
        -- split; [by right|]. by eapply flt_trans.
      * intros Hcontra. apply Hmin. by eapply flt_trans.
      * intros pd [->|Hin]%elem_of_cons; [exact Hmin|by apply Hall].
    + destruct (IH best Hbest) as (Hnan & Hres & Hmin & Hall).
      set (res := foldl _ best ps) in *.
      split; [done|]. split; [|split; [done|]].
      * destruct Hres as [->|[Hin Hlt']]; [by left|right].
        split; [by right|done].
      * intros pd [->|Hin]%elem_of_cons; [|by apply Hall]. cbn [snd].
        by apply (flt_ge_trans d best.2 res.2).
Qed.

(** X12. After the proposals of a block, the change of entropy that [merge_blocks]
    has recorded for it is not [NaN] and no proposal is below it; the
    recorded pair is still the initial [-1] and [np.Inf], or one of the
    proposals, with a change of entropy below [np.Inf]: a proposal whose
    change of entropy is [NaN] or [np.Inf] is never recorded. *)
Theorem merge_blocks_keeps_least (proposals : list (Z * npfloat)) :
  (merge_blocks_proposals proposals).2 ≠ NaN
  ∧ (merge_blocks_proposals proposals = (-1, PInf)
     ∨ (merge_blocks_proposals proposals ∈ proposals
        ∧ flt (merge_blocks_proposals proposals).2 PInf))
  ∧ ∀ pd, pd ∈ proposals → ¬ flt pd.2 (merge_blocks_proposals proposals).2.
Proof.
  unfold merge_blocks_proposals.
  destruct (merge_blocks_fold proposals (-1, PInf)) as (Hnan & Hres & _ & Hall);
    [done|].
  split; [done|]. split; [exact Hres|done].
Qed.

(** * The search over the number of blocks *)

(** [int] is the floor on what is not negative, and [np_round] lies within
    a half of its argument, on the even side when exactly a half away. *)
Lemma py_int_floor (x : Q) : (0 <= x)%Q → py_int x = Qfloor x.
Proof.
  destruct x as [n d]. unfold Qle, py_int, Qfloor. simpl.
  intros Hn. apply Z.quot_div_nonneg; lia.
Qed.

Lemma np_round_nearest (x : Q) :
  (inject_Z (np_round x) - (1 # 2) <= x <= inject_Z (np_round x) + (1 # 2))%Q.
Proof.
  pose proof (Qfloor_le x) as Hlo. pose proof (Qlt_floor x) as Hhi.
  rewrite inject_Z_plus in Hhi. unfold np_round. cbv zeta.
  destruct (Qcompare_spec (x - inject_Z (Qfloor x)) (1 # 2)) as [He|Hl|Hg].
  - destruct (Z.even (Qfloor x)); rewrite ?inject_Z_plus;
      change (inject_Z 1) with 1%Q in *; lra.
  - lra.
  - rewrite inject_Z_plus. change (inject_Z 1) with 1%Q in *. lra.
Qed.

Lemma np_round_half_even (x : Q) :
  (x - inject_Z (Qfloor x) == 1 # 2)%Q → Z.even (np_round x) = true.
Proof.
  intros He. unfold np_round. cbv zeta.
  rewrite (proj1 (Qeq_alt _ _) He).
  destruct (Z.even (Qfloor x)) eqn:Hev; [done|].
  rewrite Z.even_add, Hev. reflexivity.
Qed.




(** * Progress of the search over the number of blocks *)

(** In a segment of at least two blocks, the golden-ratio point is at least
    one block away from either end. *)
Lemma np_round_golden_ratio (d : Z) :
  2 <= d → 1 <= np_round (inject_Z d * golden_ratio) <= d - 1.
Proof.
  intros Hd.
  pose proof (np_round_nearest (inject_Z d * golden_ratio)) as [Hlo Hhi].
  set (k := np_round (inject_Z d * golden_ratio)) in *.
  assert (2 <= inject_Z d)%Q as Hd'.
  { change 2%Q with (inject_Z 2). by rewrite <- Zle_Qle. }
  unfold golden_ratio in *.
  assert (0 < inject_Z k)%Q as Hk0 by lra.
  assert (inject_Z k < inject_Z d)%Q as Hkd by lra.
  change 0%Q with (inject_Z 0) in Hk0.
  rewrite <- Zlt_Qlt in Hk0, Hkd. lia.
Qed.

Lemma py_int_rate_bounds (b : Z) (rate : Q) :
  0 <= b → (0 <= rate)%Q → (rate < 1)%Q →
  0 <= py_int (inject_Z b * rate) ∧ (0 < b → py_int (inject_Z b * rate) < b).
Proof.
  intros Hb Hr0 Hr1.
  assert (0 <= inject_Z b)%Q as Hb'.
  { change 0%Q with (inject_Z 0). by rewrite <- Zle_Qle. }
  assert (0 <= inject_Z b * rate)%Q as Hx by (by apply Qmult_le_0_compat).
  rewrite (py_int_floor _ Hx).
  pose proof (Qfloor_le (inject_Z b * rate)) as Hfl.
  pose proof (Qlt_floor (inject_Z b * rate)) as Hfu.
  rewrite inject_Z_plus in Hfu. change (inject_Z 1) with 1%Q in Hfu.
  set (k := Qfloor (inject_Z b * rate)) in *.
  split.
  - assert (-1 < inject_Z k)%Q as Hk by lra.
    change (-1)%Q with (inject_Z (-1)) in Hk. rewrite <- Zlt_Qlt in Hk. lia.
  - intros Hb0.
    assert (0 < inject_Z b)%Q as Hb0'.
    { change 0%Q with (inject_Z 0). by rewrite <- Zlt_Qlt. }
    assert (inject_Z b * rate < inject_Z b)%Q as Hlt by nra.
    assert (inject_Z k < inject_Z b)%Q as Hk by lra.
    rewrite <- Zlt_Qlt in Hk. done.
Qed.



(** * Loading a graph *)

Section load_graph.
Context (weights_included : bool).

Lemma row_edge_inv (row : list Z) from to w :
  row_edge weights_included row = Some (from, to, w) →
  row !! 0%nat = Some from ∧ row !! 1%nat = Some to
  ∧ (if weights_included then row !! 2%nat else Some 1) = Some w.
Proof.
  unfold row_edge. intros H.
  destruct (row !! 0%nat) as [a|]; cbn [mbind option_bind] in H; [|done].
  destruct (row !! 1%nat) as [b|]; cbn [mbind option_bind] in H; [|done].
  destruct (if weights_included then row !! 2%nat else Some 1) as [c|];
    cbn [mbind option_bind] in H; [|done].
  by injection H as -> -> ->.
Qed.

Lemma edges_out_cons row rows k from to w :
  row_edge weights_included row = Some (from, to, w) →
  edges_out weights_included (row :: rows) k
  = (if decide (from - 1 = Z.of_nat k) then [(to - 1, w)] else [])
    ++ edges_out weights_included rows k.
Proof.
  intros Hrow. unfold edges_out. cbn [omap list_omap]. rewrite Hrow.
  cbn [mbind option_bind fst snd]. by case_decide.
Qed.

Lemma edges_in_cons row rows k from to w :
  row_edge weights_included row = Some (from, to, w) →
  edges_in weights_included (row :: rows) k
  = (if decide (to - 1 = Z.of_nat k) then [(from - 1, w)] else [])
    ++ edges_in weights_included rows k.
Proof.
  intros Hrow. unfold edges_in. cbn [omap list_omap]. rewrite Hrow.
  cbn [mbind option_bind fst snd]. by case_decide.
Qed.

Lemma sum_length_insert {A} (l : list (list A)) (k : nat) old (x : A) :
  l !! k = Some old →
  sum_list (length <$> <[k := old ++ [x]]> l) = S (sum_list (length <$> l)).
Proof.
  revert k. induction l as [|y l IH]; intros k Hold; [done|].
  destruct k as [|k].
  - injection Hold as ->. cbn. rewrite length_app. cbn. lia.
  - cbn in Hold. specialize (IH k Hold).
    change (length y + sum_list (length <$> <[k := old ++ [x]]> l)
            = S (length y + sum_list (length <$> l)))%nat.
    lia.
Qed.

Lemma append_at_spec {A} (l : list (list A)) (i : Z) (x : A) :
  0 <= i < Z.of_nat (length l) →
  ∃ l', append_at l i x = Some l'
    ∧ length l' = length l
    ∧ (∀ k, l' !! k
            = if decide (k = Z.to_nat i)
              then Some (default [] (l !! k) ++ [x]) else l !! k)
    ∧ sum_list (length <$> l') = S (sum_list (length <$> l)).
Proof.
  intros Hi. unfold append_at. rewrite np_index_nonneg by done.
  cbn [mbind option_bind].
  destruct (lookup_lt_is_Some_2 l (Z.to_nat i)) as [old Hold]; [lia|].
  rewrite Hold. cbn [mbind option_bind]. eexists. split; [done|].
  split; [by rewrite length_insert|]. split.
  - intros k. case_decide as Hk.
    + subst k. rewrite list_lookup_insert_eq by lia. by rewrite Hold.
    + by rewrite list_lookup_insert_ne.
  - by apply sum_length_insert.
Qed.

Lemma load_edges_spec (n : nat) (edge_rows : list (list Z)) :
  ∀ out0 in0 : list (list (Z * Z)),
  length out0 = n → length in0 = n →
  rows_within weights_included n edge_rows →
  ∃ out1 in1,
    load_edges edge_rows weights_included out0 in0 = Some (out1, in1)
    ∧ length out1 = n ∧ length in1 = n
    ∧ (∀ k, (k < n)%nat →
         out1 !! k = Some (default [] (out0 !! k)
                           ++ edges_out weights_included edge_rows k)
         ∧ in1 !! k = Some (default [] (in0 !! k)
                            ++ edges_in weights_included edge_rows k))
    ∧ sum_list (length <$> out1)
      = (sum_list (length <$> out0) + length edge_rows)%nat
    ∧ sum_list (length <$> in1)
      = (sum_list (length <$> in0) + length edge_rows)%nat.
Proof.
  induction edge_rows as [|row rows IH]; intros out0 in0 Ho Hi Hrows.
  - exists out0, in0. split; [done|]. split; [done|]. split; [done|].
    split; [|cbn; lia].
    intros k Hk. unfold edges_out, edges_in. cbn. rewrite !app_nil_r.
    destruct (lookup_lt_is_Some_2 out0 k) as [a Ha]; [lia|].
    destruct (lookup_lt_is_Some_2 in0 k) as [b Hb]; [lia|].
    by rewrite Ha, Hb.
  - apply Forall_cons in Hrows
      as [(from & to & w & Hrow & Hfrom & Hto) Hrows].
    destruct (row_edge_inv row from to w Hrow) as (H0 & H1 & H2).
    cbn [load_edges]. rewrite H2, H0, H1. cbn [mbind option_bind].
    destruct (append_at_spec out0 (from - 1) (to - 1, w))
      as (out' & -> & Hlo & Hgo & Hso); [lia|].
    cbn [mbind option_bind].
    destruct (append_at_spec in0 (to - 1) (from - 1, w))
      as (in' & -> & Hli & Hgi & Hsi); [lia|].
    cbn [mbind option_bind].
    destruct (IH out' in') as (out1 & in1 & Hrun & Hl1 & Hl2 & Hget & Hs1 & Hs2);
      [lia|lia|done|].
    exists out1, in1. split; [done|]. split; [done|]. split; [done|].
    split; [|cbn [length]; lia].
    intros k Hk. destruct (Hget k Hk) as [-> ->].
    rewrite (edges_out_cons row rows k from to w Hrow),
      (edges_in_cons row rows k from to w Hrow), Hgo, Hgi.
    split; f_equal.
    + destruct (decide (k = Z.to_nat (from - 1))) as [->|Hne].
      * rewrite decide_True by lia. cbn. by rewrite <- app_assoc.
      * rewrite decide_False by lia. done.
    + destruct (decide (k = Z.to_nat (to - 1))) as [->|Hne].
      * rewrite decide_True by lia. cbn. by rewrite <- app_assoc.
      * rewrite decide_False by lia. done.
Qed.

End load_graph.

Lemma foldl_max_spec (xs : list Z) :
  ∀ x, let m := foldl Z.max x xs in
       m ∈ x :: xs ∧ ∀ y, y ∈ x :: xs → y <= m.
Proof.
  induction xs as [|a xs IH]; intros x; cbn [foldl].
  - cbv zeta. split; [left|]. intros y Hy%list_elem_of_singleton. lia.
  - destruct (IH (Z.max x a)) as [Hin Hle]. cbv zeta. split.
    + apply elem_of_cons in Hin as [Heq|Hin].
      * rewrite Heq. destruct (Z.max_spec x a) as [[_ ->]|[_ ->]].
        -- right. left.
        -- left.
      * right. by right.
    + intros y Hy. apply elem_of_cons in Hy as [->|Hy].
      * pose proof (Hle (Z.max x a) ltac:(left)). lia.
      * apply elem_of_cons in Hy as [->|Hy].
        -- pose proof (Hle (Z.max x a) ltac:(left)). lia.
        -- apply Hle. by right.
Qed.

Lemma edge_file_take (weights_included : bool) (row : list Z) from to w :
  length row = (if weights_included then 3%nat else 2%nat) →
  row_edge weights_included row = Some (from, to, w) →
  take 2 row = [from; to].
Proof.
  intros Hlen Hrow.
  destruct (row_edge_inv weights_included row from to w Hrow) as (H0 & H1 & _).
  destruct row as [|a [|b row]]; try done.
  cbn in H0, H1. by injection H0 as ->; injection H1 as ->.
Qed.

Lemma max_node_id_spec (weights_included : bool) (edge_rows : list (list Z)) :
  edge_rows ≠ [] → edge_file weights_included edge_rows →
  ∃ n : nat,
    max_node_id edge_rows = Some (Z.of_nat n)
    ∧ (0 < n)%nat
    ∧ rows_within weights_included n edge_rows
    ∧ ∃ row from to w,
        row ∈ edge_rows
        ∧ row_edge weights_included row = Some (from, to, w)
        ∧ (from = Z.of_nat n ∨ to = Z.of_nat n).
Proof.
  intros Hne Hfile. unfold max_node_id.
  assert (∀ y, y ∈ mjoin (take 2 <$> edge_rows) ↔
               ∃ row from to w, row ∈ edge_rows
                 ∧ row_edge weights_included row = Some (from, to, w)
                 ∧ (from = y ∨ to = y)) as Hmem.
  { intros y. rewrite list_elem_of_join. split.
    - intros (l & Hy & Hl). apply list_elem_of_fmap in Hl as (row & -> & Hrow).
      destruct (proj1 (Forall_forall _ _) Hfile row Hrow)
        as (Hlen & from & to & w & Hedge & _).
      rewrite (edge_file_take _ row from to w Hlen Hedge) in Hy.
      exists row, from, to, w. split; [done|]. split; [done|].
      apply elem_of_cons in Hy as [->|Hy]; [by left|].
      apply list_elem_of_singleton in Hy as ->. by right.
    - intros (row & from & to & w & Hrow & Hedge & Hy).
      destruct (proj1 (Forall_forall _ _) Hfile row Hrow) as (Hlen & _).
      exists (take 2 row). split.
      + rewrite (edge_file_take _ row from to w Hlen Hedge).
        destruct Hy as [->| ->]; [left|right; left].
      + apply list_elem_of_fmap. by exists row. }
  destruct (mjoin (take 2 <$> edge_rows)) as [|x xs] eqn:Hj.
  { destruct edge_rows as [|row rows]; [done|].
    destruct (proj1 (Forall_forall _ _) Hfile row ltac:(left))
      as (Hlen & from & to & w & Hedge & _).
    assert (from ∈ ([] : list Z)) as Hin; [|by apply elem_of_nil in Hin].
    apply Hmem. exists row, from, to, w. split; [left|]. split; [done|by left]. }
  destruct (foldl_max_spec xs x) as [Hin Hle].
  set (m := foldl Z.max x xs) in *.
  assert (1 <= m) as Hm.
  { apply Hmem in Hin as (row & from & to & w & Hrow & Hedge & Hy).
    destruct (proj1 (Forall_forall _ _) Hfile row Hrow)
      as (_ & from' & to' & w' & Hedge' & Hf & Ht).
    rewrite Hedge in Hedge'. injection Hedge' as <- <- <-. lia. }
  exists (Z.to_nat m). rewrite Z2Nat.id by lia.
  split; [done|]. split; [lia|]. split.
  - apply Forall_forall. intros row Hrow.
    destruct (proj1 (Forall_forall _ _) Hfile row Hrow)
      as (_ & from & to & w & Hedge & Hf & Ht).
    exists from, to, w. split; [done|]. rewrite Z2Nat.id by lia.
    assert (from <= m).
    { apply Hle, Hmem. exists row, from, to, w. tauto. }
    assert (to <= m).
    { apply Hle, Hmem. exists row, from, to, w. tauto. }
    lia.
  - by apply Hmem.
Qed.

Lemma edge_file_weights (weights_included : bool) row rows :
  edge_file weights_included (row :: rows) →
  bool_decide (length row = 3%nat) = weights_included.
Proof.
  intros Hfile. apply Forall_cons in Hfile as [(Hlen & _) _].
  rewrite Hlen. by destruct weights_included.
Qed.

(** X14. Loading a well-formed edge file gives the graph of its rows: the number
    of nodes is the largest node number of the file, and, with the nodes
    counted from 0, the array of the outgoing edges of a node holds the
    targets and weights of the rows that leave it, in the order of the file,
    and the array of its incoming edges the sources and weights of the rows
    that enter it (the weight is 1 in a file of two columns). *)
Theorem load_graph_adjacency
    (weights_included : bool) (edge_rows : list (list Z)) :
  edge_rows ≠ [] → edge_file weights_included edge_rows →
  ∃ (g : Graph) (n : nat),
    _load_graph edge_rows None None = Some g
    ∧ num_nodes g = Z.of_nat n
    ∧ rows_within weights_included n edge_rows
    ∧ (∃ row from to w,
          row ∈ edge_rows
          ∧ row_edge weights_included row = Some (from, to, w)
          ∧ (from = Z.of_nat n ∨ to = Z.of_nat n))
    ∧ length (out_neighbors g) = n ∧ length (in_neighbors g) = n
    ∧ ∀ k, (k < n)%nat →
        out_neighbors g !! k = Some (edges_out weights_included edge_rows k)
        ∧ in_neighbors g !! k = Some (edges_in weights_included edge_rows k).
Proof.
  intros Hne Hfile.
  destruct (max_node_id_spec weights_included edge_rows Hne Hfile)
    as (n & Hmax & Hn & Hwithin & Hattained).
  destruct (load_edges_spec weights_included n edge_rows
              (replicate n []) (replicate n []))
    as (out1 & in1 & Hrun & Hl1 & Hl2 & Hget & _);
    [by rewrite length_replicate|by rewrite length_replicate|done|].
  unfold _load_graph. destruct edge_rows as [|row rows]; [done|].
  cbn [head mbind option_bind]. rewrite Hmax. cbn [mbind option_bind].
  rewrite (edge_file_weights weights_included row rows Hfile), Nat2Z.id, Hrun.
  cbn [mbind option_bind fst snd].
  eexists _, n. split; [reflexivity|].
  cbn [num_nodes out_neighbors in_neighbors].
  split; [done|]. split; [done|]. split; [done|]. split; [done|].
  split; [done|].
  intros k Hk. destruct (Hget k Hk) as [-> ->].
  by rewrite !lookup_replicate_2 by done.
Qed.

Lemma load_graph_adjacency_witness :
  ∃ g,
    _load_graph [[1; 2]; [3; 1]; [1; 3]] None None = Some g
    ∧ out_neighbors g = [[(1, 1); (2, 1)]; []; [(0, 1)]]
    ∧ in_neighbors g = [[(2, 1)]; [(0, 1)]; [(0, 1)]].
Proof.
  destruct (load_graph_adjacency false [[1; 2]; [3; 1]; [1; 3]])
    as (g & n & Hrun & _).
  - done.
  - repeat constructor; cbn; eexists _, _, _; (split; [reflexivity|lia]).
  - exists g. split; [exact Hrun|].
    vm_compute in Hrun. injection Hrun as <-. split; reflexivity.
Defined.

Lemma sum_length_replicate_nil {A} (n : nat) :
  sum_list (length <$> replicate n ([] : list A)) = 0%nat.
Proof. induction n as [|n IH]; [done|]. cbn. exact IH. Qed.

(** X15. The number of edges of the loaded graph is the number of rows of the edge
    file, parallel edges and self-loops included, and the arrays of outgoing
    edges hold as many entries in all, as do the arrays of incoming edges;
    the graph has at least one node. *)
Theorem load_graph_counts
    (weights_included : bool) (edge_rows : list (list Z)) :
  edge_rows ≠ [] → edge_file weights_included edge_rows →
  ∃ g : Graph,
    _load_graph edge_rows None None = Some g
    ∧ num_edges g = Z.of_nat (length edge_rows)
    ∧ sum_list (length <$> out_neighbors g) = length edge_rows
    ∧ sum_list (length <$> in_neighbors g) = length edge_rows
    ∧ 1 <= num_nodes g.
Proof.
  intros Hne Hfile.
  destruct (max_node_id_spec weights_included edge_rows Hne Hfile)
    as (n & Hmax & Hn & Hwithin & _).
  destruct (load_edges_spec weights_included n edge_rows
              (replicate n []) (replicate n []))
    as (out1 & in1 & Hrun & _ & _ & _ & Hs1 & Hs2);
    [by rewrite length_replicate|by rewrite length_replicate|done|].
  rewrite sum_length_replicate_nil in Hs1, Hs2.
  unfold _load_graph. destruct edge_rows as [|row rows]; [done|].
  cbn [head mbind option_bind]. rewrite Hmax. cbn [mbind option_bind].
  rewrite (edge_file_weights weights_included row rows Hfile), Nat2Z.id, Hrun.
  cbn [mbind option_bind fst snd].
  eexists. split; [reflexivity|].
  cbn [num_nodes num_edges out_neighbors in_neighbors].
  rewrite Hs1, Hs2. repeat split; lia.
Qed.

Lemma load_graph_counts_witness :
  ∃ g,
    _load_graph [[1; 2; 5]; [3; 1; 7]; [1; 2; 5]] None None = Some g
    ∧ num_edges g = 3 ∧ num_nodes g = 3.
Proof.
  destruct (load_graph_counts true [[1; 2; 5]; [3; 1; 7]; [1; 2; 5]])
    as (g & Hrun & _).
  - done.
  - repeat constructor; cbn; eexists _, _, _; (split; [reflexivity|lia]).
  - exists g. split; [exact Hrun|].
    vm_compute in Hrun. injection Hrun as <-. split; reflexivity.
Defined.

(** ** A streaming graph *)

Section streaming.
Context (weights_included : bool).

Lemma edges_out_app rows1 rows2 k :
  edges_out weights_included (rows1 ++ rows2) k
  = edges_out weights_included rows1 k ++ edges_out weights_included rows2 k.
Proof. unfold edges_out. apply omap_app. Qed.

Lemma edges_in_app rows1 rows2 k :
  edges_in weights_included (rows1 ++ rows2) k
  = edges_in weights_included rows1 k ++ edges_in weights_included rows2 k.
Proof. unfold edges_in. apply omap_app. Qed.

Lemma edges_beyond (n : nat) rows k :
  rows_within weights_included n rows → (n <= k)%nat →
  edges_out weights_included rows k = []
  ∧ edges_in weights_included rows k = [].
Proof.
  intros Hw Hk. induction rows as [|row rows IH]; [done|].
  apply Forall_cons in Hw as [(from & to & w & Hrow & Hf & Ht) Hw].
  rewrite (edges_out_cons _ row rows k from to w Hrow),
    (edges_in_cons _ row rows k from to w Hrow).
  destruct (IH Hw) as [-> ->]. rewrite !decide_False by lia. done.
Qed.

Lemma rows_within_mono (n m : nat) rows :
  (n <= m)%nat → rows_within weights_included n rows →
  rows_within weights_included m rows.
Proof.
  intros Hnm Hw. eapply Forall_impl; [exact Hw|].
  intros row (from & to & w & Hrow & Hf & Ht).
  exists from, to, w. split; [done|]. lia.
Qed.

(** What [_load_graph] returns on a file alone. *)
Lemma load_graph_alone (edge_rows : list (list Z)) :
  edge_rows ≠ [] → edge_file weights_included edge_rows →
  ∃ (n : nat) out1 in1,
    _load_graph edge_rows None None
    = Some (mkGraph out1 in1 (Z.of_nat n) (Z.of_nat (length edge_rows)) None)
    ∧ max_node_id edge_rows = Some (Z.of_nat n)
    ∧ rows_within weights_included n edge_rows
    ∧ length out1 = n ∧ length in1 = n
    ∧ sum_list (length <$> out1) = length edge_rows
    ∧ ∀ k, (k < n)%nat →
        out1 !! k = Some (edges_out weights_included edge_rows k)
        ∧ in1 !! k = Some (edges_in weights_included edge_rows k).
Proof.
  intros Hne Hfile.
  destruct (max_node_id_spec weights_included edge_rows Hne Hfile)
    as (n & Hmax & Hn & Hwithin & _).
  destruct (load_edges_spec weights_included n edge_rows
              (replicate n []) (replicate n []))
    as (out1 & in1 & Hrun & Hl1 & Hl2 & Hget & Hs1 & _);
    [by rewrite length_replicate|by rewrite length_replicate|done|].
  rewrite sum_length_replicate_nil in Hs1.
  exists n, out1, in1. split.
  { unfold _load_graph. destruct edge_rows as [|row rows]; [done|].
    cbn [head mbind option_bind]. rewrite Hmax. cbn [mbind option_bind].
    rewrite (edge_file_weights weights_included row rows Hfile), Nat2Z.id, Hrun.
    cbn [mbind option_bind fst snd]. by rewrite Hs1. }
  split; [done|]. split; [done|]. split; [done|]. split; [done|].
  split; [done|].
  intros k Hk. destruct (Hget k Hk) as [-> ->].
  by rewrite !lookup_replicate_2 by done.
Qed.

Lemma max_node_id_app rows1 rows2 (n1 n2 : nat) :
  max_node_id rows1 = Some (Z.of_nat n1) →
  max_node_id rows2 = Some (Z.of_nat n2) →
  max_node_id (rows1 ++ rows2) = Some (Z.of_nat (n1 `max` n2)).
Proof.
  unfold max_node_id. rewrite fmap_app, join_app.
  destruct (mjoin (take 2 <$> rows1)) as [|x xs]; [done|].
  destruct (mjoin (take 2 <$> rows2)) as [|y ys]; [done|].
  intros [= H1] [= H2]. cbn [app]. f_equal.
  rewrite foldl_app. cbn [foldl]. rewrite H1.
  assert (∀ l a b, foldl Z.max (Z.max a b) l = Z.max a (foldl Z.max b l))
    as Hmax.
  { induction l as [|c l IH]; intros a b; cbn [foldl]; [done|].
    rewrite <- IH. f_equal. lia. }
  rewrite Hmax, H2. lia.
Qed.

(** Loading a part on top of the graph of the earlier rows gives the graph
    of all the rows. *)
Lemma load_graph_on_top (acc edge_rows : list (list Z)) (g : Graph) tb :
  acc ≠ [] → edge_file weights_included acc →
  edge_rows ≠ [] → edge_file weights_included edge_rows →
  _load_graph acc None None = Some g →
  _load_graph edge_rows None (Some (set_truth g tb))
  = _load_graph (acc ++ edge_rows) None None.
Proof.
  intros Hne1 Hf1 Hne2 Hf2 Hg.
  destruct (load_graph_alone acc Hne1 Hf1)
    as (n1 & o1 & i1 & Hrun1 & Hmax1 & Hw1 & Hlo1 & Hli1 & Hs1 & Hget1).
  rewrite Hrun1 in Hg. injection Hg as <-.
  destruct (load_graph_alone (acc ++ edge_rows))
    as (n & o & i & -> & Hmax & Hw & Hlo & Hli & Hs & Hget).
  { by destruct acc. }
  { by apply Forall_app. }
  destruct (max_node_id_spec weights_included edge_rows Hne2 Hf2)
    as (n2 & Hmax2 & Hn2 & Hw2 & _).
  rewrite (max_node_id_app acc edge_rows n1 n2 Hmax1 Hmax2) in Hmax.
  injection Hmax as Hn%Nat2Z.inj. subst n.
  unfold _load_graph. destruct edge_rows as [|row rows]; [done|].
  cbn [head mbind option_bind]. rewrite Hmax2. cbn [mbind option_bind].
  cbn [set_truth out_neighbors in_neighbors]. rewrite Hlo1, Hli1.
  rewrite (edge_file_weights weights_included row rows Hf2).
  replace (Z.max (Z.of_nat n2) (Z.of_nat n1)) with (Z.of_nat (n1 `max` n2))
    by lia.
  replace (Z.to_nat (Z.of_nat (n1 `max` n2) - Z.of_nat n1))
    with (n1 `max` n2 - n1)%nat by lia.
  destruct (load_edges_spec weights_included (n1 `max` n2) (row :: rows)
              (o1 ++ replicate (n1 `max` n2 - n1) [])
              (i1 ++ replicate (n1 `max` n2 - n1) []))
    as (out1 & in1 & Hrun & Hl1 & Hl2 & Hget' & Hs1' & _).
  { rewrite length_app, length_replicate. lia. }
  { rewrite length_app, length_replicate. lia. }
  { eapply rows_within_mono; [|done]. lia. }
  rewrite Hrun. cbn [mbind option_bind fst snd]. do 2 f_equal.
  - apply list_eq. intros k.
    destruct (decide (k < n1 `max` n2)%nat) as [Hk|Hk].
    + destruct (Hget' k Hk) as [-> _]. destruct (Hget k Hk) as [-> _].
      rewrite edges_out_app. do 2 f_equal.
      destruct (decide (k < n1)%nat) as [Hk1|Hk1].
      * rewrite lookup_app_l by lia. by destruct (Hget1 k Hk1) as [-> _].
      * rewrite lookup_app_r by lia. rewrite lookup_replicate_2 by lia.
        by destruct (edges_beyond n1 acc k Hw1 ltac:(lia)) as [-> _].
    + rewrite !lookup_ge_None_2 by lia. done.
  - apply list_eq. intros k.
    destruct (decide (k < n1 `max` n2)%nat) as [Hk|Hk].
    + destruct (Hget' k Hk) as [_ ->]. destruct (Hget k Hk) as [_ ->].
      rewrite edges_in_app. do 2 f_equal.
      destruct (decide (k < n1)%nat) as [Hk1|Hk1].
      * rewrite lookup_app_l by lia. by destruct (Hget1 k Hk1) as [_ ->].
      * rewrite lookup_app_r by lia. rewrite lookup_replicate_2 by lia.
        by destruct (edges_beyond n1 acc k Hw1 ltac:(lia)) as [_ ->].
    + rewrite !lookup_ge_None_2 by lia. done.
  - rewrite Hs1', fmap_app, sum_list_with_app, sum_length_replicate_nil, Hs1.
    rewrite length_app. f_equal. lia.
Qed.

End streaming.

Lemma load_graph_truth (edge_rows : list (list Z))
    (truth : option (list (list Z))) (graph : option Graph) :
  _load_graph edge_rows truth graph
  = g ← _load_graph edge_rows None graph;
    tb ← match truth with
         | Some rows => Some <$> load_truth rows (replicate (length rows) (-1))
         | None => Some None
         end;
    Some (set_truth g tb).
Proof.
  unfold _load_graph.
  destruct (head edge_rows) as [first_row|]; cbn [mbind option_bind]; [|done].
  destruct (max_node_id edge_rows) as [m|]; cbn [mbind option_bind]; [|done].
  destruct (load_edges _ _ _ _) as [oi|]; cbn [mbind option_bind]; [|done].
  destruct truth as [rows|]; cbn [mbind option_bind]; [|done].
  destruct (load_truth rows _) as [tb|]; cbn; done.
Qed.

Lemma load_parts_spec (weights_included : bool) (rest : list (list (list Z))) :
  ∀ (acc : list (list Z)) (g0 : Graph) tb,
  acc ≠ [] → edge_file weights_included acc →
  Forall (λ part, part ≠ [] ∧ edge_file weights_included part) rest →
  _load_graph acc None None = Some g0 →
  load_parts rest (set_truth g0 tb)
  = g ← _load_graph (acc ++ mjoin rest) None None; Some (set_truth g tb).
Proof.
  induction rest as [|part rest IH]; intros acc g0 tb Hne Hf Hrest Hg0.
  - cbn [load_parts mjoin list_join]. rewrite app_nil_r, Hg0. done.
  - apply Forall_cons in Hrest as [[Hne' Hf'] Hrest].
    cbn [load_parts].
    rewrite (load_graph_on_top weights_included acc part g0 tb) by done.
    destruct (load_graph_alone weights_included (acc ++ part))
      as (n & o & i & Hrun & _).
    { by destruct acc. }
    { by apply Forall_app. }
    rewrite Hrun. cbn [mbind option_bind].
    change (Graph_update (set_truth g0 tb)
              (mkGraph o i (Z.of_nat n) (Z.of_nat (length (acc ++ part))) None))
      with (set_truth
              (mkGraph o i (Z.of_nat n) (Z.of_nat (length (acc ++ part))) None)
              tb).
    rewrite (IH (acc ++ part) _ tb); try done.
    + cbn [mjoin list_join]. by rewrite app_assoc.
    + by destruct acc.
    + by apply Forall_app.
Qed.

(** X16. A streaming graph loaded part by part, each part on top of the graph of
    the parts before it, is the graph that [_load_graph] returns on the rows
    of all the parts in one file, with the true partition that comes with the
    first part. *)
Theorem Graph_load_streaming
    (weights_included : bool) (first : list (list Z))
    (rest : list (list (list Z))) (truth : option (list (list Z))) :
  first ≠ [] → edge_file weights_included first →
  Forall (λ part, part ≠ [] ∧ edge_file weights_included part) rest →
  Graph_load (first :: rest) truth true
  = _load_graph (first ++ mjoin rest) truth None.
Proof.
  intros Hne Hf Hrest. unfold Graph_load.
  rewrite (load_graph_truth first), (load_graph_truth (first ++ mjoin rest)).
  destruct (load_graph_alone weights_included first Hne Hf)
    as (n & o & i & Hrun & _).
  rewrite Hrun. cbn [mbind option_bind].
  set (T := match truth with
            | Some rows =>
                Some <$> load_truth rows (replicate (length rows) (-1))
            | None => Some None
            end).
  destruct T as [tb|]; cbn [mbind option_bind].
  - rewrite (load_parts_spec weights_included rest first _ tb Hne Hf Hrest Hrun).
    by destruct (_load_graph (first ++ mjoin rest) None None).
  - by destruct (_load_graph (first ++ mjoin rest) None None).
Qed.

Lemma Graph_load_streaming_witness :
  Graph_load [[[1; 2]; [2; 1]]; [[3; 1]]; [[2; 4]; [1; 2]]]
    (Some [[1; 1]; [2; 1]; [3; 2]; [4; 2]]) true
  = _load_graph [[1; 2]; [2; 1]; [3; 1]; [2; 4]; [1; 2]]
      (Some [[1; 1]; [2; 1]; [3; 2]; [4; 2]]) None.
Proof.
  apply (Graph_load_streaming false [[1; 2]; [2; 1]] [[[3; 1]]; [[2; 4]; [1; 2]]]).
  - done.
  - repeat constructor; cbn; eexists _, _, _; (split; [reflexivity|lia]).
  - repeat constructor; try done;
      cbn; eexists _, _, _; (split; [reflexivity|lia]).
Defined.

(** ** The true partition *)

Lemma np_set_nonneg {A} (a : list A) (i : Z) (x : A) :
  0 <= i < Z.of_nat (length a) → np_set a i x = Some (<[Z.to_nat i := x]> a).
Proof. intros Hi. unfold np_set. by rewrite np_index_nonneg. Qed.

Lemma load_truth_spec (T : nat) (rows : list (list Z)) :
  ∀ tb : list Z,
  length tb = T →
  Forall (λ row, ∃ node block,
            row = [node; block] ∧ 1 <= node <= Z.of_nat T) rows →
  ∃ tb',
    load_truth rows tb = Some tb'
    ∧ length tb' = T
    ∧ (∀ k : nat, (∀ node block, [node; block] ∈ rows → node - 1 ≠ Z.of_nat k) →
         tb' !! k = tb !! k)
    ∧ (NoDup ((λ row, row !! 0%nat) <$> rows) →
       ∀ node block, [node; block] ∈ rows →
         tb' !! Z.to_nat (node - 1) = Some (block - 1)).
Proof.
  induction rows as [|row rows IH]; intros tb Hlen Hrows.
  - exists tb. split; [done|]. split; [done|]. split; [done|].
    intros _ node block Hin. by apply elem_of_nil in Hin.
  - apply Forall_cons in Hrows as [(node & block & -> & Hnode) Hrows].
    cbn [load_truth lookup list_lookup mbind option_bind].
    rewrite np_set_nonneg by lia. cbn [mbind option_bind].
    destruct (IH (<[Z.to_nat (node - 1) := block - 1]> tb))
      as (tb' & Hrun & Hlen' & Hkeep & Hset);
      [by rewrite length_insert|done|].
    exists tb'. split; [done|]. split; [done|]. split.
    + intros k Hk. rewrite Hkeep.
      * apply list_lookup_insert_ne.
        specialize (Hk node block ltac:(left)). lia.
      * intros node' block' Hin. apply (Hk node' block'). by right.
    + intros Hnd node' block' Hin. cbn [fmap list_fmap] in Hnd.
      apply NoDup_cons in Hnd as [Hnotin Hnd].
      apply elem_of_cons in Hin as [[= -> ->]|Hin]; [|by apply Hset].
      rewrite Hkeep.
      * apply list_lookup_insert_eq. lia.
      * intros node' block' Hin Heq. apply Hnotin.
        apply list_elem_of_fmap. exists [node'; block']. split; [|done].
        cbn. f_equal. lia.
Qed.

(** X17. With the file of the true partition, [true_block_assignment] has one
    entry per row of that file, not per node of the graph.  When the rows
    name the nodes [1 .. T] of a file of [T] rows, each once, the entry of a
    node is its block, both counted from 0. *)
Theorem load_graph_true_partition
    (weights_included : bool) (edge_rows true_b_rows : list (list Z)) :
  edge_rows ≠ [] → edge_file weights_included edge_rows →
  Forall (λ row, ∃ node block,
            row = [node; block]
            ∧ 1 <= node <= Z.of_nat (length true_b_rows)) true_b_rows →
  NoDup ((λ row, row !! 0%nat) <$> true_b_rows) →
  ∃ g true_b,
    _load_graph edge_rows (Some true_b_rows) None = Some g
    ∧ true_block_assignment g = Some true_b
    ∧ length true_b = length true_b_rows
    ∧ ∀ node block, [node; block] ∈ true_b_rows →
        true_b !! Z.to_nat (node - 1) = Some (block - 1).
Proof.
  intros Hne Hfile Hrows Hnd.
  destruct (load_graph_alone weights_included edge_rows Hne Hfile)
    as (n & o & i & Hrun & _).
  destruct (load_truth_spec (length true_b_rows) true_b_rows
              (replicate (length true_b_rows) (-1)))
    as (tb & Htb & Hlen & _ & Hset); [by rewrite length_replicate|done|].
  rewrite load_graph_truth, Hrun. cbn [mbind option_bind]. rewrite Htb.
  cbn [fmap option_fmap option_map mbind option_bind].
  eexists _, tb. split; [reflexivity|]. cbn [true_block_assignment set_truth].
  split; [done|]. split; [done|]. by apply Hset.
Qed.

Lemma load_graph_true_partition_witness :
  ∃ g,
    _load_graph [[1; 2]; [3; 1]] (Some [[2; 1]; [1; 2]; [3; 2]]) None = Some g
    ∧ true_block_assignment g = Some [1; 0; 1].
Proof.
  destruct (load_graph_true_partition false [[1; 2]; [3; 1]]
              [[2; 1]; [1; 2]; [3; 2]])
    as (g & tb & Hrun & _).
  - done.
  - repeat constructor; cbn; eexists _, _, _; (split; [reflexivity|lia]).
  - repeat constructor; eexists _, _; (split; [reflexivity|cbn; lia]).
  - cbn. repeat constructor; rewrite ?elem_of_cons, ?elem_of_nil;
      intros H; repeat destruct H as [H|H]; done.
  - exists g. split; [exact Hrun|].
    vm_compute in Hrun. injection Hrun as <-. reflexivity.
Defined.

(** X18. A row of the file of the true partition whose node number is larger than
    the number of rows of that file is out of the bounds of the array: the
    graph is not loaded. *)
Theorem load_graph_true_partition_short
    (edge_rows : list (list Z)) (graph : option Graph)
    (node block : Z) (rows : list (list Z)) :
  Z.of_nat (S (length rows)) < node →
  _load_graph edge_rows (Some ([node; block] :: rows)) graph = None.
Proof.
  intros Hnode. rewrite load_graph_truth.
  destruct (_load_graph edge_rows None graph) as [g|];
    cbn [mbind option_bind]; [|done].
  cbn [load_truth lookup list_lookup mbind option_bind length].
  unfold np_set, np_index. rewrite length_replicate.
  rewrite decide_True by lia. rewrite decide_False by lia. done.
Qed.

Lemma load_graph_true_partition_short_witness :
  _load_graph [[1; 2]; [3; 1]] (Some [[3; 1]; [1; 2]]) None = None.
Proof. apply load_graph_true_partition_short. cbn. lia. Defined.

(** * The subgraph of a sample *)

Section sample_lemmas.

Lemma enumerate_fold (l : list Z) :
  ∀ (a : nat) (m : gmap Z Z),
  NoDup l → (∀ v, v ∈ l → m !! v = None) →
  let m' := foldl (λ m kv, <[kv.2 := Z.of_nat kv.1]> m) m
              (zip (seq a (length l)) l) in
  (∀ k v, l !! k = Some v → m' !! v = Some (Z.of_nat (a + k)))
  ∧ (∀ v, v ∉ l → m' !! v = m !! v)
  ∧ size m' = (size m + length l)%nat.
Proof.
  induction l as [|x l IH]; intros a m Hnd Hfresh; cbn [length seq zip_with foldl].
  - cbv zeta. split; [done|]. split; [done|]. lia.
  - apply NoDup_cons in Hnd as [Hx Hnd]. cbn [fst snd].
    destruct (IH (S a) (<[x := Z.of_nat a]> m) Hnd) as (Hget & Hkeep & Hsize).
    { intros v Hv. rewrite lookup_insert_ne by (intros ->; done).
      apply Hfresh. by right. }
    cbv zeta. split; [|split].
    + intros [|k] v Hk.
      * injection Hk as <-. rewrite Hkeep by done.
        rewrite lookup_insert_eq. do 2 f_equal. lia.
      * cbn in Hk. rewrite (Hget k v Hk). do 2 f_equal. lia.
    + intros v Hv. rewrite Hkeep.
      * apply lookup_insert_ne. intros ->. apply Hv. left.
      * intros Hin. apply Hv. by right.
    + rewrite Hsize, map_size_insert_None by (apply Hfresh; left).
      cbn [length]. lia.
Qed.

Lemma enumerate_dict_spec (l : list Z) :
  NoDup l →
  (∀ k v, l !! k = Some v → Sample.enumerate_dict l !! v = Some (Z.of_nat k))
  ∧ (∀ v, v ∉ l → Sample.enumerate_dict l !! v = None)
  ∧ size (Sample.enumerate_dict l) = length l.
Proof.
  intros Hnd. unfold Sample.enumerate_dict.
  destruct (enumerate_fold l 0 ∅ Hnd) as (Hget & Hkeep & Hsize); [done|].
  cbv zeta in *. split; [|split].
  - intros k v Hk. by rewrite (Hget k v Hk).
  - intros v Hv. by rewrite Hkeep.
  - rewrite Hsize, map_size_empty. lia.
Qed.

Lemma select_isin (a test : list Z) :
  Sample.select a (Sample.np_isin a test) = filter (λ x, x ∈ test) a
  ∧ Sample.count_true (Sample.np_isin a test)
    = Z.of_nat (length (filter (λ x, x ∈ test) a)).
Proof.
  unfold Sample.select, Sample.np_isin, Sample.count_true.
  induction a as [|x a [IH1 IH2]]; [done|].
  cbn [fmap list_fmap zip_with omap list_omap fst snd].
  rewrite filter_cons. destruct (decide (x ∈ test)) as [Hx|Hx].
  - rewrite bool_decide_eq_true_2 by done. split.
    + f_equal. exact IH1.
    + cbn [length]. apply Nat2Z.inj in IH2.
      change (sum_list (1%nat :: ((λ b : bool, if b then 1%nat else 0%nat)
                <$> ((λ x0, bool_decide (x0 ∈ test)) <$> a))))
        with (S (sum_list ((λ b : bool, if b then 1%nat else 0%nat)
                <$> ((λ x0, bool_decide (x0 ∈ test)) <$> a)))).
      by rewrite IH2.
  - rewrite bool_decide_eq_false_2 by done. split; [exact IH1|].
    apply Nat2Z.inj in IH2.
    change (sum_list (0%nat :: ((λ b : bool, if b then 1%nat else 0%nat)
              <$> ((λ x0, bool_decide (x0 ∈ test)) <$> a))))
      with (sum_list ((λ b : bool, if b then 1%nat else 0%nat)
              <$> ((λ x0, bool_decide (x0 ∈ test)) <$> a))).
    by rewrite IH2.
Qed.

(** The position of a sampled vertex. *)
Lemma neighbors_in_sample_spec (sampled neighbors : list Z) :
  NoDup sampled →
  ∃ mapped,
    Sample.neighbors_in_sample (Sample.enumerate_dict sampled) sampled neighbors
    = Some (mapped,
            Z.of_nat (length (filter (λ x, x ∈ sampled) neighbors)))
    ∧ length mapped = length (filter (λ x, x ∈ sampled) neighbors)
    ∧ Forall2 (λ j w, 0 <= j ∧ sampled !! Z.to_nat j = Some w)
        mapped (filter (λ x, x ∈ sampled) neighbors).
Proof.
  intros Hnd. unfold Sample.neighbors_in_sample. cbv zeta.
  destruct (select_isin neighbors sampled) as [-> ->].
  destruct (enumerate_dict_spec sampled Hnd) as (Hget & _ & _).
  assert (∀ w, w ∈ sampled → ∃ k, sampled !! k = Some w
            ∧ Sample.enumerate_dict sampled !! w = Some (Z.of_nat k)) as Hpos.
  { intros w Hw. apply list_elem_of_lookup_1 in Hw as [k Hk].
    exists k. split; [done|]. by apply Hget. }
  set (ws := filter (λ x, x ∈ sampled) neighbors).
  assert (Forall (λ w, w ∈ sampled) ws) as Hws.
  { apply Forall_forall. intros w Hw. by apply list_elem_of_filter in Hw as [? _]. }
  clearbody ws.
  exists ((λ w, default 0 (Sample.enumerate_dict sampled !! w)) <$> ws).
  split; [|split].
  - rewrite (mapM_total _ (λ w, default 0 (Sample.enumerate_dict sampled !! w))).
    + done.
    + intros w Hw. cbv beta.
      destruct (Hpos w (proj1 (Forall_forall _ _) Hws w Hw)) as (k & _ & ->).
      done.
  - by rewrite length_fmap.
  - apply Forall2_fmap_l, Forall_Forall2_diag, Forall_forall. intros w Hw.
    unfold compose. cbv beta.
    destruct (Hpos w (proj1 (Forall_forall _ _) Hws w Hw)) as (k & Hk & ->).
    cbn. split; [lia|]. by rewrite Nat2Z.id.
Qed.

End sample_lemmas.

Section sample_init.
Context (get_out_neighbors get_in_neighbors : Z → option (list Z)).
Context (sampled : list Z).
Hypothesis Hnd : NoDup sampled.

(** The neighbours of [v] in the sample, as [nbrs] lists them by position. *)
Let lists (get : Z → option (list Z)) (v : Z) (nbrs : list Z) : Prop :=
  ∃ ons, get v = Some ons
    ∧ Forall2 (λ j w, 0 <= j ∧ sampled !! Z.to_nat j = Some w)
        nbrs (filter (λ x, x ∈ sampled) ons).

Lemma sample_loop_inv (todo : list Z) :
  ∀ outs ins ne r,
  Sample.sample_loop get_out_neighbors get_in_neighbors
    (Sample.enumerate_dict sampled) sampled todo outs ins ne = Some r →
  ∃ outs' ins',
    r = (outs ++ outs', ins ++ ins',
         ne + Z.of_nat (sum_list (length <$> outs')
                        + sum_list (length <$> ins')))
    ∧ Forall2 (lists get_out_neighbors) todo outs'
    ∧ Forall2 (lists get_in_neighbors) todo ins'.
Proof.
  induction todo as [|v todo IH]; intros outs ins ne r; cbn [Sample.sample_loop].
  - intros [= <-]. exists [], []. rewrite !app_nil_r. cbn.
    split; [f_equal; lia|]. split; constructor.
  - destruct (get_out_neighbors v) as [ons|] eqn:Hout;
      cbn [mbind option_bind]; [|done].
    destruct (neighbors_in_sample_spec sampled ons Hnd)
      as (mo & -> & Hlo & Hfo).
    cbn [mbind option_bind].
    destruct (get_in_neighbors v) as [ins0|] eqn:Hin;
      cbn [mbind option_bind]; [|done].
    destruct (neighbors_in_sample_spec sampled ins0 Hnd)
      as (mi & -> & Hli & Hfi).
    cbn [mbind option_bind fst snd].
    intros Hrun. apply IH in Hrun as (outs' & ins' & -> & Ho & Hi).
    exists (mo :: outs'), (mi :: ins'). split; [|split].
    + rewrite <- !app_assoc. cbn [app fmap list_fmap].
      f_equal.
      change (sum_list (length mo :: (length <$> outs')))
        with (length mo + sum_list (length <$> outs'))%nat.
      change (sum_list (length mi :: (length <$> ins')))
        with (length mi + sum_list (length <$> ins'))%nat.
      lia.
    + constructor; [|done]. by exists ons.
    + constructor; [|done]. by exists ins0.
Qed.

End sample_init.

Lemma Sample_init_inv get_out get_in set_order sample_idx sample_size old s :
  Sample.init get_out get_in set_order sample_idx sample_size old = Some s →
  let sampled := Sample.slice_from sample_idx (- sample_size) in
  ∃ blocks,
    Sample.sample_loop get_out get_in (Sample.enumerate_dict sampled)
      sampled sampled [] [] 0
    = Some (Sample.out_neighbors s, Sample.in_neighbors s, Sample.num_edges s)
    ∧ Sample.vertex_mapping s = Sample.enumerate_dict sampled
    ∧ Sample.sample_num s = Z.of_nat (size (Sample.enumerate_dict sampled))
    ∧ mapM (np_get old) sampled = Some blocks
    ∧ Sample.true_blocks_mapping s = Sample.enumerate_dict (set_order blocks)
    ∧ mapM (λ b, Sample.enumerate_dict (set_order blocks) !! b) blocks
      = Some (Sample.true_block_assignment s).
Proof.
  unfold Sample.init. cbv zeta. intros Hrun.
  destruct (Sample.sample_loop _ _ _ _ _ _ _ _) as [[[outs ins] ne]|];
    cbn [mbind option_bind] in Hrun; [|done].
  destruct (mapM (np_get old) _) as [blocks|];
    cbn [mbind option_bind] in Hrun; [|done].
  destruct (mapM _ blocks) as [tba|] eqn:Htba;
    cbn [mbind option_bind] in Hrun; [|done].
  injection Hrun as <-. exists blocks. cbn. by rewrite Htba.
Qed.

(** X19. The sample is the subgraph on the sampled vertices, the last
    [sample_size] entries of [sample_idx], taken to be distinct: a sampled
    vertex is renamed to its position among them, [sample_num] is their
    number, and the adjacency lists of the sample at a position hold, in
    order, the positions of those out-neighbours (in-neighbours) of the vertex
    that are sampled too. *)
Theorem Sample_init_subgraph
    (get_out_neighbors get_in_neighbors : Z → option (list Z))
    (set_order : list Z → list Z) (sample_idx : list Z) (sample_size : Z)
    (old_true_block_assignment : list Z) (s : Sample.t) :
  let sampled := Sample.slice_from sample_idx (- sample_size) in
  NoDup sampled →
  Sample.init get_out_neighbors get_in_neighbors set_order sample_idx
    sample_size old_true_block_assignment = Some s →
  Sample.sample_num s = Z.of_nat (length sampled)
  ∧ (∀ k v, sampled !! k = Some v →
       Sample.vertex_mapping s !! v = Some (Z.of_nat k))
  ∧ Forall2
      (λ v nbrs, ∃ ons,
         get_out_neighbors v = Some ons
         ∧ Forall2 (λ j w, 0 <= j < Sample.sample_num s
                           ∧ sampled !! Z.to_nat j = Some w)
             nbrs (filter (λ x, x ∈ sampled) ons))
      sampled (Sample.out_neighbors s)
  ∧ Forall2
      (λ v nbrs, ∃ ins,
         get_in_neighbors v = Some ins
         ∧ Forall2 (λ j w, 0 <= j < Sample.sample_num s
                           ∧ sampled !! Z.to_nat j = Some w)
             nbrs (filter (λ x, x ∈ sampled) ins))
      sampled (Sample.in_neighbors s).
Proof.
  intros sampled Hnd Hrun.
  destruct (Sample_init_inv _ _ _ _ _ _ _ Hrun)
    as (blocks & Hloop & Hmap & Hnum & _).
  fold sampled in Hloop, Hmap, Hnum.
  destruct (enumerate_dict_spec sampled Hnd) as (Hget & _ & Hsize).
  rewrite Hsize in Hnum.
  apply (sample_loop_inv _ _ sampled Hnd) in Hloop
    as (outs' & ins' & [= Ho Hi _] & Hfo & Hfi).
  cbn [app] in Ho, Hi. subst outs' ins'.
  split; [done|]. split; [by rewrite Hmap|].
  assert (∀ j w, 0 <= j ∧ sampled !! Z.to_nat j = Some w →
                 0 <= j < Sample.sample_num s
                 ∧ sampled !! Z.to_nat j = Some w) as Hbound.
  { intros j w [Hj Hw]. split; [|done]. split; [done|].
    apply lookup_lt_Some in Hw. lia. }
  split.
  - eapply Forall2_impl; [exact Hfo|]. intros v nbrs (ons & Hons & Hf).
    exists ons. split; [done|]. eapply Forall2_impl; [exact Hf|]. exact Hbound.
  - eapply Forall2_impl; [exact Hfi|]. intros v nbrs (ons & Hons & Hf).
    exists ons. split; [done|]. eapply Forall2_impl; [exact Hf|]. exact Hbound.
Qed.

Lemma path_sample_init :
  Sample.init Sample.path_out Sample.path_in (merge_sort Z.le ∘ remove_dups)
    [0; 2; 1] 2 [5; 5; 7] = Some Sample.path_sample.
Proof. by vm_compute. Qed.

Lemma path_sample_NoDup : NoDup (Sample.slice_from [0; 2; 1] (- 2)).
Proof.
  vm_compute. repeat constructor; rewrite ?elem_of_cons, ?elem_of_nil;
    intros ?; intuition discriminate.
Qed.

Lemma Sample_init_subgraph_witness :
  ∃ s,
    Sample.init Sample.path_out Sample.path_in (merge_sort Z.le ∘ remove_dups)
      [0; 2; 1] 2 [5; 5; 7] = Some s
    ∧ Sample.sample_num s = 2
    ∧ Sample.out_neighbors s = [[]; [1; 0]]
    ∧ Sample.in_neighbors s = [[1]; [1]].
Proof.
  exists Sample.path_sample. split; [exact path_sample_init|].
  destruct (Sample_init_subgraph Sample.path_out Sample.path_in
              (merge_sort Z.le ∘ remove_dups) [0; 2; 1] 2 [5; 5; 7]
              Sample.path_sample path_sample_NoDup path_sample_init)
    as (Hnum & _).
  split; [exact Hnum|]. split; reflexivity.
Defined.

Section counting.

Lemma sum_list_cons (x : nat) (l : list nat) :
  sum_list (x :: l) = (x + sum_list l)%nat.
Proof. done. Qed.

Lemma sum_indicator (S : list Z) (x : Z) :
  NoDup S →
  sum_list ((λ w, if decide (x = w) then 1 else 0)%nat <$> S)
  = if decide (x ∈ S) then 1%nat else 0%nat.
Proof.
  induction 1 as [|y S Hy Hnd IH]; [done|].
  rewrite fmap_cons, sum_list_cons, IH.
  destruct (decide (x = y)) as [->|Hne].
  - rewrite decide_False by done. rewrite decide_True by left. done.
  - destruct (decide (x ∈ S)) as [Hin|Hin].
    + rewrite decide_True by (by right). done.
    + rewrite decide_False; [done|].
      intros [?|?]%elem_of_cons; done.
Qed.

Lemma sum_list_add {X} (f g : X → nat) (l : list X) :
  sum_list ((λ x, f x + g x)%nat <$> l)
  = (sum_list (f <$> l) + sum_list (g <$> l))%nat.
Proof.
  induction l as [|x l IH]; [done|].
  rewrite !fmap_cons, !sum_list_cons, IH. lia.
Qed.

Lemma sum_list_ext {X} (f g : X → nat) (l : list X) :
  (∀ x, x ∈ l → f x = g x) → sum_list (f <$> l) = sum_list (g <$> l).
Proof.
  induction l as [|x l IH]; intros H; [done|].
  rewrite !fmap_cons, !sum_list_cons, (H x) by left.
  rewrite IH; [done|]. intros y Hy. apply H. by right.
Qed.

Lemma length_filter_members (S l : list Z) :
  NoDup S →
  length (filter (λ x, x ∈ S) l)
  = sum_list ((λ w, length (filter (λ x, x = w) l)) <$> S).
Proof.
  intros Hnd. induction l as [|x l IH].
  - cbn. induction S as [|w S IHS]; [done|].
    apply NoDup_cons in Hnd as [_ Hnd].
    rewrite fmap_cons, sum_list_cons, <- IHS by done. done.
  - rewrite filter_cons.
    rewrite (sum_list_ext _
      (λ w, (if decide (x = w) then 1 else 0)
            + length (filter (λ x0, x0 = w) l))%nat).
    2:{ intros w _. rewrite filter_cons. by destruct (decide (x = w)). }
    rewrite sum_list_add, sum_indicator, <- IH by done.
    by destruct (decide (x ∈ S)).
Qed.

Lemma sum_list_swap {X Y} (f : X → Y → nat) (l1 : list X) (l2 : list Y) :
  sum_list ((λ v, sum_list (f v <$> l2)) <$> l1)
  = sum_list ((λ w, sum_list ((λ v, f v w) <$> l1)) <$> l2).
Proof.
  induction l1 as [|x l1 IH].
  - cbn. induction l2 as [|y l2 IH2]; [done|].
    by rewrite fmap_cons, sum_list_cons, <- IH2.
  - rewrite fmap_cons, sum_list_cons, IH, <- sum_list_add.
    apply sum_list_ext. intros w _. by rewrite fmap_cons, sum_list_cons.
Qed.

Lemma sum_lengths_listed (get : Z → option (list Z)) (S : list Z)
    (f : Z → Z → nat) (todo : list Z) (outs : list (list Z)) :
  NoDup S →
  (∀ v, v ∈ todo → ∃ l, get v = Some l
     ∧ ∀ w, w ∈ S → length (filter (λ x, x = w) l) = f v w) →
  Forall2
    (λ v nbrs, ∃ ons, get v = Some ons
       ∧ Forall2 (λ j w, 0 <= j ∧ S !! Z.to_nat j = Some w)
           nbrs (filter (λ x, x ∈ S) ons))
    todo outs →
  sum_list (length <$> outs) = sum_list ((λ v, sum_list (f v <$> S)) <$> todo).
Proof.
  intros Hnd Hget Hf. induction Hf as [|v nbrs todo outs (ons & Hons & Hl) Hf IH].
  - done.
  - rewrite !fmap_cons, !sum_list_cons, IH.
    2:{ intros v' Hv'. apply Hget. by right. }
    f_equal. destruct (Hget v) as (l & Hl' & Hcount); [left|].
    rewrite Hons in Hl'. injection Hl' as <-.
    rewrite (Forall2_length _ _ _ Hl), (length_filter_members S ons Hnd).
    by apply sum_list_ext.
Qed.

End counting.

(** X20. [num_edges] of a sample counts every edge between two sampled vertices
    twice, once at its source and once at its target: when the two methods
    of the graph list the same edges, the adjacency lists of the sample hold
    the edges within the sample once each, outgoing and incoming, and
    [num_edges] is twice their number. *)
Theorem Sample_init_num_edges
    (edge_count : Z → Z → nat)
    (get_out_neighbors get_in_neighbors : Z → option (list Z))
    (set_order : list Z → list Z) (sample_idx : list Z) (sample_size : Z)
    (old_true_block_assignment : list Z) (s : Sample.t) :
  let sampled := Sample.slice_from sample_idx (- sample_size) in
  NoDup sampled →
  Sample.lists_edges edge_count get_out_neighbors get_in_neighbors sampled →
  Sample.init get_out_neighbors get_in_neighbors set_order sample_idx
    sample_size old_true_block_assignment = Some s →
  sum_list (length <$> Sample.out_neighbors s)
  = Sample.edges_within edge_count sampled
  ∧ sum_list (length <$> Sample.in_neighbors s)
    = Sample.edges_within edge_count sampled
  ∧ Sample.num_edges s = 2 * Z.of_nat (Sample.edges_within edge_count sampled).
Proof.
  intros sampled Hnd Hedges Hrun.
  destruct (Sample_init_inv _ _ _ _ _ _ _ Hrun) as (blocks & Hloop & _).
  fold sampled in Hloop.
  apply (sample_loop_inv _ _ sampled Hnd) in Hloop
    as (outs' & ins' & [= Ho Hi Hne] & Hfo & Hfi).
  cbn [app] in Ho, Hi. subst outs' ins'.
  assert (sum_list (length <$> Sample.out_neighbors s)
          = Sample.edges_within edge_count sampled) as Hout.
  { apply (sum_lengths_listed get_out_neighbors sampled edge_count); try done.
    intros v Hv. destruct (Hedges v Hv) as (outs & ins & Ho & _ & Hc).
    exists outs. split; [done|]. intros w Hw. by apply Hc. }
  assert (sum_list (length <$> Sample.in_neighbors s)
          = Sample.edges_within edge_count sampled) as Hin.
  { rewrite (sum_lengths_listed get_in_neighbors sampled
               (λ v w, edge_count w v) sampled); try done.
    - unfold Sample.edges_within. apply sum_list_swap.
    - intros v Hv. destruct (Hedges v Hv) as (outs & ins & _ & Hi & Hc).
      exists ins. split; [done|]. intros w Hw. by apply Hc. }
  split; [done|]. split; [done|]. rewrite Hne, Hout, Hin. lia.
Qed.

Lemma path_lists_edges :
  Sample.lists_edges Sample.path_edges Sample.path_out Sample.path_in
    (Sample.slice_from [0; 2; 1] (- 2)).
Proof.
  intros v Hv. vm_compute in Hv.
  apply elem_of_cons in Hv as [->|Hv];
    [|apply list_elem_of_singleton in Hv as ->].
  - exists [], [1]. split; [reflexivity|]. split; [reflexivity|].
    intros w Hw. vm_compute in Hw.
    apply elem_of_cons in Hw as [->|Hw];
      [|apply list_elem_of_singleton in Hw as ->]; split; reflexivity.
  - exists [1; 2], [0; 1]. split; [reflexivity|]. split; [reflexivity|].
    intros w Hw. vm_compute in Hw.
    apply elem_of_cons in Hw as [->|Hw];
      [|apply list_elem_of_singleton in Hw as ->]; split; reflexivity.
Qed.

Lemma Sample_init_num_edges_witness :
  ∃ s,
    Sample.init Sample.path_out Sample.path_in (merge_sort Z.le ∘ remove_dups)
      [0; 2; 1] 2 [5; 5; 7] = Some s
    ∧ Sample.num_edges s = 2 * 2.
Proof.
  exists Sample.path_sample. split; [exact path_sample_init|].
  destruct (Sample_init_num_edges Sample.path_edges Sample.path_out
              Sample.path_in (merge_sort Z.le ∘ remove_dups) [0; 2; 1] 2
              [5; 5; 7] Sample.path_sample path_sample_NoDup path_lists_edges
              path_sample_init)
    as (_ & _ & Hnum).
  exact Hnum.
Defined.

(** X21. The true blocks of the sampled vertices are renumbered to consecutive
    numbers: two sampled vertices get the same number exactly when they had
    the same true block, every number is below the number of distinct blocks
    in the sample, and each such number is in use. *)
Theorem Sample_init_true_blocks
    (get_out_neighbors get_in_neighbors : Z → option (list Z))
    (set_order : list Z → list Z) (sample_idx : list Z) (sample_size : Z)
    (old_true_block_assignment : list Z) (s : Sample.t) (blocks : list Z) :
  Sample.lists_set set_order →
  Sample.init get_out_neighbors get_in_neighbors set_order sample_idx
    sample_size old_true_block_assignment = Some s →
  mapM (np_get old_true_block_assignment)
    (Sample.slice_from sample_idx (- sample_size)) = Some blocks →
  length (Sample.true_block_assignment s) = length blocks
  ∧ (∀ i j b b' c c',
       blocks !! i = Some b → blocks !! j = Some b' →
       Sample.true_block_assignment s !! i = Some c →
       Sample.true_block_assignment s !! j = Some c' →
       (c = c' ↔ b = b'))
  ∧ Forall (λ c, 0 <= c < Z.of_nat (length (set_order blocks)))
      (Sample.true_block_assignment s)
  ∧ (∀ c, 0 <= c < Z.of_nat (length (set_order blocks)) →
       c ∈ Sample.true_block_assignment s).
Proof.
  intros Hset Hrun Hblocks.
  destruct (Sample_init_inv _ _ _ _ _ _ _ Hrun)
    as (blocks' & _ & _ & _ & Hb & _ & Htba).
  rewrite Hblocks in Hb. injection Hb as <-.
  destruct (Hset blocks) as [Hnd Hmem].
  destruct (enumerate_dict_spec (set_order blocks) Hnd) as (Hget & _ & _).
  apply mapM_Some_1 in Htba.
  assert (∀ i b c, blocks !! i = Some b →
            Sample.true_block_assignment s !! i = Some c →
            0 <= c ∧ set_order blocks !! Z.to_nat c = Some b) as Hpos.
  { intros i b c Hi Hc.
    destruct (Forall2_lookup_l _ _ _ _ _ Htba Hi) as (c' & Hc' & Hlook).
    rewrite Hc in Hc'. injection Hc' as <-.
    assert (b ∈ set_order blocks) as Hin.
    { apply Hmem. by eapply list_elem_of_lookup_2. }
    apply list_elem_of_lookup_1 in Hin as [k Hk].
    cbv beta in Hlook. rewrite (Hget k b Hk) in Hlook.
    injection Hlook as <-. split; [lia|]. by rewrite Nat2Z.id. }
  split; [symmetry; by eapply Forall2_length|]. split; [|split].
  - intros i j b b' c c' Hi Hj Hc Hc'.
    destruct (Hpos i b c Hi Hc) as [H0 Hk].
    destruct (Hpos j b' c' Hj Hc') as [H0' Hk'].
    split.
    + intros <-. congruence.
    + intros <-.
      pose proof (NoDup_lookup _ _ _ _ Hnd Hk Hk'). lia.
  - apply Forall_forall. intros c Hc.
    apply list_elem_of_lookup_1 in Hc as [i Hi].
    destruct (Forall2_lookup_r _ _ _ _ _ Htba Hi) as (b & Hb & _).
    destruct (Hpos i b c Hb Hi) as [H0 Hk].
    apply lookup_lt_Some in Hk. lia.
  - intros c Hc.
    destruct (lookup_lt_is_Some_2 (set_order blocks) (Z.to_nat c)) as [b Hb];
      [lia|].
    assert (b ∈ blocks) as Hin.
    { apply Hmem. by eapply list_elem_of_lookup_2. }
    apply list_elem_of_lookup_1 in Hin as [i Hi].
    destruct (Forall2_lookup_l _ _ _ _ _ Htba Hi) as (c' & Hc' & _).
    destruct (Hpos i b c' Hi Hc') as [H0 Hk].
    pose proof (NoDup_lookup _ _ _ _ Hnd Hb Hk).
    assert (c = c') as -> by lia. by eapply list_elem_of_lookup_2.
Qed.

Lemma sorted_lists_set : Sample.lists_set (merge_sort Z.le ∘ remove_dups).
Proof.
  intros l. unfold compose. split.
  - rewrite merge_sort_Permutation. apply NoDup_remove_dups.
  - intros x. rewrite merge_sort_Permutation. apply elem_of_remove_dups.
Qed.

Lemma Sample_init_true_blocks_witness :
  ∃ s,
    Sample.init Sample.path_out Sample.path_in (merge_sort Z.le ∘ remove_dups)
      [0; 2; 1] 2 [5; 5; 7] = Some s
    ∧ Sample.true_block_assignment s = [1; 0]
    ∧ length (Sample.true_block_assignment s) = 2%nat.
Proof.
  exists Sample.path_sample. split; [exact path_sample_init|].
  destruct (Sample_init_true_blocks Sample.path_out Sample.path_in
              (merge_sort Z.le ∘ remove_dups) [0; 2; 1] 2 [5; 5; 7]
              Sample.path_sample [7; 5] sorted_lists_set path_sample_init
              eq_refl)
    as (Hlen & _).
  split; [reflexivity|exact Hlen].
Defined.

(** X22. [sample_idx[-sample_size:]] with [sample_size = 0] is not the empty
    sample: a sample of size 0, like one of a size at or above the length of
    [sample_idx], is the sample of all of [sample_idx]. *)
Theorem Sample_init_size_zero
    (get_out_neighbors get_in_neighbors : Z → option (list Z))
    (set_order : list Z → list Z) (sample_idx : list Z) (sample_size : Z)
    (old_true_block_assignment : list Z) :
  sample_size = 0 ∨ Z.of_nat (length sample_idx) <= sample_size →
  Sample.slice_from sample_idx (- sample_size) = sample_idx
  ∧ Sample.init get_out_neighbors get_in_neighbors set_order sample_idx
      sample_size old_true_block_assignment
    = Sample.init get_out_neighbors get_in_neighbors set_order sample_idx
        (Z.of_nat (length sample_idx)) old_true_block_assignment.
Proof.
  intros Hsize.
  assert (∀ k, k = 0 ∨ Z.of_nat (length sample_idx) <= k →
               Sample.slice_from sample_idx (- k) = sample_idx) as Hslice.
  { intros k Hk. unfold Sample.slice_from.
    destruct (decide (- k < 0)) as [Hneg|Hneg].
    - replace (Z.to_nat (Z.of_nat (length sample_idx) + - k)) with 0%nat by lia.
      done.
    - replace (Z.to_nat (- k)) with 0%nat by lia. done. }
  split; [by apply Hslice|].
  unfold Sample.init. rewrite (Hslice sample_size Hsize).
  rewrite (Hslice (Z.of_nat (length sample_idx))) by lia. done.
Qed.

Lemma Sample_init_size_zero_witness :
  Sample.slice_from [0; 2; 1] (- 0) = [0; 2; 1]
  ∧ Sample.init Sample.path_out Sample.path_in (merge_sort Z.le ∘ remove_dups)
      [0; 2; 1] 0 [5; 5; 7]
    = Sample.init Sample.path_out Sample.path_in (merge_sort Z.le ∘ remove_dups)
        [0; 2; 1] (Z.of_nat (length [0; 2; 1])) [5; 5; 7].
Proof. apply Sample_init_size_zero. left. reflexivity. Defined.

(** * Proposals *)

Section proposals.
Local Open Scope Z_scope.

Lemma elem_of_np_arange (n : nat) (x : Z) :
  x ∈ np_arange n ↔ 0 <= x < Z.of_nat n.
Proof.
  unfold np_arange. rewrite list_elem_of_fmap. split.
  - intros (k & -> & Hk%elem_of_seq). lia.
  - intros Hx. exists (Z.to_nat x). split; [lia|]. apply elem_of_seq. lia.
Qed.

Lemma propose_random_block_range (rng : Random) (current_block num_blocks s : Z)
    (agg_move : bool) :
  random_ok rng →
  propose_random_block rng current_block num_blocks agg_move = Some s →
  0 <= s < num_blocks ∧ (agg_move = true → s ≠ current_block).
Proof.
  intros (Hchoice & _ & Hint & _) Hrun. destruct agg_move; cbn in Hrun.
  - apply Hchoice, list_elem_of_filter in Hrun as [Hne Hin].
    apply elem_of_np_arange in Hin. split; [lia|done].
  - apply Hint in Hrun. by split.
Qed.

Lemma np_index_of_nonneg (len : nat) (i : Z) (k : nat) :
  np_index len i = Some k → 0 <= i → i = Z.of_nat k.
Proof. unfold np_index. intros Hk Hi. repeat case_decide; simplify_eq; lia. Qed.

Lemma np_get_elem_of {A} (a : list A) (i : Z) (x : A) :
  np_get a i = Some x → x ∈ a.
Proof.
  unfold np_get. intros Hget.
  destruct (np_index (length a) i) as [k|]; cbn in Hget; [|done].
  by eapply list_elem_of_lookup_2.
Qed.

Lemma np_add_length (B : nat) (a b c : list Z) :
  length a = B → length b = B → np_add a b = Some c → length c = B.
Proof.
  intros Ha Hb. unfold np_add. rewrite decide_True by lia.
  intros [= <-]. rewrite length_zip_with. lia.
Qed.

Lemma elem_of_fnonzero (a : list npfloat) (i : nat) :
  i ∈ fnonzero a ↔ ∃ x, a !! i = Some x ∧ fzero_dec x = false.
Proof.
  unfold fnonzero. rewrite list_elem_of_omap. split.
  - intros ([k x] & Hin & Hsome). cbn [fst snd] in Hsome.
    destruct (fzero_dec x) eqn:Hz; [done|]. injection Hsome as ->.
    apply list_elem_of_lookup_1 in Hin as [j Hj].
    apply lookup_zip_with_Some in Hj as (k' & y & Heq & Hk & Hy).
    apply lookup_seq in Hk as [-> _]. cbn in Heq. simplify_eq.
    eexists. split; [exact Hy|done].
  - intros (x & Hx & Hz). exists (i, x). split.
    + apply (list_elem_of_lookup_2 _ i).
      apply lookup_zip_with_Some. exists i, x. split; [done|]. split; [|done].
      apply lookup_seq. split; [done|]. by apply lookup_lt_Some in Hx.
    + cbn [fst snd]. by rewrite Hz.
Qed.

(** The draw among the candidates. *)
Lemma multinomial_candidate {A} (rng : Random) (prob : list npfloat)
    (f : nat → A) (res : A) :
  (pvals ← take_idx prob (fnonzero prob);
   draw ← random_multinomial rng pvals;
   i ← first_nonzero draw;
   s ← fnonzero prob !! i;
   Some (f s)) = Some res →
  ∃ s, s ∈ fnonzero prob ∧ res = f s.
Proof.
  intros Hrun.
  destruct (take_idx prob (fnonzero prob)) as [pvals|];
    cbn [mbind option_bind] in Hrun; [|done].
  destruct (random_multinomial rng pvals) as [draw|];
    cbn [mbind option_bind] in Hrun; [|done].
  destruct (first_nonzero draw) as [i|];
    cbn [mbind option_bind] in Hrun; [|done].
  destruct (fnonzero prob !! i) as [s|] eqn:Hs;
    cbn [mbind option_bind] in Hrun; [|done].
  injection Hrun as <-. exists s. split; [|done].
  by eapply list_elem_of_lookup_2.
Qed.

Lemma fnonzero_lt (a : list npfloat) (i : nat) :
  i ∈ fnonzero a → (i < length a)%nat.
Proof.
  intros (x & Hx & _)%elem_of_fnonzero. by apply lookup_lt_Some in Hx.
Qed.

(** A uniform draw above [B / (d + B)] shows that the degree [d] is not
    zero. *)
Lemma uniform_guard (rng : Random) (B d : Z) :
  random_ok rng → 0 <= d → d + B ≠ 0 →
  fle_dec (random_uniform rng) (fdiv (of_Z B) (of_Z (d + B))) = false →
  0 < d.
Proof.
  intros (_ & _ & _ & (x & Hu & Hx) & _) Hd HdB Hle.
  destruct (decide (d = 0)) as [->|]; [|lia]. exfalso.
  rewrite Hu, Z.add_0_l in Hle. unfold of_Z in Hle.
  assert (IZR B ≠ 0)%R as HB by (apply not_0_IZR; lia).
  rewrite fdiv_fin in Hle by done. cbn in Hle.
  destruct (Rle_dec x (IZR B / IZR B)) as [|Hn]; [done|].
  apply Hn. replace (IZR B / IZR B)%R with 1%R by (by field). lra.
Qed.

(** The probabilities of a block of nonzero degree, and what is left of them
    when the entry of [r] is cleared. *)
Lemma probabilities_finite (counts : list Z) (d : Z) :
  d ≠ 0 →
  (λ x, fdiv (of_Z x) (of_Z d)) <$> counts
  = Fin <$> ((λ x, IZR x / IZR d)%R <$> counts).
Proof.
  intros Hd. rewrite <- list_fmap_compose. apply list_fmap_ext.
  intros _ x _. cbn. unfold of_Z. apply fdiv_fin. by apply not_0_IZR.
Qed.

Lemma cleared_not_candidate (l : list R) (k s : nat) (prob : list npfloat) :
  prob = <[k := Fin 0]> (Fin <$> l) →
  fzero_dec (fsum prob) = false →
  s ∈ fnonzero ((λ x, fdiv x (fsum prob)) <$> prob) →
  (s < length l)%nat ∧ s ≠ k.
Proof.
  intros -> Hz Hs.
  assert (<[k := Fin 0]> (Fin <$> l) = Fin <$> <[k := 0%R]> l) as Hfin
    by (by rewrite list_fmap_insert).
  rewrite Hfin in *. rewrite fsum_fin in *.
  set (t := sumR (<[k:=0%R]> l)) in *.
  assert (t ≠ 0%R) as Ht.
  { cbn in Hz. by destruct (Req_dec_T t 0). }
  split.
  { apply fnonzero_lt in Hs.
    by rewrite !length_fmap, length_insert in Hs. }
  intros ->. apply elem_of_fnonzero in Hs as (x & Hx & Hnz).
  rewrite !list_lookup_fmap in Hx.
  destruct (decide (k < length l)%nat) as [Hk|Hk].
  - rewrite list_lookup_insert_eq in Hx by done.
    cbn [fmap option_fmap option_map] in Hx.
    injection Hx as <-. destruct (Req_dec_T t 0); [done|]. cbn in Hnz.
    destruct (Req_dec_T (0 / t) 0) as [|Hn]; [done|].
    apply Hn. by field.
  - rewrite lookup_ge_None_2 in Hx by (rewrite length_insert; lia). done.
Qed.

Lemma first_choice_ok (x : R) :
  (0 <= x < 1)%R → random_ok (first_choice (Fin x)).
Proof.
  intros Hx. split; [|split; [|split; [|split]]].
  - intros [|y l] z [=]. subst. left.
  - intros [|y l] p z [=]. subst. left.
  - intros n z Hz. cbn in Hz. case_decide; simplify_eq. lia.
  - by exists x.
  - intros [|y p] v [= <-]; [done|]. cbn. by rewrite length_replicate.
Qed.

Lemma fzero_dec_zero : fzero_dec (Fin 0) = true.
Proof. cbn. by destruct (Req_dec_T 0 0). Qed.

Lemma fzero_dec_fin (x : R) : x ≠ 0%R → fzero_dec (Fin x) = false.
Proof. intros Hx. cbn. by destruct (Req_dec_T x 0). Qed.

(** A merge proposal on the ring: the neighbour lies in block 1, the uniform
    draw 3/4 is above 3/5, and of the neighbours 0 and 2 of block 1 only
    block 2 is left. *)
Lemma ring_proposal :
  propose_new_partition (first_choice (Fin (3 / 4))) 0 [(1, 1)] [] [0; 1; 2]
    ring_partition true = Some (2, 1, 0, 1).
Proof.
  unfold propose_new_partition. cbv zeta.
  rewrite decide_False by (cbn; lia).
  cbn [first_choice random_choice_p random_uniform fmap list_fmap app head
       mbind option_bind fst snd].
  change (np_get [0; 1; 2] 1) with (Some 1). cbn [mbind option_bind].
  change (np_get (block_degrees ring_partition) 1) with (Some 2).
  cbn [mbind option_bind].
  rewrite decide_False by (cbn; lia).
  assert (fle_dec (Fin (3 / 4))
            (fdiv (of_Z (num_blocks ring_partition))
                  (of_Z (2 + num_blocks ring_partition))) = false) as ->.
  { change (2 + num_blocks ring_partition) with 5.
    change (num_blocks ring_partition) with 3. unfold of_Z.
    rewrite fdiv_fin by lra. cbn.
    destruct (Rle_dec (3 / 4) (3 / 5)); [lra|done]. }
  change (np_index (length (interblock_edge_count ring_partition)) 1)
    with (Some 1%nat). cbn [mbind option_bind].
  change (getrow (interblock_edge_count ring_partition) 1) with (Some [0; 0; 1]).
  cbn [mbind option_bind].
  change (np_index (length [0; 0; 1]) 1) with (Some 1%nat).
  cbn [mbind option_bind].
  change (getcol (interblock_edge_count ring_partition) 1) with (Some [1; 0; 0]).
  cbn [mbind option_bind].
  change (np_add [0; 0; 1] [1; 0; 0]) with (Some [1; 0; 1]).
  cbn [mbind option_bind].
  rewrite probabilities_finite by lia.
  change (np_set (Fin <$> ((λ x, (IZR x / 2)%R) <$> [1; 0; 1])) 0 (Fin 0))
    with (Some (Fin <$> [0; 0 / 2; 1 / 2]%R)).
  cbn [mbind option_bind]. rewrite fsum_fin.
  replace (sumR [0; 0 / 2; 1 / 2]%R) with (1 / 2)%R by (cbn; lra).
  rewrite fzero_dec_fin by lra.
  assert ((λ x, fdiv x (Fin (1 / 2))) <$> (Fin <$> [0; 0 / 2; 1 / 2]%R)
          = [Fin 0; Fin 0; Fin 1]) as ->.
  { cbn [fmap list_fmap]. rewrite !fdiv_fin by lra.
    repeat f_equal; lra. }
  assert (fnonzero [Fin 0; Fin 0; Fin 1] = [2%nat]) as ->.
  { unfold fnonzero. cbn [length seq zip zip_with omap list_omap fst snd].
    rewrite fzero_dec_zero, fzero_dec_fin by lra. done. }
  reflexivity.
Qed.

End proposals.

(** X23. A proposal of [propose_new_partition] is a block of the partition,
    and for a block merge ([agg_move]) it is never the current block [r]:
    with a generator that keeps numpy's contracts, a square edge-count matrix
    of [num_blocks] rows and block degrees that are not negative, every
    returned [s] has [0 <= s < num_blocks], and [s <> r] when [agg_move] is
    set. *)
Theorem propose_new_partition_proposal (rng : Random) (r : Z)
    (neighbors_out neighbors_in : list (Z * Z)) (b : list Z)
    (partition : Partition) (agg_move : bool) (s k_out k_in k : Z) (B : nat) :
  random_ok rng →
  num_blocks partition = Z.of_nat B →
  wf_matrix B (interblock_edge_count partition) →
  Forall (λ d, 0 <= d) (block_degrees partition) →
  propose_new_partition rng r neighbors_out neighbors_in b partition agg_move
    = Some (s, k_out, k_in, k) →
  0 <= s < num_blocks partition ∧ (agg_move = true → s ≠ r).
Proof.
  intros Hok HB [HlenM Hrows] Hdeg Hrun.
  unfold propose_new_partition in Hrun. cbv zeta in Hrun.
  case_decide as Hk0.
  { destruct (propose_random_block _ _ _ _) as [s'|] eqn:Hp;
      cbn [mbind option_bind] in Hrun; [|done].
    injection Hrun as <- _ _ _. by eapply propose_random_block_range. }
  destruct (random_choice_p _ _ _) as [rand_neighbor|];
    cbn [mbind option_bind] in Hrun; [|done].
  destruct (np_get b rand_neighbor) as [u|];
    cbn [mbind option_bind] in Hrun; [|done].
  destruct (np_get (block_degrees partition) u) as [d_u|] eqn:Hdu;
    cbn [mbind option_bind] in Hrun; [|done].
  case_decide as HdB; [done|].
  destruct (fle_dec _ _) eqn:Hunif.
  { destruct (propose_random_block _ _ _ _) as [s'|] eqn:Hp;
      cbn [mbind option_bind] in Hrun; [|done].
    injection Hrun as <- _ _ _. by eapply propose_random_block_range. }
  assert (0 < d_u) as Hpos.
  { apply (uniform_guard rng (num_blocks partition)); [done| |done|done].
    apply np_get_elem_of in Hdu.
    exact (proj1 (Forall_forall _ _) Hdeg d_u Hdu). }
  destruct (np_index _ u) as [iu|];
    cbn [mbind option_bind] in Hrun; [|done].
  destruct (getrow _ iu) as [row|] eqn:Hrow;
    cbn [mbind option_bind] in Hrun; [|done].
  destruct (np_index _ u) as [ju|];
    cbn [mbind option_bind] in Hrun; [|done].
  destruct (getcol _ ju) as [col|] eqn:Hcol;
    cbn [mbind option_bind] in Hrun; [|done].
  destruct (np_add row col) as [counts|] eqn:Hadd;
    cbn [mbind option_bind] in Hrun; [|done].
  assert (length counts = B) as Hcounts.
  { apply (np_add_length B row col); [| |done].
    - apply list_elem_of_lookup_2 in Hrow.
      exact (proj1 (Forall_forall _ _) Hrows row Hrow).
    - apply length_mapM in Hcol. lia. }
  rewrite probabilities_finite in Hrun by lia.
  set (l := (λ x, (IZR x / IZR d_u)%R) <$> counts) in Hrun.
  assert (length l = B) as Hl by (unfold l; by rewrite length_fmap).
  destruct agg_move.
  - destruct (np_set (Fin <$> l) r (Fin 0)) as [prob|] eqn:Hset;
      cbn [mbind option_bind] in Hrun; [|done].
    unfold np_set in Hset.
    destruct (np_index _ r) as [kr|] eqn:Hkr;
      cbn [mbind option_bind] in Hset; [|done].
    injection Hset as Hprob. symmetry in Hprob.
    destruct (fzero_dec (fsum prob)) eqn:Hz.
    + destruct (random_choice rng _) as [s'|] eqn:Hp;
        cbn [mbind option_bind] in Hrun; [|done].
      injection Hrun as <- _ _ _.
      by apply (propose_random_block_range rng r _ s' true).
    + apply (multinomial_candidate rng _ (λ s, (Z.of_nat s, _, _, _))) in Hrun
        as (s' & Hs' & [= -> _ _ _]).
      apply (cleared_not_candidate l kr s' prob Hprob Hz) in Hs' as [Hlt Hne].
      split; [lia|]. intros _ Hr. apply Hne.
      apply np_index_of_nonneg in Hkr; lia.
  - apply (multinomial_candidate rng _ (λ s, (Z.of_nat s, _, _, _))) in Hrun
      as (s' & Hs' & [= -> _ _ _]).
    apply fnonzero_lt in Hs'. rewrite length_fmap in Hs'.
    split; [lia|done].
Qed.

Lemma propose_new_partition_proposal_witness :
  0 <= 2 < num_blocks ring_partition ∧ (true = true → 2 ≠ 0).
Proof.
  apply (propose_new_partition_proposal (first_choice (Fin (3 / 4))) 0
           [(1, 1)] [] [0; 1; 2] ring_partition true 2 1 0 1 3%nat).
  - apply first_choice_ok. lra.
  - reflexivity.
  - split; [reflexivity|]. repeat constructor.
  - repeat constructor; lia.
  - exact ring_proposal.
Defined.
(** * Contribution counts of the snowball sampler *)

Section contribution.
Local Open Scope Z_scope.

Lemma np_get_in_range {A} (a : list A) (i : Z) :
  0 <= i < Z.of_nat (length a) → np_get a i = a !! Z.to_nat i.
Proof. intros Hi. unfold np_get. by rewrite np_index_nonneg. Qed.

Lemma flagged_in_range (index_flag neighbor_flag : list bool) (v : Z) :
  length neighbor_flag = length index_flag →
  0 <= v < Z.of_nat (length index_flag) →
  ∃ seen, Sample.flagged index_flag neighbor_flag v = Some seen.
Proof.
  intros Hlen Hv. unfold Sample.flagged.
  rewrite !np_get_in_range by lia.
  destruct (lookup_lt_is_Some_2 index_flag (Z.to_nat v)) as [i ->]; [lia|].
  destruct (lookup_lt_is_Some_2 neighbor_flag (Z.to_nat v)) as [j ->]; [lia|].
  cbn. destruct i; eauto.
Qed.

Lemma count_new_spec (vertex : Z) (index_flag neighbor_flag : list bool)
    (out_neighbors : list Z) :
  ∀ (contribution : list Z) (c : Z),
  length index_flag = length contribution →
  length neighbor_flag = length contribution →
  0 <= vertex < Z.of_nat (length contribution) →
  Forall (λ v, 0 <= v < Z.of_nat (length contribution)) out_neighbors →
  contribution !! Z.to_nat vertex = Some c →
  Sample.count_new vertex contribution index_flag neighbor_flag out_neighbors
  = Some (<[Z.to_nat vertex :=
             c + Z.of_nat (length (Sample.new_neighbors index_flag
                                     neighbor_flag out_neighbors))]>
            contribution).
Proof.
  induction out_neighbors as [|o rest IH]; intros contribution c Hi Hn Hv Hall Hc.
  - cbn. f_equal. rewrite Z.add_0_r. symmetry. by apply list_insert_id.
  - apply Forall_cons in Hall as [Ho Hall].
    destruct (flagged_in_range index_flag neighbor_flag o) as [seen Hseen];
      [lia|lia|].
    cbn [Sample.count_new]. rewrite Hseen. cbn [mbind option_bind].
    unfold Sample.new_neighbors. rewrite filter_cons.
    destruct seen.
    + cbn [mbind option_bind]. rewrite decide_False by (by rewrite Hseen).
      by apply IH.
    + rewrite np_get_in_range, Hc by lia. cbn [mbind option_bind].
      rewrite np_set_nonneg by lia. cbn [mbind option_bind].
      rewrite decide_True by done.
      rewrite (IH _ (c + 1)).
      * rewrite list_insert_insert_eq. do 2 f_equal. cbn [length].
        fold (Sample.new_neighbors index_flag neighbor_flag rest). lia.
      * by rewrite length_insert.
      * by rewrite length_insert.
      * by rewrite length_insert.
      * by rewrite length_insert.
      * apply list_lookup_insert_eq. apply lookup_lt_Some in Hc. done.
Qed.

Lemma discount_spec (in_neighbors : list Z) :
  ∀ contribution : list Z,
  Forall (λ v, 0 <= v < Z.of_nat (length contribution)) in_neighbors →
  Forall (λ c, 0 <= c) contribution →
  ∃ contribution',
    Sample.discount contribution in_neighbors = Some contribution'
    ∧ length contribution' = length contribution
    ∧ Forall (λ c, 0 <= c) contribution'
    ∧ ∀ w, Z.of_nat w ∉ in_neighbors → contribution' !! w = contribution !! w.
Proof.
  induction in_neighbors as [|v rest IH]; intros contribution Hall Hpos.
  - exists contribution. by repeat split.
  - apply Forall_cons in Hall as [Hv Hall].
    cbn [Sample.discount]. rewrite np_get_in_range by lia.
    destruct (lookup_lt_is_Some_2 contribution (Z.to_nat v)) as [c Hc]; [lia|].
    rewrite Hc. cbn [mbind option_bind].
    case_decide as Hgt.
    + rewrite np_set_nonneg by lia. cbn [mbind option_bind].
      destruct (IH (<[Z.to_nat v := c - 1]> contribution))
        as (c' & Hrun & Hlen & Hpos' & Hframe).
      { by rewrite length_insert. }
      { apply Forall_insert; [done|lia]. }
      exists c'. rewrite length_insert in Hlen.
      split; [done|]. split; [done|]. split; [done|].
      intros w Hw. rewrite Hframe by (intros ?; apply Hw; by right).
      apply list_lookup_insert_ne. intros <-. apply Hw.
      rewrite Z2Nat.id by lia. left.
    + cbn [mbind option_bind].
      destruct (IH contribution Hall Hpos) as (c' & Hrun & Hlen & Hpos' & Hframe).
      exists c'. split; [done|]. split; [done|]. split; [done|].
      intros w Hw. apply Hframe. intros ?. apply Hw. by right.
Qed.

End contribution.

(** X24. [_add_neighbor] on lists of one length and neighbours within range
    never raises: it appends the vertex to [neighbors], sets its flag, keeps
    the length of [contribution] and keeps every contribution non-negative.
    When the contribution of the vertex was 0 and the vertex is not its own
    in-neighbour, its new contribution is the number of its out-neighbours
    that are neither sampled nor flagged, the vertex itself counting as
    flagged. *)
Theorem add_neighbor_contribution (vertex : Z) (contribution : list Z)
    (index_flag neighbor_flag : list bool) (out_neighbors in_neighbors : list Z)
    (neighbors : list Z) :
  length index_flag = length contribution →
  length neighbor_flag = length contribution →
  0 <= vertex < Z.of_nat (length contribution) →
  Forall (λ v, 0 <= v < Z.of_nat (length contribution)) out_neighbors →
  Forall (λ v, 0 <= v < Z.of_nat (length contribution)) in_neighbors →
  Forall (λ c, 0 <= c) contribution →
  let neighbor_flag' := <[Z.to_nat vertex := true]> neighbor_flag in
  ∃ contribution',
    Sample._add_neighbor vertex contribution index_flag neighbor_flag
      out_neighbors in_neighbors neighbors
    = Some (contribution', neighbor_flag', neighbors ++ [vertex])
    ∧ length contribution' = length contribution
    ∧ Forall (λ c, 0 <= c) contribution'
    ∧ (contribution !! Z.to_nat vertex = Some 0 → vertex ∉ in_neighbors →
       contribution' !! Z.to_nat vertex
       = Some (Z.of_nat (length (Sample.new_neighbors index_flag neighbor_flag'
                                   out_neighbors)))).
Proof.
  intros Hi Hn Hv Houts Hins Hpos neighbor_flag'.
  unfold Sample._add_neighbor. cbv zeta.
  rewrite np_set_nonneg by lia. cbn [mbind option_bind].
  fold neighbor_flag'.
  rewrite np_get_in_range by lia.
  destruct (lookup_lt_is_Some_2 contribution (Z.to_nat vertex)) as [c Hc]; [lia|].
  rewrite Hc. cbn [mbind option_bind].
  case_decide as Hc0.
  - subst c. unfold Sample._calculate_contribution.
    rewrite (count_new_spec vertex index_flag neighbor_flag' out_neighbors
               contribution 0); try done.
    2: { unfold neighbor_flag'. by rewrite length_insert. }
    cbn [mbind option_bind]. rewrite Z.add_0_l.
    set (m := Z.of_nat (length (Sample.new_neighbors index_flag neighbor_flag'
                                  out_neighbors))).
    destruct (discount_spec in_neighbors (<[Z.to_nat vertex := m]> contribution))
      as (c' & Hrun & Hlen & Hpos' & Hframe).
    { by rewrite length_insert. }
    { apply Forall_insert; [done|]. unfold m. lia. }
    rewrite Hrun. cbn [mbind option_bind]. exists c'.
    rewrite length_insert in Hlen.
    split; [done|]. split; [done|]. split; [done|].
    intros _ Hself. rewrite Hframe.
    + apply list_lookup_insert_eq. lia.
    + by rewrite Z2Nat.id by lia.
  - exists contribution. split; [done|]. split; [done|]. split; [done|].
    intros Hzero. congruence.
Qed.

Lemma add_neighbor_contribution_witness :
  ∃ contribution',
    Sample._add_neighbor 1 [0; 0; 0] [true; false; false] [false; false; false]
      [0; 2; 1] [0] []
    = Some (contribution', [false; true; false], [1])
    ∧ length contribution' = 3%nat
    ∧ Forall (λ c, 0 <= c) contribution'
    ∧ ([0; 0; 0] !! 1%nat = Some 0 → 1 ∉ [0] →
       contribution' !! 1%nat = Some 1).
Proof.
  apply (add_neighbor_contribution 1 [0; 0; 0] [true; false; false]
           [false; false; false] [0; 2; 1] [0] []).
  - reflexivity.
  - reflexivity.
  - simpl. lia.
  - repeat constructor; simpl; lia.
  - repeat constructor; simpl; lia.
  - repeat constructor; lia.
Defined.
